(** * Cograph generator: cotree enumeration, graph6 encoding, pipeline

    A shallow embedding of the cograph generator (package
    [cograph_generator]) and the properties of its specification.

    Python [str] is [string], Python [int] used as a count is [nat],
    signed parameters ([batch_size], [num_processes]) are [Z], [dict]
    is stdpp's [gmap], generators are the lists of the values they yield
    (in yield order), exceptions are the [Raise] branch of [result].
    In the visualization module and the window Python [float] is the
    kernel's binary64 [float], a [networkx.Graph] is the map from each
    node to its neighbours, and exceptions are the [Raises] branch of
    [outcome]. *)

From Stdlib Require Import Ascii String Floats.
From stdpp Require Import base list gmap strings pretty relations.

Open Scope string_scope.
Open Scope list_scope.
Open Scope nat_scope.
Open Scope stdpp_scope.

(* ===================================================================== *)
(** * Part I: definitions                                                 *)
(* ===================================================================== *)

(** ** Exceptions and results *)

Inductive exn :=
  | IndexError
  | ValueError
  | StructureParseError (offending : string)
  | EncodingRangeError (n : nat)
  | RecursionExhausted.

Inductive result (A : Type) :=
  | Ok (x : A)
  | Raise (e : exn).
Arguments Ok {A} x.
Arguments Raise {A} e.

Global Instance result_ret : MRet result := λ A x, Ok x.
Global Instance result_bind : MBind result := λ A B k m,
  match m with
  | Ok x => k x
  | Raise e => Raise e
  end.

(** [pool.map]-like traversal: all results in input order, or a failure. *)
Fixpoint map_result {A B} (f : A → result B) (l : list A) : result (list B) :=
  match l with
  | [] => Ok []
  | x :: l' =>
      match f x with
      | Raise e => Raise e
      | Ok y =>
          match map_result f l' with
          | Raise e => Raise e
          | Ok ys => Ok (y :: ys)
          end
      end
  end.

(** ** Cotrees and their canonical text *)

Inductive operator := JOIN | UNION.

Inductive cotree :=
  | Leaf
  | Node (op : operator) (children : list cotree).

Definition operator_text (op : operator) : string :=
  match op with JOIN => "J" | UNION => "U" end.

Definition operator_char (op : operator) : ascii :=
  match op with JOIN => "J"%char | UNION => "U"%char end.

(** [",".join(children)] *)
Fixpoint join_comma (children : list string) : string :=
  match children with
  | [] => ""
  | [c] => c
  | c :: rest => c +:+ "," +:+ join_comma rest
  end.

(** Modelled from the spec: [_apply_cograph_operator_structure] of
    [cograph_generator/utils.py], which is not among the sources.  The
    spec's structure text is [J(U(a,a),a)]: the operator, then the
    comma-separated children between parentheses. *)
Definition _apply_cograph_operator_structure
    (operator : string) (children : list string) : string :=
  operator +:+ "(" +:+ join_comma children +:+ ")".

Fixpoint serialize (t : cotree) : string :=
  match t with
  | Leaf => "a"
  | Node op children =>
      _apply_cograph_operator_structure (operator_text op) (map serialize children)
  end.

Fixpoint leaves (t : cotree) : nat :=
  match t with
  | Leaf => 1
  | Node _ children => sum_list (map leaves children)
  end.

(** Number of nodes (leaves and internal nodes). *)
Fixpoint nodes (t : cotree) : nat :=
  match t with
  | Leaf => 1
  | Node _ children => S (sum_list (map nodes children))
  end.

(** Every internal node has at least [k] children. *)
Fixpoint branching (k : nat) (t : cotree) : Prop :=
  match t with
  | Leaf => True
  | Node _ children =>
      k ≤ length children ∧
      (fix all (l : list cotree) : Prop :=
         match l with
         | [] => True
         | c :: l' => branching k c ∧ all l'
         end) children
  end.

Definition root_operator (t : cotree) : option operator :=
  match t with
  | Leaf => None
  | Node op _ => Some op
  end.

(** Reduced cotree: no internal node has a child with its own operator. *)
Fixpoint reduced (t : cotree) : Prop :=
  match t with
  | Leaf => True
  | Node op children =>
      (fix all (l : list cotree) : Prop :=
         match l with
         | [] => True
         | c :: l' => (root_operator c ≠ Some op ∧ reduced c) ∧ all l'
         end) children
  end.

(** The operator the composer uses at recursion depth [depth]. *)
Definition operator_at (depth : nat) : operator :=
  if depth mod 2 =? 0 then JOIN else UNION.

(** Every internal node at distance [k] from the root carries
    [operator_at (depth + k)]. *)
Fixpoint alternates (depth : nat) (t : cotree) : Prop :=
  match t with
  | Leaf => True
  | Node op children =>
      op = operator_at depth ∧
      (fix all (l : list cotree) : Prop :=
         match l with
         | [] => True
         | c :: l' => alternates (S depth) c ∧ all l'
         end) children
  end.

(** ** PartitionEnumerator *)

(** Partitions of [n] into non-increasing positive parts, each at most
    [bound], largest first part first (reverse lexicographic order). *)
Fixpoint partitions_bounded (fuel n bound : nat) : list (list nat) :=
  match fuel with
  | 0 => if n =? 0 then [[]] else []
  | S fuel' =>
      if n =? 0 then [[]]
      else
        flat_map
          (λ first, map (cons first) (partitions_bounded fuel' (n - first) first))
          (rev (seq 1 (Nat.min n bound)))
  end.

(** Modelled from the spec: [_generate_all_unique_integer_partitions] of
    [cograph_generator/utils.py], which is not among the sources.  The
    spec's PartitionEnumerator yields every partition into two or more
    non-increasing positive parts, each exactly once, in a fixed order
    (here reverse lexicographic); for [n = 1] it yields nothing. *)
Definition _generate_all_unique_integer_partitions (n : nat) : list (list nat) :=
  filter (λ p, 2 ≤ length p) (partitions_bounded n n n).

(** ** The redundancy-free product *)

(** Combinations with repetition of size [m], by non-decreasing index. *)
Fixpoint combinations_with_replacement {A} (m : nat) : list A → list (list A) :=
  match m with
  | 0 => λ _, [[]]
  | S m' =>
      fix inner (pool : list A) : list (list A) :=
        match pool with
        | [] => []
        | x :: rest =>
            map (cons x) (combinations_with_replacement m' pool) ++ inner rest
        end
  end.

(** Runs of equal adjacent streams, each with its multiplicity. *)
Fixpoint group_runs {A} `{EqDecision A} (streams : list A) : list (A * nat) :=
  match streams with
  | [] => []
  | s :: rest =>
      match group_runs rest with
      | (s', m) :: groups =>
          if decide (s = s') then (s', S m) :: groups
          else (s, 1) :: (s', m) :: groups
      | [] => [(s, 1)]
      end
  end.

(** Cartesian product of the groups' choices, each term concatenated. *)
Fixpoint product_concat {A} (choices : list (list (list A))) : list (list A) :=
  match choices with
  | [] => [[]]
  | g :: rest => flat_map (λ c, map (app c) (product_concat rest)) g
  end.

(** Modelled from the spec: [_generate_ordered_cartesian_product] of
    [cograph_generator/utils.py], which is not among the sources.  The
    spec groups the parts of equal size (their child streams are the same
    list), selects combinations with repetition of size [m] from the
    stream of a group of multiplicity [m], takes the Cartesian product
    across the groups and concatenates each term into one child list. *)
Definition _generate_ordered_cartesian_product
    (child_streams : list (list string)) : list (list string) :=
  product_concat
    (map (λ g, combinations_with_replacement (snd g) (fst g))
         (group_runs child_streams)).

(** ** StructureComposer: [generate_all_cotree_structures] *)

(** [generate_all_cotree_structures(node_count, depth)] of
    [cograph_generator/generator.py]; the list is the sequence of yielded
    strings.  [fuel] bounds the recursion depth; [node_count] levels are
    enough since every part of a partition with two or more parts is
    smaller than [node_count] (see [compose_fuel_stable]). *)
Fixpoint compose_fuel (fuel node_count depth : nat) : list string :=
  match fuel with
  | 0 => []
  | S fuel' =>
      let operator := if depth mod 2 =? 0 then "J" else "U" in
      if node_count =? 1 then ["a"]
      else
        flat_map
          (λ partition,
             if length partition =? 1 then []
             else
               let child_streams :=
                 map (λ part_size, compose_fuel fuel' part_size (depth + 1))
                     partition in
               map (λ combination,
                      _apply_cograph_operator_structure operator combination)
                   (_generate_ordered_cartesian_product child_streams))
          (_generate_all_unique_integer_partitions node_count)
  end.

Definition generate_all_cotree_structures (node_count depth : nat) : list string :=
  compose_fuel node_count node_count depth.

(** Modelled from the spec: [generate_connected_cotree_structures] of
    [src/cograph_generator/structures.py], which is not among the
    sources: [connected(n) = compose(n, depth)], the root being [JOIN]
    at depth 0. *)
Definition generate_connected_cotree_structures (node_count depth : nat) : list string :=
  generate_all_cotree_structures node_count depth.

(** Modelled from the spec: the [generate_all_cotree_structures] of
    [src/cograph_generator/structures.py] ([all(n)]), which is not among
    the sources: the connected structures, then every [UNION] of two or
    more connected components, the components of equal size combined by
    the same repetition-aware rule. *)
Definition generate_every_cotree_structure (node_count depth : nat) : list string :=
  generate_connected_cotree_structures node_count depth ++
  flat_map
    (λ partition,
       map (λ combination, _apply_cograph_operator_structure "U" combination)
           (_generate_ordered_cartesian_product
              (map (λ component_size,
                      generate_connected_cotree_structures component_size depth)
                   partition)))
    (_generate_all_unique_integer_partitions node_count).

(** ** Graph6Encoder *)

Definition operator_of_char (c : ascii) : option operator :=
  if decide (c = "J"%char) then Some JOIN
  else if decide (c = "U"%char) then Some UNION
  else None.

(** Reader of the canonical structure text.  [stack] holds the open
    nodes (operator and the children read so far, last first), [done]
    the subtree just completed.  A failure reports the text left at the
    point where reading stopped. *)
Fixpoint parse_go (s : string) (stack : list (operator * list cotree))
    (done : option cotree) : result cotree :=
  match s with
  | "" =>
      match done, stack with
      | Some t, [] => Ok t
      | _, _ => Raise (StructureParseError s)
      end
  | String c rest =>
      match done with
      | None =>
          if decide (c = "a"%char) then parse_go rest stack (Some Leaf)
          else
            match operator_of_char c, rest with
            | Some op, String p rest' =>
                if decide (p = "("%char) then parse_go rest' ((op, []) :: stack) None
                else Raise (StructureParseError s)
            | _, _ => Raise (StructureParseError s)
            end
      | Some t =>
          match stack with
          | [] => Raise (StructureParseError s)
          | (op, siblings) :: stack' =>
              if decide (c = ","%char) then
                parse_go rest ((op, t :: siblings) :: stack') None
              else if decide (c = ")"%char) then
                parse_go rest stack' (Some (Node op (rev (t :: siblings))))
              else Raise (StructureParseError s)
          end
      end
  end.

Definition parse_structure (structure : string) : result cotree :=
  parse_go structure [] None.

Record graph := { order : nat; edge_list : list (nat * nat) }.

Definition empty_graph : graph := {| order := 0; edge_list := [] |}.
Definition single_vertex : graph := {| order := 1; edge_list := [] |}.

Definition shift_edges (k : nat) (l : list (nat * nat)) : list (nat * nat) :=
  map (λ e, (k + fst e, k + snd e)) l.

(** No edges between the two operands. *)
Definition disjoint_union (g h : graph) : graph :=
  {| order := order g + order h;
     edge_list := edge_list g ++ shift_edges (order g) (edge_list h) |}.

(** Every vertex of [g] adjacent to every vertex of [h], in addition to
    the edges inside each. *)
Definition complete_join (g h : graph) : graph :=
  {| order := order g + order h;
     edge_list :=
       edge_list g ++ shift_edges (order g) (edge_list h) ++
       flat_map (λ u, map (λ v, (u, order g + v)) (seq 0 (order h)))
                (seq 0 (order g)) |}.

Definition combine (op : operator) : graph → graph → graph :=
  match op with JOIN => complete_join | UNION => disjoint_union end.

(** The graph of a structure: leaves are numbered left to right. *)
Fixpoint graph_of (t : cotree) : graph :=
  match t with
  | Leaf => single_vertex
  | Node op children => foldr (combine op) empty_graph (map graph_of children)
  end.

Definition adjacent (g : graph) (i j : nat) : bool :=
  bool_decide ((i, j) ∈ edge_list g ∨ (j, i) ∈ edge_list g).

(** One step along an edge between two vertices of the graph. *)
Definition edge_step (g : graph) (u v : nat) : Prop :=
  u < order g ∧ v < order g ∧ adjacent g u v = true.

Definition connected (g : graph) : Prop :=
  ∀ u v, u < order g → v < order g → rtc (edge_step g) u v.

(** The graph a structure text derives by the join/union rule. *)
Definition structure_graph (structure : string) : result graph :=
  t ← parse_structure structure;
  Ok (graph_of t).

(** The subtree reached from the root by the child indices of [path]. *)
Fixpoint subtree (t : cotree) (path : list nat) : option cotree :=
  match path with
  | [] => Some t
  | i :: path' =>
      match t with
      | Leaf => None
      | Node _ children =>
          match children !! i with
          | Some c => subtree c path'
          | None => None
          end
      end
  end.

(** Upper triangle, column by column: x(0,1), x(0,2), x(1,2), x(0,3), ... *)
Definition upper_triangle_bits (n : nat) (x : nat → nat → bool) : list bool :=
  flat_map (λ j, map (λ i, x i j) (seq 0 j)) (seq 1 (n - 1)).

(** Six bits per value, most significant first; [value] holds the
    [filled] bits of the group being filled. *)
Fixpoint pack_bits (bits : list bool) (value filled : nat) : list nat :=
  match bits with
  | [] => if filled =? 0 then [] else [value * 2 ^ (6 - filled)]
  | b :: rest =>
      let value' := 2 * value + (if b then 1 else 0) in
      if S filled =? 6 then value' :: pack_bits rest 0 0
      else pack_bits rest value' (S filled)
  end.

Definition chr (code : nat) : ascii := ascii_of_nat code.

Definition graph6_line (n : nat) (x : nat → nat → bool) : string :=
  String (chr (n + 63))
    (string_of_list_ascii
       (map (λ v, chr (v + 63)) (pack_bits (upper_triangle_bits n x) 0 0))).

(** Modelled from the spec: [_structure_to_g6_optimized_worker] of
    [cograph_generator/adjacency_g6.py], which is not among the sources.
    The spec's encoder parses the structure into a graph by the
    join/union rule, rejects more than 62 vertices, and writes the size
    character followed by the packed upper triangle. *)
Definition _structure_to_g6_optimized_worker (structure : string) : result string :=
  t ← parse_structure structure;
  let g := graph_of t in
  if 62 <? order g then Raise (EncodingRangeError (order g))
  else Ok (graph6_line (order g) (adjacent g)).

(** The graph6 line as the format describes it, position by position:
    [bit_at bits m] is the [m]-th bit of the column-major upper triangle,
    [0] past its end; character [k] of the body packs bits [6k .. 6k+5],
    most significant first. *)
Definition bit_at (bits : list bool) (m : nat) : nat :=
  match bits !! m with
  | Some true => 1
  | _ => 0
  end.

Definition group_value (bits : list bool) (k : nat) : nat :=
  32 * bit_at bits (6 * k) + 16 * bit_at bits (6 * k + 1) +
  8 * bit_at bits (6 * k + 2) + 4 * bit_at bits (6 * k + 3) +
  2 * bit_at bits (6 * k + 4) + bit_at bits (6 * k + 5).

Definition graph6_reference (n : nat) (x : nat → nat → bool) : string :=
  String (chr (n + 63))
    (string_of_list_ascii
       (map (λ k, chr (group_value (upper_triangle_bits n x) k + 63))
            (seq 0 ((n * (n - 1) / 2 + 5) / 6)))).

(** Number of upper-triangle positions in the columns before column [j]. *)
Fixpoint triangle (j : nat) : nat :=
  match j with
  | 0 => 0
  | S j' => j' + triangle j'
  end.

(** ** PipelineOrchestrator: files *)

(** [str.isspace] on code points below 256. *)
Definition is_space (c : ascii) : bool :=
  let n := nat_of_ascii c in
  ((9 <=? n) && (n <=? 13)) || ((28 <=? n) && (n <=? 32)) ||
  (n =? 133) || (n =? 160).

Fixpoint lstrip (s : string) : string :=
  match s with
  | "" => ""
  | String c rest => if is_space c then lstrip rest else s
  end.

Fixpoint rstrip (s : string) : string :=
  match s with
  | "" => ""
  | String c rest =>
      match rstrip rest with
      | "" => if is_space c then "" else String c ""
      | kept => String c kept
      end
  end.

(** [str.strip()] *)
Definition strip (s : string) : string := rstrip (lstrip s).

(** Every character of the text satisfies [P]. *)
Fixpoint string_forall (P : ascii → bool) (s : string) : bool :=
  match s with
  | "" => true
  | String c rest => P c && string_forall P rest
  end.

(** A text that [strip] and the blank-line filter leave alone: not
    empty, no white space. *)
Definition structure_line (s : string) : Prop :=
  s ≠ "" ∧ string_forall (λ c, negb (is_space c)) s = true.

(** A text without line feed. *)
Definition single_line (s : string) : Prop :=
  string_forall (λ c, negb (bool_decide (c = "010"%char))) s = true.

(** The encoding of [s], when the worker returns one, is one line. *)
Definition encodes_to_line (worker : string → result string) (s : string) : Prop :=
  match worker s with
  | Ok g6 => single_line g6
  | Raise _ => True
  end.

Definition succeeds {A} (r : result A) : Prop :=
  match r with Ok _ => True | Raise _ => False end.

Definition newline : ascii := "010"%char.

(** Text up to and including the first line feed, and what follows it. *)
Fixpoint split_line (s : string) : string * string :=
  match s with
  | "" => ("", "")
  | String c rest =>
      if decide (c = newline) then (String c "", rest)
      else (String c (fst (split_line rest)), snd (split_line rest))
  end.

Fixpoint string_drop (n : nat) (s : string) : string :=
  match n, s with
  | 0, _ => s
  | S n', String _ rest => string_drop n' rest
  | S _, "" => ""
  end.

(** The lines of a text, without their line feeds. *)
Fixpoint text_lines_go (s current : string) : list string :=
  match s with
  | "" => if decide (current = "") then [] else [current]
  | String c rest =>
      if decide (c = newline) then current :: text_lines_go rest ""
      else text_lines_go rest (current +:+ String c "")
  end.

Definition text_lines (s : string) : list string := text_lines_go s "".

(** What writing each element followed by a line feed produces. *)
Fixpoint lines_text (l : list string) : string :=
  match l with
  | [] => ""
  | s :: l' => s +:+ String newline "" +:+ lines_text l'
  end.

Definition read_file (fs : gmap string string) (path : string) : string :=
  default "" (fs !! path).

Definition append_file (fs : gmap string string) (path text : string)
  : gmap string string :=
  <[path := read_file fs path +:+ text]> fs.

(** [f_in.readline()] on a handle at [offset] of the file at [path]. *)
Definition readline (fs : gmap string string) (path : string) (offset : nat)
  : string * nat :=
  let line := fst (split_line (string_drop offset (read_file fs path))) in
  (line, offset + String.length line).

(** [[f_in.readline() for _ in range(count)]] *)
Fixpoint read_lines (fs : gmap string string) (path : string)
    (offset count : nat) : list string * nat :=
  match count with
  | 0 => ([], offset)
  | S count' =>
      let '(line, offset') := readline fs path offset in
      let '(lines, offset'') := read_lines fs path offset' count' in
      (line :: lines, offset'')
  end.

Section pipeline.
(** The structure generator and the encoder worker the module imports. *)
Variable generator : nat → nat → list string.
Variable worker : string → result string.

(** [with mp.Pool(num_processes) as pool: pool.map(worker, batch)]:
    the pool refuses fewer than one process; [map] returns the results
    in input order.  When several items fail Python re-raises one of
    their failures; the model takes the first in input order. *)
Definition pool_map (num_processes : Z) (batch : list string)
  : result (list string) :=
  if (num_processes <? 1)%Z then Raise ValueError
  else map_result worker batch.

(** The [while True] loop of phase 2.  Returns the file system and
    [Ok ()] after the [break], or the failure that left the loop. *)
Fixpoint convert_batches (fuel : nat) (temp_filename output_filename : string)
    (batch_size num_processes : Z) (offset : nat) (fs : gmap string string)
  : gmap string string * result unit :=
  match fuel with
  | 0 => (fs, Raise RecursionExhausted)
  | S fuel' =>
      let '(raw, offset') :=
        read_lines fs temp_filename offset (Z.to_nat batch_size) in
      let batch := map strip raw in
      let batch := filter (λ s, s ≠ "") batch in
      match batch with
      | [] => (fs, Ok ())
      | _ =>
          match pool_map num_processes batch with
          | Raise e => (fs, Raise e)
          | Ok graph6_results =>
              let fs' :=
                fold_left
                  (λ fs g6, append_file fs output_filename
                              (g6 +:+ String newline ""))
                  graph6_results fs in
              convert_batches fuel' temp_filename output_filename
                batch_size num_processes offset' fs'
          end
      end
  end.

(** Phase 1: the scratch file, one raw structure per line. *)
Definition write_scratch (temp_filename : string) (structures : list string)
    (fs : gmap string string) : gmap string string :=
  fold_left
    (λ fs structure,
       append_file fs temp_filename (structure +:+ String newline ""))
    structures (<[temp_filename := ""]> fs).

(** Phase 2: both files opened, the loop, both files closed. *)
Definition convert_scratch (temp_filename output_filename : string)
    (batch_size num_processes : Z) (fs : gmap string string)
  : gmap string string * result unit :=
  let fs := <[output_filename := ""]> fs in
  convert_batches (S (String.length (read_file fs temp_filename)))
    temp_filename output_filename batch_size num_processes 0 fs.

(** [generate_cographs_final_g6] after the generator is selected.
    [temp_filename] is the name [tempfile.NamedTemporaryFile] picked,
    [fs] the files on disk before the call; the result is the files on
    disk afterwards and the value returned or the exception raised. *)
Definition final_g6 (node_count : nat) (output_filename : string)
    (batch_size num_processes : Z)
    (temp_filename : string) (fs : gmap string string)
  : gmap string string * result string :=
  let fs := write_scratch temp_filename (generator node_count 0) fs in
  match convert_scratch temp_filename output_filename
          batch_size num_processes fs with
  | (fs, Raise e) => (fs, Raise e)
  | (fs, Ok _) => (delete temp_filename fs, Ok output_filename)
  end.

(** [pool.imap_unordered(worker, inputs)] consumed to the end: results
    are collected as the workers complete them.  [schedule] names, at
    each step, which of the items still pending completes next (index
    modulo the number pending); once it is exhausted the rest complete
    in input order. *)
Fixpoint imap_unordered (schedule : list nat) (pending : list string)
  : result (list string) :=
  match schedule with
  | [] => map_result worker pending
  | k :: schedule' =>
      match pending !! (k mod length pending) with
      | None => Ok []
      | Some structure =>
          g6 ← worker structure;
          results ← imap_unordered schedule'
                      (delete (k mod length pending) pending);
          Ok (g6 :: results)
      end
  end.

(** [generate_cographs_g6] after the generator is selected. *)
Definition in_memory_g6 (node_count : nat) (num_processes : Z)
    (schedule : list nat) : result (list string) :=
  if (num_processes <? 1)%Z then Raise ValueError
  else imap_unordered schedule (generator node_count 0).
End pipeline.

Definition select_generator (connected_only : bool) : nat → nat → list string :=
  if connected_only then generate_connected_cotree_structures
  else generate_every_cotree_structure.

(** [generate_cographs_final_g6] of [src/cograph_generator/generator.py]. *)
Definition generate_cographs_final_g6 (node_count : nat)
    (output_filename : string) (batch_size num_processes : Z)
    (connected_only : bool) (temp_filename : string) (fs : gmap string string)
  : gmap string string * result string :=
  final_g6 (select_generator connected_only) _structure_to_g6_optimized_worker
    node_count output_filename batch_size num_processes temp_filename fs.

(** [generate_cographs_g6] of [src/cograph_generator/generator.py]. *)
Definition generate_cographs_g6 (node_count : nat) (connected_only : bool)
    (num_processes : Z) (schedule : list nat) : result (list string) :=
  in_memory_g6 (select_generator connected_only) _structure_to_g6_optimized_worker
    node_count num_processes schedule.

(** ** The composer's frame at each yield *)

(** The locals of one activation of [generate_all_cotree_structures] at
    the moment it yields. *)
Record frame := {
  frame_partition : list nat;
  frame_child_streams : list (list string);
  frame_combination : list string;
  frame_yielded : string
}.

(** The successive frames of the activation for [node_count > 1]. *)
Definition yield_frames (node_count depth : nat) : list frame :=
  let operator := if depth mod 2 =? 0 then "J" else "U" in
  flat_map
    (λ partition,
       if length partition =? 1 then []
       else
         let child_streams :=
           map (λ part_size, generate_all_cotree_structures part_size (depth + 1))
               partition in
         map (λ combination,
                {| frame_partition := partition;
                   frame_child_streams := child_streams;
                   frame_combination := combination;
                   frame_yielded :=
                     _apply_cograph_operator_structure operator combination |})
             (_generate_ordered_cartesian_product child_streams))
    (_generate_all_unique_integer_partitions node_count).

(** ** [parse_cotree] of [src/cograph_generator/visualization.py] *)

(** The variables the nested [_parse] shares with [parse_cotree]. *)
Record parse_state := {
  node_id : nat;
  edges : list (nat * nat);
  labels : gmap nat string;
  is_leaf : gmap nat bool
}.

(** The loop of [_split_args]. *)
Fixpoint _split_args_loop (s : string) (result : list string) (balance : Z)
    (current : string) : list string :=
  match s with
  | "" => result ++ [current]
  | String ch rest =>
      if bool_decide (ch = ","%char) && bool_decide (balance = 0%Z) then
        _split_args_loop rest (result ++ [current]) balance ""
      else
        let current := current +:+ String ch "" in
        let balance :=
          if bool_decide (ch = "("%char) then (balance + 1)%Z
          else if bool_decide (ch = ")"%char) then (balance - 1)%Z
          else balance in
        _split_args_loop rest result balance current
  end.

Definition _split_args (s : string) : list string :=
  _split_args_loop s [] 0%Z "".

(** [expr[2:-1]] *)
Definition slice_2_minus1 (expr : string) : string :=
  substring 2 (String.length expr - 1 - 2) expr.

Definition append_edge (parent : option nat) (current : nat)
    (edges : list (nat * nat)) : list (nat * nat) :=
  match parent with
  | Some p => edges ++ [(p, current)]
  | None => edges
  end.

(** The [for subexpr in parts] loop of [_parse]: [parse] is the nested
    call [_parse(subexpr, current)]. *)
Definition parse_children
    (parse : string → option nat → parse_state → result (nat * parse_state))
    (current : nat)
  : list string → list nat → parse_state → result (list nat * parse_state) :=
  fix loop (parts : list string) (leaf_counts : list nat) (st : parse_state) :=
    match parts with
    | [] => Ok (leaf_counts, st)
    | subexpr :: parts' =>
        match parse subexpr (Some current) st with
        | Raise e => Raise e
        | Ok (count, st') => loop parts' (leaf_counts ++ [count]) st'
        end
    end.

(** [_parse(expr, parent)]: the leaf count returned and the shared
    variables afterwards.  [fuel] bounds the nesting of calls. *)
Fixpoint _parse (fuel : nat) (expr : string) (parent : option nat)
    (st : parse_state) : result (nat * parse_state) :=
  match fuel with
  | 0 => Raise RecursionExhausted
  | S fuel' =>
      let current := node_id st in
      let st := {| node_id := node_id st + 1; edges := edges st;
                   labels := labels st; is_leaf := is_leaf st |} in
      if decide (expr = "a") then
        Ok (1, {| node_id := node_id st;
                  edges := append_edge parent current (edges st);
                  labels := labels st;
                  is_leaf := <[current := true]> (is_leaf st) |})
      else
        match expr with
        | "" => Raise IndexError
        | String operator _ =>
            let inside := slice_2_minus1 expr in
            let parts := _split_args inside in
            match parse_children (_parse fuel') current parts [] st with
            | Raise e => Raise e
            | Ok (leaf_counts, st) =>
                let total_leaves := sum_list leaf_counts in
                Ok (total_leaves,
                    {| node_id := node_id st;
                       edges := append_edge parent current (edges st);
                       labels :=
                         <[current := String operator "" +:+ " (" +:+
                                      pretty total_leaves +:+ ")"]> (labels st);
                       is_leaf := <[current := false]> (is_leaf st) |})
            end
        end
  end.

Definition parse_cotree (serialized : string)
  : result (list (nat * nat) * gmap nat string * gmap nat bool) :=
  parsed ← _parse (S (String.length serialized)) serialized None
             {| node_id := 1; edges := []; labels := ∅; is_leaf := ∅ |};
  let st := snd parsed in
  Ok (edges st, labels st, is_leaf st).

(** The number of node ids [is_leaf] maps to [True]. *)
Definition leaf_count (is_leaf : gmap nat bool) : nat :=
  size (filter (λ kv : nat * bool, kv.2 = true) is_leaf).

(** What parsing the texts of the trees [ts], all children of node
    [parent], does to the shared variables: one fresh id per node, from
    [node_id st] on; one edge into every new id, from [parent] or from a
    new id smaller than the child; [is_leaf] set on the new ids only. *)
Definition forest_effect (ts : list cotree) (parent : nat)
    (st st' : parse_state) : Prop :=
  let start := node_id st in
  let count := sum_list (nodes <$> ts) in
  node_id st' = start + count ∧
  (∃ new_edges,
     edges st' = edges st ++ new_edges ∧
     Forall (λ e : nat * nat,
               (e.1 = parent ∨ start ≤ e.1) ∧ e.1 < e.2 ∧ e.2 < start + count)
            new_edges ∧
     new_edges.*2 ≡ₚ seq start count ∧
     (ts ≠ [] → (parent, start) ∈ new_edges)) ∧
  (∀ id, id < start ∨ start + count ≤ id → is_leaf st' !! id = is_leaf st !! id) ∧
  (∀ id, start ≤ id < start + count → is_Some (is_leaf st' !! id)) ∧
  leaf_count (is_leaf st') = leaf_count (is_leaf st) + sum_list (leaves <$> ts).

(** No id from [node_id st] on has been given to a node yet. *)
Definition unassigned_from (st : parse_state) : Prop :=
  ∀ id, node_id st ≤ id → is_leaf st !! id = None.

(** The effect of one call of [_parse] on the text of [t]. *)
Definition parses_as_child (t : cotree) : Prop :=
  ∀ fuel parent st,
    nodes t ≤ fuel → parent < node_id st → unassigned_from st →
    ∃ st', _parse fuel (serialize t) (Some parent) st = Ok (leaves t, st') ∧
           forest_effect [t] parent st st'.


(** An edge list is a tree rooted at [root] on the node ids [ids] when
    its edges join ids, the root is no edge's child, every other id is
    the child of exactly one edge, and every id is reached from the root
    by following edges from parent to child. *)
Definition child_of (edges : list (nat * nat)) (p c : nat) : Prop :=
  (p, c) ∈ edges.

Definition rooted_tree (root : nat) (ids : list nat)
    (edges : list (nat * nat)) : Prop :=
  root ∈ ids ∧
  (∀ p c, (p, c) ∈ edges → p ∈ ids ∧ c ∈ ids) ∧
  (root ∉ map snd edges) ∧
  (∀ c, c ∈ ids → c ≠ root → length (filter (λ e, snd e = c) edges) = 1) ∧
  (∀ c, c ∈ ids → rtc (child_of edges) root c).

(** A node id occurs in an edge list when it is an endpoint of an edge. *)
Definition occurs_in (edges : list (nat * nat)) (id : nat) : Prop :=
  ∃ e, e ∈ edges ∧ (fst e = id ∨ snd e = id).

(** The labels of [parse_cotree] sit on the ids marked as internal, and
    no id from [node_id st] on is labelled yet. *)
Definition labels_match (st : parse_state) : Prop :=
  (∀ id, is_Some (labels st !! id) ↔ is_leaf st !! id = Some false) ∧
  (∀ id, node_id st ≤ id → labels st !! id = None).

(** Every call that returns acted like the call on the text of some
    cotree. *)
Definition accepted_as_child (fuel : nat) : Prop :=
  ∀ expr parent st k st',
    _parse fuel expr (Some parent) st = Ok (k, st') →
    parent < node_id st → unassigned_from st →
    ∃ t, branching 1 t ∧ k = leaves t ∧ forest_effect [t] parent st st'.

(** The text with every [J] turned into [U] and every [U] into [J]: the
    structure of the complement graph. *)
Fixpoint swap_operators (s : string) : string :=
  match s with
  | "" => ""
  | String c rest =>
      String (if decide (c = "J"%char) then "U"%char
              else if decide (c = "U"%char) then "J"%char else c)
             (swap_operators rest)
  end.

(** ** Visualization: file names, layout, rendering *)

(** What the visualization module and its callers raise: the failure of
    [parse_cotree]; networkx's error for a node that is not in the graph
    or has no position; [KeyError] of a dict; [ValueError] of
    [list.remove]; the interpreter's recursion limit; a directory that
    does not exist; a keyword argument the callee does not have. *)
Inductive error :=
  | ParseError (e : exn)
  | NetworkXError (node : nat)
  | KeyError (node : nat)
  | RemoveError (item : nat)
  | RecursionError
  | FileNotFoundError (path : string)
  | TypeError (keyword : string).

Inductive outcome (A : Type) :=
  | Returns (a : A)
  | Raises (e : error).
Arguments Returns {A} a.
Arguments Raises {A} e.

Global Instance outcome_ret : MRet outcome := λ A x, Returns x.
Global Instance outcome_bind : MBind outcome := λ A B k m,
  match m with
  | Returns x => k x
  | Raises e => Raises e
  end.

(** [s.startswith(prefix)] and [s.endswith(suffix)] *)
Definition startswith (prefix s : string) : bool := String.prefix prefix s.

Definition endswith (suffix s : string) : bool :=
  (String.length suffix <=? String.length s) &&
  bool_decide (string_drop (String.length s - String.length suffix) s = suffix).

(** The directories that hold images are a map from the path of each
    to the names [os.listdir] returns for it. *)

Definition listdir (fs : gmap string (list string)) (path : string) : outcome (list string) :=
  match fs !! path with
  | Some listing => Returns listing
  | None => Raises (FileNotFoundError path)
  end.

(** [os.makedirs(path, exist_ok=True)] *)
Definition makedirs (path : string) (fs : gmap string (list string)) : gmap string (list string) :=
  match fs !! path with
  | Some _ => fs
  | None => <[path := []]> fs
  end.

(** [plt.savefig(os.path.join(directory, name))]: the file is created,
    or written over when it is there already.  The caller has made the
    directory before. *)
Definition savefig (directory name : string) (fs : gmap string (list string)) : gmap string (list string) :=
  match fs !! directory with
  | Some listing =>
      if decide (name ∈ listing) then fs
      else <[directory := listing ++ [name]]> fs
  | None => fs
  end.

(** [os.path.join(a, b)] for a relative [b]. *)
Definition path_join (a b : string) : string :=
  if decide (a = "") then b
  else if endswith "/" a then a +:+ b
  else a +:+ "/" +:+ b.

(** [f"cotree_n{leaf_count}_"] *)
Definition cotree_prefix (leaf_count : nat) : string :=
  "cotree_n" +:+ pretty leaf_count +:+ "_".

(** The files [generate_cotree_filename] counts: their name starts with
    [cotree_n<leaf_count>_] and ends with [.jpg]. *)
Definition counted_image (leaf_count : nat) (f : string) : Prop :=
  startswith (cotree_prefix leaf_count) f = true ∧ endswith ".jpg" f = true.

Global Instance counted_image_dec leaf_count f :
  Decision (counted_image leaf_count f).
Proof. unfold counted_image. apply _. Defined.

(** [generate_cotree_filename(leaf_count, output_dir)] *)
Definition generate_cotree_filename (leaf_count : nat) (output_dir : string)
    (fs : gmap string (list string)) : outcome string :=
  listing ← listdir fs output_dir;
  let existing := filter (counted_image leaf_count) listing in
  let index := length existing + 1 in
  Returns (cotree_prefix leaf_count +:+ pretty index).

(** The name of the image file with number [index]. *)
Definition image_name (leaf_count index : nat) : string :=
  (cotree_prefix leaf_count +:+ pretty index) +:+ ".jpg".

(** A [networkx.Graph] is a map from each node to its neighbours, in the
    order they were first joined to it. *)

Definition add_neighbour (u v : nat) (graph : gmap nat (list nat)) : gmap nat (list nat) :=
  let adjacency := default [] (graph !! u) in
  <[u := if decide (v ∈ adjacency) then adjacency else adjacency ++ [v]]> graph.

(** [graph.add_edge(u, v)] *)
Definition add_edge (graph : gmap nat (list nat)) (u v : nat) : gmap nat (list nat) :=
  add_neighbour v u (add_neighbour u v graph).

(** [graph.neighbors(node)] *)
Definition neighbors (graph : gmap nat (list nat)) (node : nat) : outcome (list nat) :=
  match graph !! node with
  | Some adjacency => Returns adjacency
  | None => Raises (NetworkXError node)
  end.

(** [children.remove(item)] *)
Fixpoint list_remove (item : nat) (children : list nat) : outcome (list nat) :=
  match children with
  | [] => Raises (RemoveError item)
  | child :: rest =>
      if decide (child = item) then Returns rest
      else rest' ← list_remove item rest; Returns (child :: rest')
  end.

(** The two dicts [hierarchy_layout] shares with its [_dfs]. *)
Record layout_state := {
  positions : gmap nat (float * float);
  parent : gmap nat nat
}.

(** A Python [int] as a [float]. *)
Definition to_float (n : nat) : float :=
  PrimFloat.of_uint63 (Uint63.of_Z (Z.of_nat n)).

Section hierarchy_layout.
Variable graph : gmap nat (list nat).
Variables y_top level_gap : float.

(** The [for child in children] loop of [_dfs]; [dfs] is the nested
    call. *)
Definition dfs_children
    (dfs : nat → nat → float → layout_state → outcome (float * layout_state))
    (node depth : nat) (x_left : float)
  : list nat → float → list (nat * float * float) → layout_state →
    outcome (float * list (nat * float * float) * layout_state) :=
  fix loop children total_width child_positions st :=
    match children with
    | [] => Returns (total_width, child_positions, st)
    | child :: children' =>
        let st := {| positions := positions st;
                     parent := <[child := node]> (parent st) |} in
        match dfs child (depth + 1) (x_left + total_width)%float st with
        | Raises e => Raises e
        | Returns (w, st) =>
            loop children' (total_width + w)%float
                 (child_positions ++ [(child, total_width, w)]) st
        end
    end.

(** The [for child, offset, w in child_positions] loop of [_dfs]. *)
Definition place_children (depth : nat) (x_left : float)
    (child_positions : list (nat * float * float))
    (positions : gmap nat (float * float)) : gmap nat (float * float) :=
  fold_left
    (λ positions '(child, offset, w),
       <[child := ((x_left + offset + w / 2)%float,
                   (y_top - to_float (depth + 1) * level_gap)%float)]> positions)
    child_positions positions.

(** [_dfs(node, depth, x_left)]: the width returned and the shared dicts
    afterwards.  [fuel] is the number of nested calls the interpreter
    allows. *)
Fixpoint _dfs (fuel : nat) (node depth : nat) (x_left : float)
    (st : layout_state) : outcome (float * layout_state) :=
  match fuel with
  | 0 => Raises RecursionError
  | S fuel' =>
      children ← neighbors graph node;
      children ← match parent st !! node with
                 | Some above => list_remove above children
                 | None => Returns children
                 end;
      let y := (y_top - to_float depth * level_gap)%float in
      match children with
      | [] =>
          Returns (1.0%float,
                   {| positions := <[node := ((x_left + 0.5)%float, y)]> (positions st);
                      parent := parent st |})
      | _ =>
          match dfs_children (_dfs fuel') node depth x_left children
                  0.0%float [] st with
          | Raises e => Raises e
          | Returns (total_width, child_positions, st) =>
              let placed := place_children depth x_left child_positions
                              (positions st) in
              Returns (total_width,
                       {| positions :=
                            <[node := ((x_left + total_width / 2)%float, y)]> placed;
                          parent := parent st |})
          end
      end
  end.
End hierarchy_layout.

(** [hierarchy_layout(graph, root, x_center, y_top, level_gap)];
    [recursion_limit] is the depth of calls the interpreter allows. *)
Definition hierarchy_layout (recursion_limit : nat) (graph : gmap nat (list nat))
    (root : nat) (x_center y_top level_gap : float)
  : outcome (gmap nat (float * float)) :=
  run ← _dfs graph y_top level_gap recursion_limit root 0 0.0%float
           {| positions := ∅; parent := ∅ |};
  Returns (positions (snd run)).

(** The graph [render_cotree_jpg] builds from the edge list. *)
Definition graph_of_edges (edges : list (nat * nat)) : gmap nat (list nat) :=
  fold_left (λ graph '(above, child), add_edge graph above child) edges ∅.

(** [networkx.draw_networkx_edges(graph, pos)] looks up the position of
    both ends of every edge ([KeyError] otherwise). *)
Definition draw_networkx_edges (graph : gmap nat (list nat))
    (pos : gmap nat (float * float)) : outcome unit :=
  match filter (λ node, pos !! node = None)
          (flat_map (λ entry : nat * list nat,
                       match entry.2 with
                       | [] => []
                       | adjacency => entry.1 :: adjacency
                       end)
                    (map_to_list graph)) with
  | [] => Returns ()
  | node :: _ => Raises (KeyError node)
  end.

(** [networkx.draw_networkx_nodes(graph, pos, nodelist=...)] needs a
    position for every node of the list. *)
Definition draw_networkx_nodes (pos : gmap nat (float * float))
    (nodelist : list nat) : outcome unit :=
  match filter (λ node, pos !! node = None) nodelist with
  | [] => Returns ()
  | node :: _ => Raises (NetworkXError node)
  end.

(** [networkx.draw_networkx_labels(graph, pos, labels=...)] looks up the
    position of every labelled node. *)
Definition draw_networkx_labels (pos : gmap nat (float * float))
    (labels : gmap nat string) : outcome unit :=
  match filter (λ node, pos !! node = None) (map_to_list labels).*1 with
  | [] => Returns ()
  | node :: _ => Raises (KeyError node)
  end.

(** [render_cotree_jpg(serialized, leaf_count, output_dir)]: the image
    directories afterwards and the path returned or the exception
    raised.  The pixels are not modelled. *)
Definition render_cotree_jpg (recursion_limit : nat) (serialized : string)
    (leaf_count : nat) (output_dir : string) (fs : gmap string (list string))
  : gmap string (list string) * outcome string :=
  match parse_cotree serialized with
  | Raise e => (fs, Raises (ParseError e))
  | Ok (edges, labels, is_leaf) =>
      let graph := graph_of_edges edges in
      let drawn :=
        pos ← hierarchy_layout recursion_limit graph 1
                0.5%float 1.0%float 0x1.999999999999ap-4%float;
        let internal_nodes :=
          (filter (λ entry : nat * bool, entry.2 = false) (map_to_list is_leaf)).*1 in
        let leaf_nodes :=
          (filter (λ entry : nat * bool, entry.2 = true) (map_to_list is_leaf)).*1 in
        _ ← draw_networkx_edges graph pos;
        _ ← draw_networkx_nodes pos internal_nodes;
        _ ← draw_networkx_nodes pos leaf_nodes;
        draw_networkx_labels pos labels in
      match drawn with
      | Raises e => (fs, Raises e)
      | Returns _ =>
          let images_dir :=
            path_join output_dir ("cotree_images_" +:+ pretty leaf_count) in
          let fs := makedirs images_dir fs in
          match generate_cotree_filename leaf_count images_dir fs with
          | Raises e => (fs, Raises e)
          | Returns filename =>
              (savefig images_dir (filename +:+ ".jpg") fs,
               Returns (path_join images_dir (filename +:+ ".jpg")))
          end
      end
  end.

(** The [for structure in ...] loop of [generate_cotree_images]. *)
Fixpoint render_all (recursion_limit : nat) (structures : list string)
    (node_count : nat) (output_dir : string) (total : nat) (fs : gmap string (list string))
  : gmap string (list string) * outcome nat :=
  match structures with
  | [] => (fs, Returns total)
  | structure :: rest =>
      match render_cotree_jpg recursion_limit structure node_count output_dir fs with
      | (fs, Raises e) => (fs, Raises e)
      | (fs, Returns _) =>
          render_all recursion_limit rest node_count output_dir (total + 1) fs
      end
  end.

(** [generate_cotree_images(node_count, output_dir)] of
    [src/cograph_generator/generator.py]; the structures are those of
    the [generate_all_cotree_structures] it imports. *)
Definition generate_cotree_images (recursion_limit : nat) (node_count : nat)
    (output_dir : string) (fs : gmap string (list string)) : gmap string (list string) * outcome nat :=
  render_all recursion_limit (generate_every_cotree_structure node_count 0)
    node_count output_dir 0 fs.

(** ** The shape a parsed text stands for *)

(** [f c next] for every child [c], [next] being the id [_parse] gives
    it: the first child takes [next], each following one the id after
    the last node of its elder sibling. *)
Definition on_children {A} (f : cotree → nat → A)
  : list cotree → nat → list A :=
  fix go (children : list cotree) (next : nat) :=
    match children with
    | [] => []
    | c :: children' => f c next :: go children' (next + nodes c)
    end.

(** The edges [_parse] appends for [t] read as the child [id] of
    [above]: those of its children in turn, then the edge into [id]. *)
Fixpoint tree_edges (t : cotree) (above id : nat) : list (nat * nat) :=
  match t with
  | Leaf => [(above, id)]
  | Node _ children =>
      concat (on_children (λ c next, tree_edges c id next) children (id + 1))
      ++ [(above, id)]
  end.

(** The edge list of the whole text of [t]: the root has no edge. *)
Definition root_edges (t : cotree) : list (nat * nat) :=
  match t with
  | Leaf => []
  | Node _ children =>
      concat (on_children (λ c next, tree_edges c 1 next) children 2)
  end.

(** The ids of the children of a node whose first child is [next]. *)
Definition child_ids (children : list cotree) (next : nat) : list nat :=
  on_children (λ _ next, next) children next.

Section tree_layout.
Variables y_top level_gap : float.

(** The layout of the children of a node, left to right. *)
Definition children_layout
    (layout : cotree → nat → float → gmap nat (float * float) →
              float * gmap nat (float * float))
    (x_left : float)
  : list cotree → nat → float → gmap nat (float * float) →
    float * gmap nat (float * float) :=
  fix go children next total_width pos :=
    match children with
    | [] => (total_width, pos)
    | c :: children' =>
        let '(w, pos) := layout c next (x_left + total_width)%float pos in
        go children' (next + nodes c) (total_width + w)%float pos
    end.

(** The width of the subtree [t] and the positions of its nodes, [id]
    being the id of its root, [depth] its depth and [x_left] the left
    edge of its strip: a leaf is one unit wide and sits in the middle of
    its unit; an internal node sits in the middle of its children's
    strip. *)
Fixpoint tree_layout (t : cotree) (id depth : nat) (x_left : float)
    (pos : gmap nat (float * float)) : float * gmap nat (float * float) :=
  let y := (y_top - to_float depth * level_gap)%float in
  match t with
  | Leaf => (1.0%float, <[id := ((x_left + 0.5)%float, y)]> pos)
  | Node _ children =>
      let '(total_width, pos) :=
        children_layout (λ c next, tree_layout c next (depth + 1))
          x_left children (id + 1) 0.0%float pos in
      (total_width, <[id := ((x_left + total_width / 2)%float, y)]> pos)
  end.
End tree_layout.

(** [graph.add_edge] for every edge of a list, in order. *)
Definition add_edges (edges : list (nat * nat)) (graph : gmap nat (list nat)) : gmap nat (list nat) :=
  fold_left (λ graph '(above, child), add_edge graph above child) edges graph.

(** Every node of [graph] and every neighbour in it is below [bound]. *)
Definition graph_below (graph : gmap nat (list nat)) (bound : nat) : Prop :=
  ∀ node adjacency,
    graph !! node = Some adjacency →
    node < bound ∧ Forall (λ v, v < bound) adjacency.

Definition all_hold (conditions : list Prop) : Prop :=
  Forall (λ condition : Prop, condition) conditions.

(** [graph] holds the subtree [t] with root [id]: the neighbours of each
    of its nodes are the node's children, eldest first, then what is
    [above] it. *)
Fixpoint adjacency_of (graph : gmap nat (list nat)) (t : cotree) (above : list nat)
    (id : nat) : Prop :=
  match t with
  | Leaf => graph !! id = Some above
  | Node _ children =>
      graph !! id = Some (child_ids children (id + 1) ++ above) ∧
      all_hold (on_children (λ c next, adjacency_of graph c [id] next)
                  children (id + 1))
  end.

(** What adding the edges of a subtree does to the graph. *)
Definition builds_subtree (t : cotree) : Prop :=
  ∀ above id (graph : gmap nat (list nat)),
    above < id → graph_below graph id →
    let graph' := add_edges (tree_edges t above id) graph in
    adjacency_of graph' t [above] id ∧
    graph' !! above = Some (default [] (graph !! above) ++ [id]) ∧
    (∀ k, k < id → k ≠ above → graph' !! k = graph !! k) ∧
    graph_below graph' (id + nodes t).

(** [_dfs] started on the root of a subtree [t] the graph holds lays
    the subtree out as [tree_layout] says. *)
Definition lays_out (graph : gmap nat (list nat)) (y_top level_gap : float)
    (t : cotree) : Prop :=
  ∀ fuel above id depth x_left st,
    adjacency_of graph t above id →
    nodes t ≤ fuel →
    branching 1 t →
    match above with
    | [] => parent st !! id = None
    | [node] => parent st !! id = Some node ∧ node < id
    | _ => False
    end →
    ∃ parent',
      _dfs graph y_top level_gap fuel id depth x_left st =
      Returns ((tree_layout y_top level_gap t id depth x_left (positions st)).1,
               {| positions :=
                    (tree_layout y_top level_gap t id depth x_left
                       (positions st)).2;
                  parent := parent' |}).

(** A structure [render_cotree_jpg] draws: a text [parse_cotree]
    accepts, other than the bare leaf, with fewer edges than the
    recursion limit. *)
Definition drawable (recursion_limit : nat) (structure : string) : Prop :=
  structure ≠ "a" ∧
  ∃ es ls leafs,
    parse_cotree structure = Ok (es, ls, leafs) ∧ length es < recursion_limit.

(** ** The window: [run_generation] *)

(** What the widgets of the window hold when the button is pressed. *)
Record form := {
  minVertices : nat;
  maxVertices : nat;
  export_path : string;
  cb_connected : bool;
  cb_disconnected : bool;
  cb_graph6 : bool;
  cb_cotree : bool
}.

(** The message box [run_generation] ends with. *)
Inductive message :=
  | Warning (text : string)
  | Information (text : string).

(** A call by keywords: before the body runs Python binds each keyword
    to the parameter of that name, and raises [TypeError] for a keyword
    that is no parameter of the callee. *)
Definition bind_keywords (parameters keywords : list string) : outcome unit :=
  match filter (λ keyword, keyword ∉ parameters) keywords with
  | [] => Returns ()
  | keyword :: _ => Raises (TypeError keyword)
  end.

(** The parameters of [generate_cographs_final_g6] of
    [src/cograph_generator/generator.py]. *)
Definition generate_cographs_final_g6_parameters : list string :=
  ["node_count"; "output_filename"; "batch_size"; "num_processes";
   "connected_only"].

Section run_generation.
Variable recursion_limit : nat.
(** What the body of [generate_cographs_final_g6] does once the
    arguments of the window's call are bound. *)
Variable final_g6_body :
  nat → string → bool → gmap string (list string) →
  gmap string (list string) * outcome string.

(** One turn of the [for node_count in range(min_v, max_v + 1)] loop. *)
Definition generate_for (w : form) (output_dir : string)
    (connected_only : bool) (node_count : nat) (fs : gmap string (list string))
  : gmap string (list string) * outcome unit :=
  let graph6 :=
    if cb_graph6 w then
      match bind_keywords generate_cographs_final_g6_parameters
              ["node_count"; "output_dir"; "connected_only"] with
      | Raises e => (fs, Raises e)
      | Returns _ =>
          match final_g6_body node_count output_dir connected_only fs with
          | (fs, Raises e) => (fs, Raises e)
          | (fs, Returns _) => (fs, Returns ())
          end
      end
    else (fs, Returns ()) in
  match graph6 with
  | (fs, Raises e) => (fs, Raises e)
  | (fs, Returns _) =>
      if cb_cotree w then
        match generate_cotree_images recursion_limit node_count output_dir fs with
        | (fs, Raises e) => (fs, Raises e)
        | (fs, Returns _) => (fs, Returns ())
        end
      else (fs, Returns ())
  end.

Fixpoint generation_loop (w : form) (output_dir : string)
    (connected_only : bool) (node_counts : list nat)
    (fs : gmap string (list string))
  : gmap string (list string) * outcome unit :=
  match node_counts with
  | [] => (fs, Returns ())
  | node_count :: rest =>
      match generate_for w output_dir connected_only node_count fs with
      | (fs, Raises e) => (fs, Raises e)
      | (fs, Returns _) => generation_loop w output_dir connected_only rest fs
      end
  end.

(** [MainWindow.run_generation] of [ui/__init__.py]: the image
    directories afterwards and the message box shown or the exception
    raised. *)
Definition run_generation (w : form) (fs : gmap string (list string))
  : gmap string (list string) * outcome message :=
  let min_v := minVertices w in
  let max_v := maxVertices w in
  let output_dir := strip (export_path w) in
  if decide (output_dir = "") then
    (fs, Returns (Warning "Select an export directory."))
  else if negb (cb_graph6 w || cb_cotree w) then
    (fs, Returns (Warning "Select at least one output option."))
  else if negb (cb_connected w || cb_disconnected w) then
    (fs, Returns (Warning "Select connected and/or disconnected cographs."))
  else
    let connected_only := cb_connected w && negb (cb_disconnected w) in
    match generation_loop w output_dir connected_only
            (seq min_v (max_v + 1 - min_v)) fs with
    | (fs, Raises e) => (fs, Raises e)
    | (fs, Returns _) =>
        (fs, Returns (Information "Cograph generation completed successfully."))
    end.
End run_generation.

(* ===================================================================== *)
(** * Part II: properties                                                 *)
(* ===================================================================== *)

(** ** Texts *)

Lemma app_cons (c : ascii) (s r : string) : String c s +:+ r = String c (s +:+ r).
Proof. reflexivity. Qed.

Lemma app_empty_l (s : string) : "" +:+ s = s.
Proof. reflexivity. Qed.

Lemma app_empty_r (s : string) : s +:+ "" = s.
Proof. induction s as [|c s IH]; [done|]. by rewrite app_cons, IH. Qed.

Lemma app_assoc_text (s r u : string) : (s +:+ r) +:+ u = s +:+ (r +:+ u).
Proof. induction s as [|c s IH]; [done|]. by rewrite !app_cons, IH. Qed.

Lemma length_app_text (s r : string) :
  String.length (s +:+ r) = String.length s + String.length r.
Proof. induction s as [|c s IH]; [done|]. rewrite app_cons. simpl. by rewrite IH. Qed.

(** ** Cotrees *)

Lemma cotree_rect_forall (P : cotree → Prop) :
  P Leaf →
  (∀ op children, Forall P children → P (Node op children)) →
  ∀ t, P t.
Proof.
  intros Hleaf Hnode.
  fix IH 1. intros [|op children]; [exact Hleaf|].
  apply Hnode. induction children as [|c children IHc]; constructor; auto.
Qed.

Lemma nested_all_Forall (P : cotree → Prop) (children : list cotree) :
  (fix all (l : list cotree) : Prop :=
     match l with
     | [] => True
     | c :: l' => P c ∧ all l'
     end) children ↔ Forall P children.
Proof.
  induction children as [|c cs IH].
  - split; [constructor|done].
  - rewrite Forall_cons. by rewrite <- IH.
Qed.

Lemma branching_node k op children :
  branching k (Node op children) ↔
  k ≤ length children ∧ Forall (branching k) children.
Proof. simpl. by rewrite (nested_all_Forall (branching k)). Qed.

Lemma reduced_node op children :
  reduced (Node op children) ↔
  Forall (λ c, root_operator c ≠ Some op ∧ reduced c) children.
Proof.
  simpl.
  by rewrite (nested_all_Forall (λ c, root_operator c ≠ Some op ∧ reduced c)).
Qed.

Lemma alternates_node depth op children :
  alternates depth (Node op children) ↔
  op = operator_at depth ∧ Forall (alternates (S depth)) children.
Proof. simpl. by rewrite (nested_all_Forall (alternates (S depth))). Qed.

Lemma branching_weaken k k' t : k' ≤ k → branching k t → branching k' t.
Proof.
  intros Hk. induction t as [|op children IH] using cotree_rect_forall; [done|].
  rewrite !branching_node. intros [Hlen Hall]. split; [lia|].
  rewrite Forall_forall in IH. rewrite Forall_forall in Hall.
  apply Forall_forall. intros c Hc. apply IH; auto.
Qed.

Lemma serialize_node op children :
  serialize (Node op children) =
  String (operator_char op)
    (String "("%char (join_comma (map serialize children) +:+ ")")).
Proof. by destruct op. Qed.

Lemma join_comma_cons2 c c' rest :
  join_comma (c :: c' :: rest) = c +:+ "," +:+ join_comma (c' :: rest).
Proof. reflexivity. Qed.

Lemma join_comma_cons s (l : list string) :
  l ≠ [] → join_comma (s :: l) = s +:+ "," +:+ join_comma l.
Proof. by destruct l. Qed.

(** ** The structure reader inverts [serialize] *)

Lemma parse_go_comma rest op siblings stack t :
  parse_go (String ","%char rest) ((op, siblings) :: stack) (Some t) =
  parse_go rest ((op, t :: siblings) :: stack) None.
Proof. reflexivity. Qed.

Lemma parse_go_close rest op siblings stack t :
  parse_go (String ")"%char rest) ((op, siblings) :: stack) (Some t) =
  parse_go rest stack (Some (Node op (rev (t :: siblings)))).
Proof. reflexivity. Qed.

Lemma parse_go_children op :
  ∀ children,
    Forall (λ t, ∀ rest stack,
              parse_go (serialize t +:+ rest) stack None =
              parse_go rest stack (Some t)) children →
    children ≠ [] →
    ∀ rest stack siblings,
      parse_go (join_comma (map serialize children) +:+ String ")"%char rest)
               ((op, siblings) :: stack) None =
      parse_go rest stack (Some (Node op (rev siblings ++ children))).
Proof.
  induction children as [|c children IH]; [done|].
  intros Hall _ rest stack siblings.
  apply Forall_cons in Hall as [Hc Hall].
  destruct children as [|c' children].
  - simpl map. simpl join_comma. by rewrite Hc, parse_go_close.
  - change (map serialize (c :: c' :: children))
      with (serialize c :: serialize c' :: map serialize children).
    rewrite join_comma_cons2, !app_assoc_text, Hc.
    rewrite app_cons, app_empty_l, parse_go_comma.
    change (serialize c' :: map serialize children)
      with (map serialize (c' :: children)).
    rewrite IH by done. simpl rev. by rewrite <- app_assoc.
Qed.

Lemma parse_go_serialize t :
  branching 1 t →
  ∀ rest stack,
    parse_go (serialize t +:+ rest) stack None = parse_go rest stack (Some t).
Proof.
  induction t as [|op children IH] using cotree_rect_forall; intros Hb rest stack.
  - reflexivity.
  - apply branching_node in Hb as [Hlen Hall].
    rewrite serialize_node, !app_cons, app_assoc_text, app_cons, app_empty_l.
    assert (parse_go (String (operator_char op) (String "("%char
              (join_comma (map serialize children) +:+ String ")"%char rest)))
              stack None
            = parse_go (join_comma (map serialize children) +:+ String ")"%char rest)
                ((op, []) :: stack) None) as -> by (destruct op; reflexivity).
    rewrite parse_go_children; [done| |destruct children; simpl in Hlen; [lia|done]].
    rewrite Forall_forall in IH. rewrite Forall_forall in Hall.
    apply Forall_forall. intros c Hc. apply IH; auto.
Qed.

Lemma parse_structure_serialize t :
  branching 1 t → parse_structure (serialize t) = Ok t.
Proof.
  intros Hb. unfold parse_structure.
  rewrite <- (app_empty_r (serialize t)), parse_go_serialize by done. done.
Qed.

Lemma serialize_inj t1 t2 :
  branching 1 t1 → branching 1 t2 → serialize t1 = serialize t2 → t1 = t2.
Proof.
  intros H1 H2 Heq.
  pose proof (parse_structure_serialize t1 H1) as E1.
  pose proof (parse_structure_serialize t2 H2) as E2.
  rewrite Heq in E1. congruence.
Qed.

(** ** The redundancy-free product *)

Lemma map_fmap {A B} (f : A → B) (l : list A) : map f l = f <$> l.
Proof. reflexivity. Qed.

Lemma flat_map_bind {A B} (f : A → list B) (l : list A) : flat_map f l = l ≫= f.
Proof. reflexivity. Qed.

Lemma combinations_succ_cons {A} m (x : A) rest :
  combinations_with_replacement (S m) (x :: rest) =
  map (cons x) (combinations_with_replacement m (x :: rest)) ++
  combinations_with_replacement (S m) rest.
Proof. reflexivity. Qed.

Lemma combinations_elem {A} m (pool c : list A) :
  c ∈ combinations_with_replacement m pool →
  length c = m ∧ Forall (λ x, x ∈ pool) c.
Proof.
  revert pool c. induction m as [|m IHm]; intros pool c.
  - simpl. intros ->%list_elem_of_singleton. by split.
  - induction pool as [|x rest IHpool].
    + simpl. by intros ?%elem_of_nil.
    + rewrite combinations_succ_cons, elem_of_app, map_fmap, list_elem_of_fmap.
      intros [(c' & -> & Hc')|Hc].
      * apply IHm in Hc' as [Hlen Hall]. simpl. split; [by rewrite Hlen|].
        constructor; [left|done].
      * apply IHpool in Hc as [Hlen Hall]. split; [done|].
        eapply Forall_impl; [exact Hall|]. intros y Hy. by right.
Qed.

Lemma combinations_NoDup {A} m (pool : list A) :
  NoDup pool → NoDup (combinations_with_replacement m pool).
Proof.
  revert pool. induction m as [|m IHm]; intros pool Hpool.
  - simpl. apply NoDup_singleton.
  - induction pool as [|x rest IHpool].
    + simpl. constructor.
    + rewrite combinations_succ_cons. apply NoDup_app. split_and!.
      * rewrite map_fmap. apply NoDup_fmap_2; [|by apply IHm].
        intros c1 c2. congruence.
      * intros c. rewrite map_fmap, list_elem_of_fmap.
        intros (c' & -> & _) Hin.
        apply combinations_elem in Hin as [_ Hall].
        apply Forall_cons in Hall as [Hx _].
        apply NoDup_cons in Hpool as [Hnotin _]. done.
      * apply IHpool. by apply NoDup_cons in Hpool as [_ ?].
Qed.

Lemma group_runs_expand {A} `{EqDecision A} (streams : list A) :
  flat_map (λ g, replicate (snd g) (fst g)) (group_runs streams) = streams.
Proof.
  induction streams as [|s rest IH]; [done|].
  simpl. destruct (group_runs rest) as [|[s' m] groups].
  - simpl in IH. by subst rest.
  - case_decide as Hs.
    + subst s'. simpl in *. by rewrite IH.
    + simpl in *. by rewrite IH.
Qed.

Lemma group_runs_elem {A} `{EqDecision A} (streams : list A) g :
  g ∈ group_runs streams → fst g ∈ streams.
Proof.
  intros Hg. rewrite <- (group_runs_expand streams) at 1.
  revert g Hg. induction streams as [|s rest IH]; intros g; simpl.
  - by intros ?%elem_of_nil.
  - destruct (group_runs rest) as [|[s' m] groups] eqn:Hgr.
    + intros ->%list_elem_of_singleton. simpl. left.
    + case_decide as Hs.
      * subst s'. intros [->|Hin]%elem_of_cons; simpl; [left|].
        right. apply IH. by right.
      * intros [->|Hin]%elem_of_cons; simpl; [left|].
        right. by apply IH.
Qed.

Lemma product_concat_elem {A} (choices : list (list (list A))) comb :
  comb ∈ product_concat choices ↔
  ∃ cs, Forall2 (λ c g, c ∈ g) cs choices ∧ comb = concat cs.
Proof.
  revert comb. induction choices as [|g rest IH]; intros comb; simpl.
  - rewrite list_elem_of_singleton. split.
    + intros ->. exists []. by split; [constructor|].
    + intros (cs & Hcs & ->). by apply Forall2_nil_inv_r in Hcs as ->.
  - rewrite flat_map_bind, list_elem_of_bind. split.
    + intros (c & Hin & Hc). rewrite map_fmap, list_elem_of_fmap in Hin.
      destruct Hin as (r & -> & Hr). apply IH in Hr as (cs & Hcs & ->).
      exists (c :: cs). split; [by constructor|done].
    + intros (cs & Hcs & ->).
      apply Forall2_cons_inv_r in Hcs as (c & cs' & Hc & Hcs & ->).
      exists c. split; [|done]. rewrite map_fmap, list_elem_of_fmap.
      exists (concat cs'). split; [done|]. apply IH. eauto.
Qed.

Lemma product_concat_NoDup {A} (choices : list (list (list A))) :
  Forall (λ g, NoDup g ∧ ∃ m, Forall (λ c, length c = m) g) choices →
  NoDup (product_concat choices).
Proof.
  induction 1 as [|g rest [Hg [m Hm]] _ IH]; simpl.
  - apply NoDup_singleton.
  - rewrite flat_map_bind. apply NoDup_bind; [| |done].
    + intros c1 c2 y Hc1 Hc2.
      rewrite !map_fmap, !list_elem_of_fmap.
      intros (r1 & -> & _) (r2 & Heq & _).
      rewrite Forall_forall in Hm.
      apply app_inj_1 in Heq as [? _]; [done|].
      by rewrite (Hm c1), (Hm c2).
    + intros c _. rewrite map_fmap. apply NoDup_fmap_2; [|done].
      intros r1 r2. apply app_inv_head.
Qed.

(** Each child of a combination comes from the stream of its part. *)
Lemma ordered_product_elem (child_streams : list (list string)) comb :
  comb ∈ _generate_ordered_cartesian_product child_streams →
  Forall2 (λ c stream, c ∈ stream) comb child_streams.
Proof.
  unfold _generate_ordered_cartesian_product.
  rewrite product_concat_elem. intros (cs & Hcs & ->).
  rewrite <- (group_runs_expand child_streams) at 1.
  revert cs Hcs. generalize (group_runs child_streams) as groups.
  induction groups as [|[pool m] groups IH]; intros cs Hcs; simpl in *.
  - apply Forall2_nil_inv_r in Hcs as ->. constructor.
  - apply Forall2_cons_inv_r in Hcs as (c & cs' & Hc & Hcs & ->).
    simpl. apply Forall2_app; [|by apply IH].
    apply combinations_elem in Hc as [<- Hall].
    clear -Hall. induction Hall; simpl; constructor; auto.
Qed.

Lemma ordered_product_NoDup (child_streams : list (list string)) :
  Forall NoDup child_streams →
  NoDup (_generate_ordered_cartesian_product child_streams).
Proof.
  intros Hall. apply product_concat_NoDup.
  rewrite map_fmap, Forall_fmap. apply Forall_forall. intros [pool m] Hg. simpl.
  split.
  - apply combinations_NoDup. rewrite Forall_forall in Hall. apply Hall.
    by apply (group_runs_elem child_streams (pool, m)).
  - exists m. apply Forall_forall. intros c Hc.
    by apply combinations_elem in Hc as [? _].
Qed.

(** ** PartitionEnumerator *)

Lemma rev_reverse {A} (l : list A) : rev l = reverse l.
Proof. apply rev_alt. Qed.

Lemma partitions_bounded_sound fuel n bound p :
  p ∈ partitions_bounded fuel n bound →
  sum_list p = n ∧ Forall (λ x, 1 ≤ x) p.
Proof.
  revert n bound p. induction fuel as [|fuel IH]; intros n bound p; simpl.
  - destruct (n =? 0) eqn:Hn; [|by intros ?%elem_of_nil].
    apply Nat.eqb_eq in Hn as ->. by intros ->%list_elem_of_singleton.
  - destruct (n =? 0) eqn:Hn.
    { apply Nat.eqb_eq in Hn as ->. by intros ->%list_elem_of_singleton. }
    rewrite flat_map_bind, list_elem_of_bind.
    intros (first & Hp & Hfirst).
    rewrite rev_reverse, elem_of_reverse, elem_of_seq in Hfirst.
    rewrite map_fmap, list_elem_of_fmap in Hp. destruct Hp as (p' & -> & Hp').
    apply IH in Hp' as [Hsum Hall]. simpl. split; [lia|].
    constructor; [lia|done].
Qed.

Lemma partitions_bounded_NoDup fuel n bound :
  NoDup (partitions_bounded fuel n bound).
Proof.
  revert n bound. induction fuel as [|fuel IH]; intros n bound; simpl.
  - destruct (n =? 0); [apply NoDup_singleton|constructor].
  - destruct (n =? 0); [apply NoDup_singleton|].
    rewrite flat_map_bind. apply NoDup_bind.
    + intros f1 f2 p _ _. rewrite !map_fmap, !list_elem_of_fmap.
      intros (p1 & -> & _) (p2 & Heq & _). congruence.
    + intros first _. rewrite map_fmap. apply NoDup_fmap_2; [|apply IH].
      intros p1 p2. congruence.
    + rewrite rev_reverse, reverse_Permutation. apply NoDup_seq.
Qed.

Lemma partitions_sound n p :
  p ∈ _generate_all_unique_integer_partitions n →
  sum_list p = n ∧ Forall (λ x, 1 ≤ x) p ∧ 2 ≤ length p.
Proof.
  unfold _generate_all_unique_integer_partitions.
  rewrite list_elem_of_filter. intros [Hlen Hp].
  apply partitions_bounded_sound in Hp as [Hsum Hall]. done.
Qed.

Lemma partitions_NoDup n : NoDup (_generate_all_unique_integer_partitions n).
Proof. apply NoDup_filter, partitions_bounded_NoDup. Qed.

Lemma part_bound (p : list nat) x :
  Forall (λ y, 1 ≤ y) p → x ∈ p → x + (length p - 1) ≤ sum_list p.
Proof.
  induction 1 as [|y p Hy Hall IH]; [by intros ?%elem_of_nil|].
  intros [->|Hin]%elem_of_cons; simpl.
  - assert (length p ≤ sum_list p); [|lia].
    clear -Hall. induction Hall; simpl; lia.
  - specialize (IH Hin). destruct p; [by apply elem_of_nil in Hin|].
    simpl in *. lia.
Qed.

Lemma partitions_part_lt n p x :
  p ∈ _generate_all_unique_integer_partitions n → x ∈ p → 1 ≤ x < n.
Proof.
  intros (Hsum & Hall & Hlen)%partitions_sound Hx.
  pose proof (part_bound p x Hall Hx).
  rewrite Forall_forall in Hall. specialize (Hall x Hx). lia.
Qed.

(** ** StructureComposer *)

Lemma operator_text_at depth :
  (if depth mod 2 =? 0 then "J" else "U") = operator_text (operator_at depth).
Proof. unfold operator_at. by destruct (depth mod 2 =? 0). Qed.

Lemma compose_fuel_succ fuel n depth :
  compose_fuel (S fuel) n depth =
  if n =? 1 then ["a"]
  else
    _generate_all_unique_integer_partitions n ≫= λ partition,
      if length partition =? 1 then []
      else
        _apply_cograph_operator_structure (operator_text (operator_at depth)) <$>
        _generate_ordered_cartesian_product
          ((λ part_size, compose_fuel fuel part_size (depth + 1)) <$> partition).
Proof. cbn [compose_fuel]. by rewrite operator_text_at. Qed.

Lemma branching_leaves t : branching 1 t → 1 ≤ leaves t.
Proof.
  induction t as [|op children IH] using cotree_rect_forall; [done|].
  rewrite branching_node. intros [Hlen Hall]. simpl.
  destruct children as [|c children]; [simpl in Hlen; lia|].
  apply Forall_cons in IH as [IHc _]. apply Forall_cons in Hall as [Hc _].
  specialize (IHc Hc). simpl. lia.
Qed.

(** What the composer emits for [n] leaves at depth [depth]: the text of
    a cotree with [n] leaves, at least two children at every internal
    node, and the operators of the successive depths. *)
Lemma compose_fuel_shape fuel n depth s :
  s ∈ compose_fuel fuel n depth →
  ∃ t, s = serialize t ∧ leaves t = n ∧ branching 2 t ∧ alternates depth t.
Proof.
  revert n depth s. induction fuel as [|fuel IH]; intros n depth s.
  { by intros ?%elem_of_nil. }
  rewrite compose_fuel_succ. destruct (n =? 1) eqn:Hn.
  { apply Nat.eqb_eq in Hn as ->. intros ->%list_elem_of_singleton.
    by exists Leaf. }
  rewrite list_elem_of_bind. intros (p & Hs & Hp).
  destruct (length p =? 1); [by apply elem_of_nil in Hs|].
  rewrite list_elem_of_fmap in Hs. destruct Hs as (comb & -> & Hcomb).
  apply ordered_product_elem in Hcomb. rewrite Forall2_fmap_r in Hcomb.
  apply partitions_sound in Hp as (Hsum & _ & Hlen).
  assert (∃ ts, comb = serialize <$> ts ∧
            Forall2 (λ t part, leaves t = part ∧ branching 2 t ∧
                               alternates (S depth) t) ts p)
    as (ts & -> & Hts).
  { clear -Hcomb IH. induction Hcomb as [|c part comb p Hc _ (ts & -> & Hts)].
    - exists []. by split; [|constructor].
    - simpl in Hc. apply IH in Hc as (t & -> & Ht).
      rewrite Nat.add_1_r in Ht.
      exists (t :: ts). split; [done|by constructor]. }
  exists (Node (operator_at depth) ts). split_and!.
  - done.
  - simpl. rewrite <- Hsum. f_equal. clear -Hts.
    induction Hts as [|???? [? _]]; simpl; [done|]. by f_equal.
  - apply branching_node. split.
    + by rewrite (Forall2_length _ _ _ Hts).
    + clear -Hts. induction Hts as [|???? (_ & ? & _)]; constructor; auto.
  - apply alternates_node. split; [done|].
    clear -Hts. induction Hts as [|???? (_ & _ & ?)]; constructor; auto.
Qed.

Lemma bind_ext_elem {A B} (f g : A → list B) (l : list A) :
  (∀ x, x ∈ l → f x = g x) → l ≫= f = l ≫= g.
Proof.
  induction l as [|x l IH]; intros Hfg; [done|].
  rewrite !bind_cons, Hfg by left. f_equal. apply IH. intros y Hy. apply Hfg. by right.
Qed.

Lemma fmap_ext_elem {A B} (f g : A → B) (l : list A) :
  (∀ x, x ∈ l → f x = g x) → f <$> l = g <$> l.
Proof.
  induction l as [|x l IH]; intros Hfg; [done|].
  rewrite !fmap_cons, Hfg by left. f_equal. apply IH. intros y Hy. apply Hfg. by right.
Qed.

Lemma partitions_zero : _generate_all_unique_integer_partitions 0 = [].
Proof. reflexivity. Qed.

(** The recursion bound does not matter once it reaches [n]. *)
Lemma compose_fuel_irrelevant fuel1 fuel2 n depth :
  n ≤ fuel1 → n ≤ fuel2 →
  compose_fuel fuel1 n depth = compose_fuel fuel2 n depth.
Proof.
  revert fuel2 n depth.
  induction fuel1 as [|fuel1 IH]; intros fuel2 n depth H1 H2.
  - assert (n = 0) as -> by lia. destruct fuel2; [done|].
    by rewrite compose_fuel_succ, partitions_zero.
  - destruct fuel2 as [|fuel2].
    { assert (n = 0) as -> by lia.
      by rewrite compose_fuel_succ, partitions_zero. }
    rewrite !compose_fuel_succ. destruct (n =? 1); [done|].
    apply bind_ext_elem. intros p Hp. destruct (length p =? 1); [done|].
    do 2 f_equal. apply fmap_ext_elem. intros x Hx.
    pose proof (partitions_part_lt n p x Hp Hx). apply IH; lia.
Qed.

Lemma compose_fuel_stable fuel n depth :
  n ≤ fuel → compose_fuel fuel n depth = generate_all_cotree_structures n depth.
Proof. intros. by apply compose_fuel_irrelevant. Qed.

(** The function satisfies the recursion of the source, whatever [n]. *)
Lemma generate_all_cotree_structures_unfold n depth :
  generate_all_cotree_structures n depth =
  if n =? 1 then ["a"]
  else
    _generate_all_unique_integer_partitions n ≫= λ partition,
      if length partition =? 1 then []
      else
        _apply_cograph_operator_structure (operator_text (operator_at depth)) <$>
        _generate_ordered_cartesian_product
          ((λ part_size, generate_all_cotree_structures part_size (depth + 1))
             <$> partition).
Proof.
  unfold generate_all_cotree_structures at 1. destruct n as [|n].
  { by rewrite partitions_zero. }
  rewrite compose_fuel_succ. destruct (S n =? 1); [done|].
  apply bind_ext_elem. intros p Hp. destruct (length p =? 1); [done|].
  do 2 f_equal. apply fmap_ext_elem. intros x Hx.
  pose proof (partitions_part_lt _ p x Hp Hx). apply compose_fuel_stable. lia.
Qed.

Lemma generate_all_cotree_structures_shape n depth s :
  s ∈ generate_all_cotree_structures n depth →
  ∃ t, s = serialize t ∧ leaves t = n ∧ branching 2 t ∧ alternates depth t.
Proof. apply compose_fuel_shape. Qed.

(** The children of a combination are texts of cotrees of the part sizes. *)
Lemma combination_trees fuel depth (p : list nat) comb :
  comb ∈ _generate_ordered_cartesian_product
           ((λ part_size, compose_fuel fuel part_size depth) <$> p) →
  ∃ ts, comb = serialize <$> ts ∧ leaves <$> ts = p ∧ Forall (branching 2) ts.
Proof.
  intros Hcomb%ordered_product_elem. rewrite Forall2_fmap_r in Hcomb.
  induction Hcomb as [|c part comb p Hc _ (ts & -> & <- & Hts)].
  - by exists [].
  - simpl in Hc. apply compose_fuel_shape in Hc as (t & -> & <- & Hb & _).
    exists (t :: ts). split_and!; [done|done|by constructor].
Qed.

Lemma apply_operator_inj op ts1 ts2 :
  Forall (branching 2) ts1 → Forall (branching 2) ts2 →
  ts1 ≠ [] → ts2 ≠ [] →
  _apply_cograph_operator_structure (operator_text op) (serialize <$> ts1) =
  _apply_cograph_operator_structure (operator_text op) (serialize <$> ts2) →
  ts1 = ts2.
Proof.
  intros H1 H2 Hne1 Hne2 Heq.
  assert (∀ ts, Forall (branching 2) ts → ts ≠ [] → branching 1 (Node op ts))
    as Hb.
  { intros ts Hts Hne. apply branching_node. split.
    - destruct ts; [done|simpl; lia].
    - eapply Forall_impl; [exact Hts|]. intros t. apply branching_weaken. lia. }
  assert (Node op ts1 = Node op ts2) as [= ->]; [|done].
  apply serialize_inj; auto.
Qed.

Lemma compose_fuel_NoDup fuel n depth : NoDup (compose_fuel fuel n depth).
Proof.
  revert n depth. induction fuel as [|fuel IH]; intros n depth; [constructor|].
  rewrite compose_fuel_succ. destruct (n =? 1); [apply NoDup_singleton|].
  assert (∀ p, p ∈ _generate_all_unique_integer_partitions n → p ≠ []) as Hne.
  { intros p (_ & _ & Hlen)%partitions_sound ->. simpl in Hlen. lia. }
  apply NoDup_bind; [| |apply partitions_NoDup].
  - intros p1 p2 s Hp1 Hp2.
    destruct (length p1 =? 1); [by intros ?%elem_of_nil|].
    destruct (length p2 =? 1); [by intros _ ?%elem_of_nil|].
    rewrite !list_elem_of_fmap. intros (c1 & -> & Hc1) (c2 & Heq & Hc2).
    apply combination_trees in Hc1 as (ts1 & -> & <- & Hts1).
    apply combination_trees in Hc2 as (ts2 & -> & <- & Hts2).
    apply apply_operator_inj in Heq as ->; try done.
    + intros ->. by apply (Hne _ Hp1).
    + intros ->. by apply (Hne _ Hp2).
  - intros p Hp. destruct (length p =? 1); [constructor|].
    apply NoDup_fmap_2_strong.
    + intros c1 c2 Hc1 Hc2 Heq.
      apply combination_trees in Hc1 as (ts1 & -> & E1 & Hts1).
      apply combination_trees in Hc2 as (ts2 & -> & E2 & Hts2).
      apply apply_operator_inj in Heq as ->; try done.
      * intros ->. by apply (Hne _ Hp).
      * intros ->. by apply (Hne _ Hp).
    + apply ordered_product_NoDup. rewrite Forall_fmap.
      apply Forall_forall. intros x _. apply IH.
Qed.

(** ** The composer emits something for every positive leaf count *)

Lemma ones_in_partitions_bounded n :
  ∀ fuel bound, n ≤ fuel → 1 ≤ bound →
                replicate n 1 ∈ partitions_bounded fuel n bound.
Proof.
  induction n as [|n IH]; intros fuel bound Hfuel Hbound.
  - destruct fuel; simpl; left.
  - destruct fuel as [|fuel]; [lia|].
    cbn [partitions_bounded]. replace (S n =? 0) with false by done.
    rewrite flat_map_bind, list_elem_of_bind. exists 1. split.
    + rewrite map_fmap, list_elem_of_fmap. exists (replicate n 1). split; [done|].
      replace (S n - 1) with n by lia. apply IH; lia.
    + rewrite rev_reverse, elem_of_reverse, elem_of_seq. lia.
Qed.

Lemma ones_in_partitions n :
  2 ≤ n → replicate n 1 ∈ _generate_all_unique_integer_partitions n.
Proof.
  intros Hn. unfold _generate_all_unique_integer_partitions.
  apply list_elem_of_filter. split; [by rewrite length_replicate|].
  apply ones_in_partitions_bounded; lia.
Qed.

Lemma combinations_inhabited {A} m (pool : list A) :
  pool ≠ [] → ∃ c, c ∈ combinations_with_replacement m pool.
Proof.
  intros Hpool. induction m as [|m [c Hc]].
  - exists []. simpl. left.
  - destruct pool as [|x rest]; [done|].
    exists (x :: c). rewrite combinations_succ_cons, elem_of_app. left.
    rewrite map_fmap, list_elem_of_fmap. by exists c.
Qed.

Lemma product_concat_inhabited {A} (choices : list (list (list A))) :
  Forall (λ g, ∃ c, c ∈ g) choices → ∃ comb, comb ∈ product_concat choices.
Proof.
  induction 1 as [|g rest [c Hc] _ [comb Hcomb]].
  - exists []. simpl. left.
  - exists (c ++ comb). simpl. rewrite flat_map_bind, list_elem_of_bind.
    exists c. split; [|done]. rewrite map_fmap, list_elem_of_fmap. by exists comb.
Qed.

Lemma ordered_product_inhabited (child_streams : list (list string)) :
  Forall (λ stream, stream ≠ []) child_streams →
  ∃ comb, comb ∈ _generate_ordered_cartesian_product child_streams.
Proof.
  intros Hall. apply product_concat_inhabited.
  rewrite map_fmap, Forall_fmap. apply Forall_forall. intros [pool m] Hg. simpl.
  apply combinations_inhabited. rewrite Forall_forall in Hall. apply Hall.
  by apply (group_runs_elem child_streams (pool, m)).
Qed.

Lemma compose_fuel_inhabited fuel :
  ∀ n depth, 1 ≤ n ≤ fuel → ∃ s, s ∈ compose_fuel fuel n depth.
Proof.
  induction fuel as [|fuel IH]; intros n depth Hn; [lia|].
  rewrite compose_fuel_succ. destruct (n =? 1) eqn:E.
  { exists "a". left. }
  apply Nat.eqb_neq in E.
  destruct (ordered_product_inhabited
              ((λ part_size, compose_fuel fuel part_size (depth + 1))
                 <$> replicate n 1)) as [comb Hcomb].
  { rewrite Forall_fmap. apply Forall_forall.
    intros x ->%elem_of_replicate_inv. simpl.
    destruct (IH 1 (depth + 1)) as [s Hs]; [lia|].
    intros Hnil. rewrite Hnil in Hs. by apply elem_of_nil in Hs. }
  eexists. rewrite list_elem_of_bind. exists (replicate n 1). split.
  - rewrite length_replicate. destruct (n =? 1) eqn:E'.
    { apply Nat.eqb_eq in E'. lia. }
    rewrite list_elem_of_fmap. by exists comb.
  - apply ones_in_partitions. lia.
Qed.

Lemma generate_all_cotree_structures_inhabited n depth :
  1 ≤ n → ∃ s, s ∈ generate_all_cotree_structures n depth.
Proof. intros Hn. apply compose_fuel_inhabited. lia. Qed.

(** ** The derived graph *)

Lemma order_combine op g h : order (combine op g h) = order g + order h.
Proof. by destruct op. Qed.

Lemma order_graph_of t : order (graph_of t) = leaves t.
Proof.
  induction t as [|op children IH] using cotree_rect_forall; [done|].
  simpl. induction IH as [|c children Hc _ IHc]; [done|].
  simpl. by rewrite order_combine, Hc, IHc.
Qed.

Lemma adjacent_sym g u v : adjacent g u v = adjacent g v u.
Proof. unfold adjacent. apply bool_decide_ext. tauto. Qed.

Lemma adjacent_join_cross g h u v :
  u < order g → order g ≤ v < order g + order h →
  adjacent (complete_join g h) u v = true.
Proof.
  intros Hu Hv. unfold adjacent. apply bool_decide_eq_true. left.
  simpl. rewrite !elem_of_app. right. right.
  rewrite flat_map_bind, list_elem_of_bind. exists u. split.
  - rewrite map_fmap, list_elem_of_fmap. exists (v - order g). split.
    + f_equal. lia.
    + apply elem_of_seq. lia.
  - apply elem_of_seq. lia.
Qed.

Lemma complete_join_connected g h :
  1 ≤ order g → 1 ≤ order h → connected (complete_join g h).
Proof.
  intros Hg Hh u v Hu Hv. simpl in Hu, Hv.
  assert (∀ a b, a < order g → order g ≤ b < order g + order h →
            edge_step (complete_join g h) a b ∧ edge_step (complete_join g h) b a)
    as Hcross.
  { intros a b Ha Hb. unfold edge_step. simpl.
    rewrite (adjacent_sym _ b a), adjacent_join_cross by done.
    split_and!; (done || lia). }
  assert (0 < order g ≤ order g + 0 ∧ order g < order g + order h) as Hw by lia.
  destruct (decide (u < order g)) as [Hul|Hul], (decide (v < order g)) as [Hvl|Hvl].
  - apply rtc_l with (order g); [apply (Hcross u (order g)); lia|].
    apply rtc_once, (Hcross v (order g)); lia.
  - apply rtc_once, (Hcross u v); lia.
  - apply rtc_once, (Hcross v u); lia.
  - apply rtc_l with 0; [apply (Hcross 0 u); lia|].
    apply rtc_once, (Hcross 0 v); lia.
Qed.

Lemma leaf_graph_connected : connected (graph_of Leaf).
Proof.
  intros u v Hu Hv. simpl in *. assert (u = 0 ∧ v = 0) as [-> ->] by lia.
  apply rtc_refl.
Qed.

(** A join of two or more non-empty children is connected. *)
Lemma join_graph_connected children :
  2 ≤ length children → Forall (branching 1) children →
  connected (graph_of (Node JOIN children)).
Proof.
  intros Hlen Hall.
  destruct children as [|c1 [|c2 rest]]; try (simpl in Hlen; lia).
  apply Forall_cons in Hall as [H1 Hall]. apply Forall_cons in Hall as [H2 _].
  change (graph_of (Node JOIN (c1 :: c2 :: rest)))
    with (complete_join (graph_of c1) (graph_of (Node JOIN (c2 :: rest)))).
  apply complete_join_connected.
  - rewrite order_graph_of. by apply branching_leaves.
  - rewrite order_graph_of. apply branching_leaves in H2. simpl. lia.
Qed.

Lemma operator_at_succ depth : operator_at (S depth) ≠ operator_at depth.
Proof.
  unfold operator_at.
  pose proof (Nat.mod_upper_bound depth 2).
  pose proof (Nat.mod_upper_bound (S depth) 2).
  assert (S depth mod 2 = (depth mod 2 + 1) mod 2) as ->.
  { replace (S depth) with (depth + 1) by lia.
    by rewrite Nat.Div0.add_mod_idemp_l. }
  destruct (depth mod 2) as [|[|?]] eqn:E; simpl; try done. lia.
Qed.

Lemma alternates_reduced depth t : alternates depth t → reduced t.
Proof.
  revert depth. induction t as [|op children IH] using cotree_rect_forall;
    intros depth; [done|].
  rewrite alternates_node, reduced_node. intros [-> Hall].
  rewrite Forall_forall in IH. rewrite Forall_forall in Hall.
  apply Forall_forall. intros c Hc. split; [|by eapply IH, Hall].
  specialize (Hall c Hc). destruct c as [|op' cs]; [done|].
  apply alternates_node in Hall as [-> _]. simpl.
  intros [= Heq]. by apply operator_at_succ in Heq.
Qed.

Lemma alternates_subtree depth t path op children :
  alternates depth t → subtree t path = Some (Node op children) →
  op = operator_at (depth + length path) ∧
  Forall (λ c, root_operator c ≠ Some op) children.
Proof.
  revert depth t. induction path as [|i path IH]; intros depth t Halt; simpl.
  - intros [= ->]. pose proof (alternates_reduced _ _ Halt) as Hred.
    apply alternates_node in Halt as [-> _]. rewrite Nat.add_0_r. split; [done|].
    apply reduced_node in Hred. eapply Forall_impl; [exact Hred|]. by intros ? [? _].
  - destruct t as [|op' cs]; [done|].
    destruct (cs !! i) as [c|] eqn:Hc; [|done]. intros Hsub.
    apply alternates_node in Halt as [_ Hall].
    rewrite Forall_forall in Hall.
    apply list_elem_of_lookup_2 in Hc.
    replace (depth + S (length path)) with (S depth + length path) by lia.
    eapply IH; [|done]. by apply Hall.
Qed.

(** ** The enumerator's fixtures and invariants *)

(** C1: for [n = 1, 2, 3, 4] the connected enumeration
    [generate_all_cotree_structures n 0] emits 1, 1, 2, 5 structures and
    the full enumeration emits 1, 2, 4, 10. *)
Theorem fixture_counts :
  map (λ n, length (generate_all_cotree_structures n 0)) [1; 2; 3; 4]
    = [1; 1; 2; 5] ∧
  map (λ n, length (generate_every_cotree_structure n 0)) [1; 2; 3; 4]
    = [1; 2; 4; 10].
Proof. split; vm_compute; reflexivity. Qed.

Example connected_structures_3 :
  generate_all_cotree_structures 3 0 = ["J(U(a,a),a)"; "J(a,a,a)"].
Proof. vm_compute. reflexivity. Qed.

Example every_structure_3 :
  generate_every_cotree_structure 3 0 =
  ["J(U(a,a),a)"; "J(a,a,a)"; "U(J(a,a),a)"; "U(a,a,a)"].
Proof. vm_compute. reflexivity. Qed.

Lemma structure_graph_serialize t :
  branching 1 t → structure_graph (serialize t) = Ok (graph_of t).
Proof.
  intros Hb. unfold structure_graph. by rewrite parse_structure_serialize.
Qed.

(** C2: for every [n ≥ 1] the connected enumeration
    [generate_all_cotree_structures n 0] emits no string twice, and the
    graph every emitted structure derives by the join/union rule is a
    connected graph on [n] vertices. *)
Theorem connected_enumeration_distinct_and_connected (n : nat) :
  1 ≤ n →
  NoDup (generate_all_cotree_structures n 0) ∧
  ∀ s, s ∈ generate_all_cotree_structures n 0 →
       ∃ g, structure_graph s = Ok g ∧ order g = n ∧ connected g.
Proof.
  intros Hn. split; [apply compose_fuel_NoDup|].
  intros s (t & -> & Hleaves & Hb & Halt)%generate_all_cotree_structures_shape.
  assert (branching 1 t) as Hb1 by (eapply branching_weaken; [|exact Hb]; lia).
  exists (graph_of t). split_and!.
  - by apply structure_graph_serialize.
  - by rewrite order_graph_of.
  - destruct t as [|op children]; [apply leaf_graph_connected|].
    apply alternates_node in Halt as [-> _].
    apply branching_node in Hb as [Hlen Hall].
    change (operator_at 0) with JOIN. apply join_graph_connected; [done|].
    eapply Forall_impl; [exact Hall|]. intros c. apply branching_weaken. lia.
Qed.

Lemma connected_enumeration_distinct_and_connected_witness :
  1 ≤ 3 ∧
  (NoDup (generate_all_cotree_structures 3 0) ∧
   ∀ s, s ∈ generate_all_cotree_structures 3 0 →
        ∃ g, structure_graph s = Ok g ∧ order g = 3 ∧ connected g).
Proof.
  split; [lia|]. apply (connected_enumeration_distinct_and_connected 3). lia.
Defined.

(** C3: every structure the composer emits is a reduced cotree: the
    internal node reached by any path carries the operator of its depth
    ([JOIN] at even depth, [UNION] at odd depth, counted from the depth
    the composer was started at) and none of its children carries the
    same operator.  For the entry call, [depth = 0], the root and the
    even-depth internal nodes carry [J] and the odd-depth ones [U]. *)
Theorem emitted_structures_alternate (n depth : nat) (s : string) :
  s ∈ generate_all_cotree_structures n depth →
  ∃ t, parse_structure s = Ok t ∧ s = serialize t ∧ reduced t ∧
       ∀ path op children,
         subtree t path = Some (Node op children) →
         op = (if (depth + length path) mod 2 =? 0 then JOIN else UNION) ∧
         Forall (λ c, root_operator c ≠ Some op) children.
Proof.
  intros (t & -> & _ & Hb & Halt)%generate_all_cotree_structures_shape.
  exists t. split_and!.
  - apply parse_structure_serialize. eapply branching_weaken; [|exact Hb]. lia.
  - done.
  - by eapply alternates_reduced.
  - intros path op children Hsub.
    by apply (alternates_subtree depth t path op children).
Qed.

Lemma emitted_structures_alternate_witness :
  "J(U(a,a),a)" ∈ generate_all_cotree_structures 3 0 ∧
  ∃ t, parse_structure "J(U(a,a),a)" = Ok t ∧ "J(U(a,a),a)" = serialize t ∧
       reduced t ∧
       ∀ path op children,
         subtree t path = Some (Node op children) →
         op = (if (0 + length path) mod 2 =? 0 then JOIN else UNION) ∧
         Forall (λ c, root_operator c ≠ Some op) children.
Proof.
  assert ("J(U(a,a),a)" ∈ generate_all_cotree_structures 3 0) as H.
  { vm_compute. left. }
  split; [exact H|].
  exact (emitted_structures_alternate 3 0 "J(U(a,a),a)" H).
Defined.

(** ** Graph6Encoder *)

Lemma pack_bits_short (bits : list bool) :
  length bits < 6 →
  pack_bits bits 0 0 = map (group_value bits) (seq 0 ((length bits + 5) / 6)).
Proof.
  intros Hlen.
  destruct bits as [|b0 [|b1 [|b2 [|b3 [|b4 [|b5 rest]]]]]];
    simpl in Hlen; try lia; clear Hlen.
  - reflexivity.
  - by destruct b0.
  - by destruct b0, b1.
  - by destruct b0, b1, b2.
  - by destruct b0, b1, b2, b3.
  - by destruct b0, b1, b2, b3, b4.
Qed.

Lemma bit_at_skip6 b0 b1 b2 b3 b4 b5 rest m :
  bit_at (b0 :: b1 :: b2 :: b3 :: b4 :: b5 :: rest) (6 + m) = bit_at rest m.
Proof. reflexivity. Qed.

Lemma group_value_skip6 b0 b1 b2 b3 b4 b5 rest k :
  group_value (b0 :: b1 :: b2 :: b3 :: b4 :: b5 :: rest) (S k) =
  group_value rest k.
Proof.
  unfold group_value.
  replace (6 * S k) with (6 + 6 * k) by lia.
  rewrite <- !Nat.add_assoc. by rewrite !bit_at_skip6.
Qed.

Lemma pack_bits_full b0 b1 b2 b3 b4 b5 rest :
  pack_bits (b0 :: b1 :: b2 :: b3 :: b4 :: b5 :: rest) 0 0 =
  group_value (b0 :: b1 :: b2 :: b3 :: b4 :: b5 :: rest) 0 :: pack_bits rest 0 0.
Proof. by destruct b0, b1, b2, b3, b4, b5. Qed.

(** The packer emits one value per group of six bits. *)
Lemma pack_bits_groups (bits : list bool) :
  pack_bits bits 0 0 = map (group_value bits) (seq 0 ((length bits + 5) / 6)).
Proof.
  remember (length bits) as len eqn:Hlen.
  revert bits Hlen. induction len as [len IH] using lt_wf_ind. intros bits ->.
  destruct (decide (length bits < 6)) as [Hshort|Hlong].
  { by apply pack_bits_short. }
  destruct bits as [|b0 [|b1 [|b2 [|b3 [|b4 [|b5 rest]]]]]];
    simpl in Hlong; try lia.
  rewrite pack_bits_full.
  replace (length (b0 :: b1 :: b2 :: b3 :: b4 :: b5 :: rest) + 5)
    with (1 * 6 + (length rest + 5)) by (simpl; lia).
  rewrite Nat.div_add_l by done.
  change (1 + (length rest + 5) / 6) with (S ((length rest + 5) / 6)).
  rewrite (IH (length rest)) by (simpl; lia || done).
  cbn [seq map]. f_equal. rewrite <- seq_shift, map_map.
  apply map_ext. intros k. by rewrite group_value_skip6.
Qed.

Lemma upper_triangle_bits_succ n x :
  upper_triangle_bits (S (S n)) x =
  upper_triangle_bits (S n) x ++ map (λ i, x i (S n)) (seq 0 (S n)).
Proof.
  unfold upper_triangle_bits.
  replace (S (S n) - 1) with (S n) by lia. replace (S n - 1) with n by lia.
  rewrite seq_S, flat_map_app. simpl flat_map at 2. by rewrite app_nil_r.
Qed.

Lemma triangle_double n : 2 * triangle n = n * (n - 1).
Proof.
  induction n as [|n IH]; [done|]. simpl triangle.
  replace (S n - 1) with n by lia. destruct n; [done|].
  replace (S n - 1) with n in IH by lia. nia.
Qed.

Lemma triangle_half n : triangle n = n * (n - 1) / 2.
Proof.
  rewrite <- triangle_double, Nat.mul_comm. by rewrite Nat.div_mul.
Qed.

Lemma length_upper_triangle_bits n x :
  length (upper_triangle_bits n x) = triangle n.
Proof.
  destruct n as [|n]; [done|].
  induction n as [|n IH]; [done|].
  rewrite upper_triangle_bits_succ, length_app, IH, length_map, length_seq.
  simpl. lia.
Qed.

(** The bit of the pair [(i, j)], [i < j], sits after the columns
    before [j], at row [i]. *)
Lemma upper_triangle_bits_lookup n x i j :
  i < j → j < n →
  upper_triangle_bits n x !! (triangle j + i) = Some (x i j).
Proof.
  intros Hij. destruct n as [|n]; [lia|].
  induction n as [|n IH]; [lia|]. intros Hj.
  rewrite upper_triangle_bits_succ.
  destruct (decide (j = S n)) as [->|Hne].
  - rewrite lookup_app_r; rewrite length_upper_triangle_bits; [|lia].
    replace (triangle (S n) + i - triangle (S n)) with i by lia.
    rewrite map_fmap, list_lookup_fmap, lookup_seq_lt by lia. done.
  - apply lookup_app_l_Some, IH. lia.
Qed.

Lemma graph6_line_reference n x : graph6_line n x = graph6_reference n x.
Proof.
  unfold graph6_line, graph6_reference.
  rewrite pack_bits_groups, length_upper_triangle_bits, triangle_half.
  by rewrite map_map.
Qed.

(** C4: for a structure on [n ≤ 62] vertices the encoder's line is the
    character [chr (n + 63)] followed by the upper-triangle adjacency
    bits taken column by column (the bit of rows [i < j] of column [j]
    at position [triangle j + i]), packed six per character with the
    most significant bit first, the last group padded with zeros, each
    value [v] written as [chr (v + 63)]. *)
Theorem graph6_encoding_exact (t : cotree) :
  branching 1 t → leaves t ≤ 62 →
  let n := leaves t in
  let x := adjacent (graph_of t) in
  _structure_to_g6_optimized_worker (serialize t) = Ok (graph6_reference n x) ∧
  length (upper_triangle_bits n x) = n * (n - 1) / 2 ∧
  ∀ i j, i < j → j < n →
         upper_triangle_bits n x !! (triangle j + i) = Some (x i j).
Proof.
  intros Hb Hn n x. split_and!.
  - unfold _structure_to_g6_optimized_worker.
    rewrite parse_structure_serialize by done. simpl.
    rewrite order_graph_of.
    destruct (62 <? leaves t) eqn:E; [apply Nat.ltb_lt in E; lia|].
    by rewrite graph6_line_reference.
  - by rewrite length_upper_triangle_bits, triangle_half.
  - intros i j. apply upper_triangle_bits_lookup.
Qed.

Lemma graph6_encoding_exact_witness :
  let t := Node JOIN [Node UNION [Leaf; Leaf]; Leaf] in
  branching 1 t ∧ leaves t ≤ 62 ∧
  _structure_to_g6_optimized_worker "J(U(a,a),a)" = Ok "BW".
Proof.
  intros t.
  assert (branching 1 t) as Hb by (vm_compute; repeat split; lia).
  assert (leaves t ≤ 62) as Hn by (vm_compute; lia).
  split_and!; [exact Hb|exact Hn|].
  exact (proj1 (graph6_encoding_exact t Hb Hn)).
Defined.

(** ** Files and lines *)

Lemma lines_text_cons s l :
  lines_text (s :: l) = s +:+ String newline (lines_text l).
Proof. reflexivity. Qed.

Lemma lines_text_app l1 l2 :
  lines_text (l1 ++ l2) = lines_text l1 +:+ lines_text l2.
Proof.
  induction l1 as [|s l1 IH]; [done|].
  rewrite <- app_comm_cons, !lines_text_cons, IH.
  by rewrite app_assoc_text, app_cons.
Qed.

Lemma string_drop_app s r : string_drop (String.length s) (s +:+ r) = r.
Proof. induction s as [|c s IH]; [by destruct r|]. by rewrite app_cons. Qed.

Lemma single_line_cons c s :
  single_line (String c s) ↔ c ≠ newline ∧ single_line s.
Proof.
  unfold single_line. simpl. rewrite andb_true_iff, negb_true_iff.
  by rewrite bool_decide_eq_false.
Qed.

Lemma split_line_line s rest :
  single_line s →
  split_line (s +:+ String newline rest) = (s +:+ String newline "", rest).
Proof.
  induction s as [|c s IH]; intros Hs.
  - reflexivity.
  - apply single_line_cons in Hs as [Hc Hs].
    rewrite !app_cons. cbn [split_line]. rewrite decide_False by done.
    by rewrite IH.
Qed.

Lemma text_lines_go_line s current rest :
  single_line s →
  text_lines_go (s +:+ String newline rest) current =
  (current +:+ s) :: text_lines_go rest "".
Proof.
  revert current. induction s as [|c s IH]; intros current Hs.
  - rewrite app_empty_l, app_empty_r. reflexivity.
  - apply single_line_cons in Hs as [Hc Hs].
    rewrite app_cons. cbn [text_lines_go]. rewrite decide_False by done.
    rewrite IH by done. by rewrite app_assoc_text.
Qed.

(** Reading back the lines that were written. *)
Lemma text_lines_lines_text l :
  Forall single_line l → text_lines (lines_text l) = l.
Proof.
  unfold text_lines. induction 1 as [|s l Hs _ IH]; [done|].
  rewrite lines_text_cons, text_lines_go_line by done. by rewrite IH.
Qed.

Lemma structure_line_single s : structure_line s → single_line s.
Proof.
  intros [_ Hs]. unfold single_line. induction s as [|c s IH]; [done|].
  simpl in *. apply andb_true_iff in Hs as [Hc Hs].
  rewrite IH by done. rewrite andb_true_r.
  apply negb_true_iff, bool_decide_eq_false. intros ->. done.
Qed.

Lemma rstrip_line s :
  string_forall (λ c, negb (is_space c)) s = true →
  rstrip (s +:+ String newline "") = s.
Proof.
  induction s as [|c s IH]; [done|]. simpl. intros [Hc Hs]%andb_true_iff.
  rewrite IH by done.
  destruct s; [|done]. apply negb_true_iff in Hc. by rewrite Hc.
Qed.

Lemma strip_line s : structure_line s → strip (s +:+ String newline "") = s.
Proof.
  intros [Hne Hs]. unfold strip. destruct s as [|c s]; [done|].
  rewrite app_cons. simpl in Hs. apply andb_true_iff in Hs as [Hc Hs].
  simpl lstrip. apply negb_true_iff in Hc as Hc'. rewrite Hc'.
  rewrite <- app_cons. apply rstrip_line. simpl. by rewrite Hc, Hs.
Qed.

Lemma append_file_lookup fs path text :
  append_file fs path text !! path = Some (read_file fs path +:+ text).
Proof. unfold append_file. by rewrite lookup_insert_eq. Qed.

Lemma fold_append_lines path (l : list string) (fs : gmap string string) content :
  fs !! path = Some content →
  fold_left (λ fs s, append_file fs path (s +:+ String newline "")) l fs =
  <[path := content +:+ lines_text l]> fs.
Proof.
  revert fs content. induction l as [|s l IH]; intros fs content Hpath; simpl.
  - rewrite app_empty_r. by rewrite insert_id.
  - erewrite IH; [|apply append_file_lookup].
    unfold append_file, read_file. rewrite Hpath. simpl.
    rewrite insert_insert_eq. by rewrite !app_assoc_text.
Qed.

Lemma write_scratch_eq temp_filename structures fs :
  write_scratch temp_filename structures fs =
  <[temp_filename := lines_text structures]> fs.
Proof.
  unfold write_scratch. erewrite fold_append_lines; [|apply lookup_insert_eq].
  rewrite insert_insert_eq. by rewrite app_empty_l.
Qed.

(** Reading [count] lines when the file holds [pre] then [post] and the
    handle stands after [pre]. *)
Lemma read_lines_scratch fs path pre post count :
  read_file fs path = lines_text (pre ++ post) →
  Forall single_line post →
  read_lines fs path (String.length (lines_text pre)) count =
  (((λ s, s +:+ String newline "") <$> take count post) ++
     replicate (count - length post) "",
   String.length (lines_text (pre ++ take count post))).
Proof.
  revert pre post. induction count as [|count IH]; intros pre post Hfile Hpost.
  - simpl. by rewrite take_0, app_nil_r.
  - cbn [read_lines]. unfold readline at 1. rewrite Hfile, lines_text_app.
    rewrite string_drop_app. destruct post as [|s post].
    + simpl split_line. cbn [fst String.length]. rewrite Nat.add_0_r.
      rewrite (IH pre []) by done. simpl. by rewrite take_nil, Nat.sub_0_r.
    + apply Forall_cons in Hpost as [Hs Hpost].
      rewrite lines_text_cons, split_line_line by done. cbn [fst].
      replace (String.length (lines_text pre) + String.length (s +:+ String newline ""))
        with (String.length (lines_text (pre ++ [s]))).
      2:{ rewrite lines_text_app, length_app_text, lines_text_cons. done. }
      rewrite (IH (pre ++ [s]) post); [|by rewrite <- app_assoc|done].
      simpl. by rewrite <- app_assoc.
Qed.

Lemma batch_of_raw (xs : list string) m :
  Forall structure_line xs →
  filter (λ s, s ≠ "")
    (map strip (((λ s, s +:+ String newline "") <$> xs) ++ replicate m "")) = xs.
Proof.
  intros Hxs. rewrite map_fmap, fmap_app, filter_app.
  assert (filter (λ s, s ≠ "") (strip <$> replicate m "") = []) as ->.
  { induction m as [|m IHm]; [done|].
    rewrite replicate_S, fmap_cons. by rewrite filter_cons_False by naive_solver. }
  rewrite app_nil_r. induction Hxs as [|s xs Hs _ IH]; [done|].
  rewrite !fmap_cons, strip_line by done.
  rewrite filter_cons_True by apply Hs. by rewrite IH.
Qed.

(** ** Streaming-to-file mode *)

Lemma map_result_Ok {A B} (f : A → result B) (l : list A) (ys : list B) :
  map_result f l = Ok ys ↔ Forall2 (λ x y, f x = Ok y) l ys.
Proof.
  revert ys. induction l as [|x l IH]; intros ys; simpl.
  - split; [intros [= <-]; constructor|by intros ->%Forall2_nil_inv_l].
  - destruct (f x) as [y|e] eqn:Hx.
    + destruct (map_result f l) as [ys'|e] eqn:Hl; split.
      * intros [= <-]. constructor; [done|]. by apply IH.
      * intros (y' & ys'' & Hy & Hys & ->)%Forall2_cons_inv_l.
        apply IH in Hys. congruence.
      * done.
      * intros (y' & ys'' & Hy & Hys & ->)%Forall2_cons_inv_l.
        apply IH in Hys. congruence.
    + split; [done|].
      intros (y' & ys'' & Hy & Hys & ->)%Forall2_cons_inv_l. congruence.
Qed.

Lemma map_result_succeeds {A B} (f : A → result B) (l : list A) :
  Forall (λ x, succeeds (f x)) l → ∃ ys, map_result f l = Ok ys.
Proof.
  induction 1 as [|x l Hx _ [ys IH]]; simpl; [by eexists|].
  destruct (f x); [|done]. rewrite IH. by eexists.
Qed.



Lemma length_lines_text l : length l ≤ String.length (lines_text l).
Proof.
  induction l as [|s l IH]; [done|].
  rewrite lines_text_cons, length_app_text. simpl. lia.
Qed.

Section pipeline_properties.
Variable generator : nat → nat → list string.
Variable worker : string → result string.

Lemma fold_append_other out_path p (gs : list string) (fs : gmap string string) :
  p ≠ out_path →
  fold_left (λ fs g6, append_file fs out_path (g6 +:+ String newline "")) gs fs !! p
  = fs !! p.
Proof.
  intros Hp. revert fs. induction gs as [|g gs IH]; intros fs; [done|].
  simpl. rewrite IH. unfold append_file. by rewrite lookup_insert_ne.
Qed.

(** The loop writes to the output file only. *)
Lemma convert_batches_frame fuel temp out bs np offset fs p :
  p ≠ out →
  (convert_batches worker fuel temp out bs np offset fs).1 !! p = fs !! p.
Proof.
  intros Hp. revert offset fs. induction fuel as [|fuel IH]; intros offset fs; [done|].
  cbn [convert_batches].
  destruct (read_lines fs temp offset (Z.to_nat bs)) as [raw offset'].
  destruct (filter (λ s, s ≠ "") (map strip raw)) as [|s batch]; [done|].
  destruct (pool_map worker np (s :: batch)) as [gs|e]; [|done].
  rewrite IH. by apply fold_append_other.
Qed.

(** One iteration, when the scratch file holds [pre] then [post], the
    handle stands after [pre] and the output file holds [written]. *)
Lemma convert_batches_step fuel temp out bs np pre post written
    (fs : gmap string string) :
  temp ≠ out →
  fs !! temp = Some (lines_text (pre ++ post)) →
  fs !! out = Some (lines_text written) →
  Forall structure_line post →
  convert_batches worker (S fuel) temp out bs np
    (String.length (lines_text pre)) fs =
  match take (Z.to_nat bs) post with
  | [] => (fs, Ok ())
  | batch =>
      match pool_map worker np batch with
      | Raise e => (fs, Raise e)
      | Ok gs =>
          convert_batches worker fuel temp out bs np
            (String.length (lines_text (pre ++ batch)))
            (<[out := lines_text (written ++ gs)]> fs)
      end
  end.
Proof.
  intros Hne Htemp Hout Hpost. cbn [convert_batches].
  rewrite (read_lines_scratch fs temp pre post);
    [|by unfold read_file; rewrite Htemp
     |by eapply Forall_impl; [exact Hpost|apply structure_line_single]].
  rewrite batch_of_raw by (by apply Forall_take).
  destruct (take (Z.to_nat bs) post) as [|s batch]; [done|].
  destruct (pool_map worker np (s :: batch)) as [gs|e]; [|done].
  erewrite fold_append_lines by exact Hout.
  by rewrite (lines_text_app written gs).
Qed.

(** What the loop leaves: the encodings [gs] of an initial part [done]
    of the pending structures, appended to the output in that order. *)
Lemma convert_batches_outcome fuel temp out bs np pre post written
    (fs : gmap string string) :
  temp ≠ out →
  fs !! temp = Some (lines_text (pre ++ post)) →
  fs !! out = Some (lines_text written) →
  Forall structure_line post →
  ∃ gs r done todo,
    convert_batches worker fuel temp out bs np
      (String.length (lines_text pre)) fs =
    (<[out := lines_text (written ++ gs)]> fs, r) ∧
    post = done ++ todo ∧
    Forall2 (λ s g, worker s = Ok g) done gs ∧
    (r = Ok () → (1 ≤ bs)%Z → todo = []) ∧
    (length post < fuel → (1 ≤ bs)%Z → (1 ≤ np)%Z →
     Forall (λ s, succeeds (worker s)) post → r = Ok ()).
Proof.
  intros Hne. revert pre post written fs.
  induction fuel as [|fuel IH]; intros pre post written fs Htemp Hout Hpost.
  { exists [], (Raise RecursionExhausted), [], post. split_and!; try done.
    - simpl. by rewrite app_nil_r, insert_id.
    - lia. }
  rewrite (convert_batches_step fuel temp out bs np pre post written) by done.
  destruct (take (Z.to_nat bs) post) as [|s batch] eqn:Hbatch.
  { exists [], (Ok ()), [], post. split_and!; try done.
    - by rewrite app_nil_r, insert_id.
    - intros _ Hbs. destruct post as [|s post]; [done|].
      destruct (Z.to_nat bs) eqn:E; [lia|done]. }
  cbv zeta.
  assert (post = (s :: batch) ++ drop (Z.to_nat bs) post) as Hsplit.
  { by rewrite <- Hbatch, take_drop. }
  destruct (pool_map worker np (s :: batch)) as [gs|e] eqn:Hpool.
  2:{ exists [], (Raise e), [], post. split_and!; try done.
      - by rewrite app_nil_r, insert_id.
      - intros _ _ Hnp Hall. unfold pool_map in Hpool.
        destruct (np <? 1)%Z eqn:E; [lia|].
        rewrite Hsplit in Hall. apply Forall_app in Hall as [Hall _].
        apply map_result_succeeds in Hall as [ys Hys]. congruence. }
  assert (Forall2 (λ s g, worker s = Ok g) (s :: batch) gs) as Hgs.
  { unfold pool_map in Hpool. destruct (np <? 1)%Z; [done|].
    by apply map_result_Ok. }
  destruct (IH (pre ++ s :: batch) (drop (Z.to_nat bs) post) (written ++ gs)
              (<[out := lines_text (written ++ gs)]> fs))
    as (gs' & r & done' & todo & Hrun & Hpost' & Hdone & Hok & Hsucc).
  { rewrite lookup_insert_ne by done. by rewrite <- app_assoc, <- Hsplit. }
  { by rewrite lookup_insert_eq. }
  { by apply Forall_drop. }
  exists (gs ++ gs'), r, ((s :: batch) ++ done'), todo. split_and!.
  - rewrite Hrun. by rewrite insert_insert_eq, app_assoc.
  - by rewrite <- app_assoc, <- Hpost'.
  - by apply Forall2_app.
  - done.
  - intros Hlen Hbs Hnp Hall. apply Hsucc; try done.
    + rewrite length_drop. destruct (Z.to_nat bs) eqn:E; [lia|].
      destruct post; simpl in *; [done|lia].
    + by apply Forall_drop.
Qed.
End pipeline_properties.

Section pipeline_theorems.
Variable generator : nat → nat → list string.
Variable worker : string → result string.

Lemma scratch_content temp structures (fs : gmap string string) :
  read_file (write_scratch temp structures fs) temp = lines_text structures.
Proof. rewrite write_scratch_eq. unfold read_file. by rewrite lookup_insert_eq. Qed.

(** The whole of phase 2 on the scratch file phase 1 wrote. *)
Lemma convert_scratch_outcome temp out bs np structures
    (fs : gmap string string) :
  temp ≠ out →
  Forall structure_line structures →
  ∃ gs r done todo,
    convert_scratch worker temp out bs np (write_scratch temp structures fs) =
    (<[out := lines_text gs]> (<[temp := lines_text structures]> fs), r) ∧
    structures = done ++ todo ∧
    Forall2 (λ s g, worker s = Ok g) done gs ∧
    (r = Ok () → (1 ≤ bs)%Z → todo = []) ∧
    ((1 ≤ bs)%Z → (1 ≤ np)%Z →
     Forall (λ s, succeeds (worker s)) structures → r = Ok ()).
Proof.
  intros Hne Hall. unfold convert_scratch. rewrite write_scratch_eq.
  set (fs2 := <[out := ""]> (<[temp := lines_text structures]> fs)).
  assert (fs2 !! temp = Some (lines_text structures)) as Htemp.
  { unfold fs2. rewrite lookup_insert_ne by done. by rewrite lookup_insert_eq. }
  assert (fs2 !! out = Some (lines_text [])) as Hout.
  { unfold fs2. by rewrite lookup_insert_eq. }
  destruct (convert_batches_outcome worker
              (S (String.length (read_file fs2 temp)))
              temp out bs np [] structures [] fs2 Hne Htemp Hout Hall)
    as (gs & r & done & todo & Hrun & Hsplit & Hdone & Hok & Hsucc).
  exists gs, r, done, todo. split_and!; try done.
  - cbn [lines_text String.length app] in Hrun. rewrite Hrun.
    unfold fs2. by rewrite insert_insert_eq.
  - apply Hsucc. unfold read_file. rewrite Htemp. simpl.
    pose proof (length_lines_text structures). lia.
Qed.

(** The lines of the output file after a run are the encodings [gs] of
    an initial part [done] of the generator's structures. *)
Lemma final_g6_output_lines (node_count : nat) (output_filename : string)
    (batch_size num_processes : Z) (temp_filename : string)
    (fs : gmap string string) :
  temp_filename ≠ output_filename →
  Forall structure_line (generator node_count 0) →
  Forall (encodes_to_line worker) (generator node_count 0) →
  let run :=
    final_g6 generator worker node_count output_filename batch_size
             num_processes temp_filename fs in
  ∃ gs r done todo,
    text_lines (read_file run.1 output_filename) = gs ∧
    generator node_count 0 = done ++ todo ∧
    Forall2 (λ s g, worker s = Ok g) done gs ∧
    run.2 = match r with Ok _ => Ok output_filename | Raise e => Raise e end ∧
    (r = Ok () → (1 ≤ batch_size)%Z → todo = []) ∧
    ((1 ≤ batch_size)%Z → (1 ≤ num_processes)%Z →
     Forall (λ s, succeeds (worker s)) (generator node_count 0) → r = Ok ()).
Proof.
  intros Hne Hlines Henc run.
  destruct (convert_scratch_outcome temp_filename output_filename batch_size
              num_processes (generator node_count 0) fs Hne Hlines)
    as (gs & r & done & todo & Hrun & Hsplit & Hdone & Hok & Hsucc).
  assert (Forall single_line gs) as Hgs.
  { rewrite Hsplit in Henc. apply Forall_app in Henc as [Henc _].
    clear -Hdone Henc. induction Hdone as [|s g done gs Hs _ IH]; [constructor|].
    apply Forall_cons in Henc as [Hg Henc]. constructor; [|by apply IH].
    unfold encodes_to_line in Hg. by rewrite Hs in Hg. }
  exists gs, r, done, todo. split_and!; try done.
  - unfold run, final_g6. rewrite Hrun. unfold read_file.
    destruct r as [[]|e]; simpl.
    + rewrite lookup_delete_ne by done. rewrite lookup_insert_eq. simpl.
      by apply text_lines_lines_text.
    + rewrite lookup_insert_eq. simpl. by apply text_lines_lines_text.
  - unfold run, final_g6. rewrite Hrun. by destruct r.
Qed.

(** C5: in streaming-to-file mode the line at position [k] of the
    output file is the encoding of the structure at line [k] of the
    scratch file, whatever the batch size and the number of worker
    processes; a run that returns has converted every line, and the
    run returns when the batch size and the process count are at
    least one and the worker encodes every structure. *)
Theorem streaming_output_order (node_count : nat) (output_filename : string)
    (batch_size num_processes : Z) (temp_filename : string)
    (fs : gmap string string) :
  temp_filename ≠ output_filename →
  Forall structure_line (generator node_count 0) →
  Forall (encodes_to_line worker) (generator node_count 0) →
  let scratch :=
    read_file (write_scratch temp_filename (generator node_count 0) fs)
              temp_filename in
  let run :=
    final_g6 generator worker node_count output_filename batch_size
             num_processes temp_filename fs in
  (∀ k g6,
     text_lines (read_file run.1 output_filename) !! k = Some g6 →
     ∃ structure,
       text_lines scratch !! k = Some structure ∧ worker structure = Ok g6) ∧
  (run.2 = Ok output_filename → (1 ≤ batch_size)%Z →
   length (text_lines (read_file run.1 output_filename)) =
   length (text_lines scratch)) ∧
  ((1 ≤ batch_size)%Z → (1 ≤ num_processes)%Z →
   Forall (λ s, succeeds (worker s)) (generator node_count 0) →
   run.2 = Ok output_filename).
Proof.
  intros Hne Hlines Henc scratch run.
  destruct (final_g6_output_lines node_count output_filename batch_size
              num_processes temp_filename fs Hne Hlines Henc)
    as (gs & r & done & todo & Hout & Hsplit & Hdone & Hres & Hok & Hsucc).
  fold run in Hout, Hres.
  assert (text_lines scratch = generator node_count 0) as Hscratch.
  { unfold scratch. rewrite scratch_content. apply text_lines_lines_text.
    eapply Forall_impl; [exact Hlines|apply structure_line_single]. }
  rewrite Hout, Hscratch. split_and!.
  - intros k g6 Hk.
    destruct (Forall2_lookup_r _ _ _ _ _ Hdone Hk) as (s & Hs & Hw).
    exists s. split; [|done]. rewrite Hsplit. by apply lookup_app_l_Some.
  - intros Hok' Hbs. rewrite Hres in Hok'. destruct r as [[]|e]; [|done].
    rewrite Hsplit, (Hok eq_refl Hbs), app_nil_r.
    symmetry. by eapply Forall2_length.
  - intros Hbs Hnp Hall. rewrite Hres. by rewrite (Hsucc Hbs Hnp Hall).
Qed.

(** C7: when the streaming run returns, it returns the output path
    it was given, the scratch file is gone, and every file other than
    the scratch file and the output file is as it was. *)
Theorem scratch_removed_on_success (node_count : nat)
    (output_filename : string) (batch_size num_processes : Z)
    (temp_filename : string) (fs : gmap string string) :
  let run :=
    final_g6 generator worker node_count output_filename batch_size
             num_processes temp_filename fs in
  succeeds run.2 →
  run.2 = Ok output_filename ∧
  run.1 !! temp_filename = None ∧
  ∀ path, path ≠ temp_filename → path ≠ output_filename →
          run.1 !! path = fs !! path.
Proof.
  intros run. unfold run, final_g6.
  destruct (convert_scratch worker temp_filename output_filename batch_size
              num_processes
              (write_scratch temp_filename (generator node_count 0) fs))
    as [fs3 r] eqn:Hrun.
  destruct r as [[]|e]; [|done]. intros _. simpl. split_and!.
  - done.
  - apply lookup_delete_eq.
  - intros path Htemp Hout. rewrite lookup_delete_ne by done.
    change fs3 with ((fs3, @Ok unit ()).1). rewrite <- Hrun.
    unfold convert_scratch. rewrite convert_batches_frame by done.
    rewrite lookup_insert_ne by done. rewrite write_scratch_eq.
    by rewrite lookup_insert_ne.
Qed.


End pipeline_theorems.

Lemma streaming_output_order_witness :
  let generator := generate_connected_cotree_structures in
  let worker := _structure_to_g6_optimized_worker in
  "tmp" ≠ "out" ∧
  Forall structure_line (generator 3 0) ∧
  Forall (encodes_to_line worker) (generator 3 0) ∧
  (let scratch := read_file (write_scratch "tmp" (generator 3 0) ∅) "tmp" in
   let run := final_g6 generator worker 3 "out" 1 2 "tmp" ∅ in
   (∀ k g6,
      text_lines (read_file run.1 "out") !! k = Some g6 →
      ∃ structure,
        text_lines scratch !! k = Some structure ∧ worker structure = Ok g6) ∧
   (run.2 = Ok "out" → (1 ≤ 1)%Z →
    length (text_lines (read_file run.1 "out")) = length (text_lines scratch)) ∧
   ((1 ≤ 1)%Z → (1 ≤ 2)%Z →
    Forall (λ s, succeeds (worker s)) (generator 3 0) → run.2 = Ok "out")).
Proof.
  intros generator worker.
  assert ("tmp" ≠ "out") as H1 by done.
  assert (Forall structure_line (generator 3 0)) as H2.
  { vm_compute. repeat (apply Forall_cons; split); try apply Forall_nil; by split. }
  assert (Forall (encodes_to_line worker) (generator 3 0)) as H3.
  { replace (generator 3 0) with ["J(U(a,a),a)"; "J(a,a,a)"]
      by (vm_compute; reflexivity).
    repeat (apply Forall_cons; split); try apply Forall_nil;
      vm_compute; reflexivity. }
  split_and!; [exact H1|exact H2|exact H3|].
  exact (streaming_output_order generator worker 3 "out" 1 2 "tmp" ∅ H1 H2 H3).
Defined.

Lemma scratch_removed_on_success_witness :
  let run :=
    final_g6 generate_connected_cotree_structures
      _structure_to_g6_optimized_worker 3 "out" 1 2 "tmp" {["kept" := "data"]} in
  succeeds run.2 ∧
  run.2 = Ok "out" ∧
  run.1 !! "tmp" = None ∧
  ∀ path, path ≠ "tmp" → path ≠ "out" →
          run.1 !! path = ({["kept" := "data"]} : gmap string string) !! path.
Proof.
  intros run.
  assert (succeeds run.2) as H by (vm_compute; exact I).
  split; [exact H|].
  exact (scratch_removed_on_success generate_connected_cotree_structures
           _structure_to_g6_optimized_worker 3 "out" 1 2 "tmp"
           {["kept" := "data"]} H).
Defined.



(** ** The pipeline on the composer's structures and the encoder *)

Lemma string_forall_app P s r :
  string_forall P (s +:+ r) = string_forall P s && string_forall P r.
Proof.
  induction s as [|c s IH]; [done|]. rewrite app_cons. simpl.
  by rewrite IH, andb_assoc.
Qed.

Lemma serialize_no_space t :
  string_forall (λ c, negb (is_space c)) (serialize t) = true.
Proof.
  induction t as [|op children IH] using cotree_rect_forall; [done|].
  rewrite serialize_node. cbn [string_forall].
  rewrite string_forall_app.
  assert (string_forall (λ c, negb (is_space c))
            (join_comma (map serialize children)) = true) as ->.
  { induction IH as [|c children Hc Hall IHc]; [done|].
    destruct children as [|c' children]; [done|].
    rewrite map_cons, join_comma_cons, !string_forall_app, Hc, IHc by done.
    done. }
  by destruct op.
Qed.

Lemma serialize_structure_line t : structure_line (serialize t).
Proof.
  split; [|apply serialize_no_space].
  destruct t; [done|]. by rewrite serialize_node.
Qed.

(** The structures of the full enumeration are texts of cotrees too. *)
Lemma every_structure_shape n depth s :
  s ∈ generate_every_cotree_structure n depth →
  ∃ t, s = serialize t ∧ leaves t = n ∧ branching 2 t.
Proof.
  unfold generate_every_cotree_structure, generate_connected_cotree_structures.
  rewrite elem_of_app. intros [Hs|Hs].
  { apply generate_all_cotree_structures_shape in Hs as (t & ? & ? & ? & _).
    by exists t. }
  rewrite flat_map_bind, list_elem_of_bind in Hs. destruct Hs as (p & Hs & Hp).
  rewrite map_fmap, list_elem_of_fmap in Hs. destruct Hs as (comb & -> & Hcomb).
  rewrite map_fmap in Hcomb.
  rewrite (fmap_ext_elem _ (λ part_size, compose_fuel n part_size depth)) in Hcomb.
  2:{ intros x Hx. symmetry. apply compose_fuel_stable.
      pose proof (partitions_part_lt n p x Hp Hx). lia. }
  apply (combination_trees n depth p comb) in Hcomb as (ts & -> & <- & Hts).
  apply partitions_sound in Hp as (Hsum & _ & Hlen).
  exists (Node UNION ts). split_and!; [done|done|].
  apply branching_node. split; [by rewrite length_fmap in Hlen|done].
Qed.

(** The disconnected family is reduced as well: a [UNION] root over
    connected components, each a leaf or rooted at [JOIN]. *)
Lemma every_structure_reduced n s :
  s ∈ generate_every_cotree_structure n 0 →
  ∃ t, s = serialize t ∧ reduced t.
Proof.
  unfold generate_every_cotree_structure, generate_connected_cotree_structures.
  rewrite elem_of_app. intros [Hs|Hs].
  { apply generate_all_cotree_structures_shape in Hs as (t & ? & _ & _ & Halt).
    exists t. split; [done|]. by eapply alternates_reduced. }
  rewrite flat_map_bind, list_elem_of_bind in Hs. destruct Hs as (p & Hs & _).
  rewrite map_fmap, list_elem_of_fmap in Hs. destruct Hs as (comb & -> & Hcomb).
  apply ordered_product_elem in Hcomb. rewrite map_fmap, Forall2_fmap_r in Hcomb.
  assert (∃ ts, comb = serialize <$> ts ∧ Forall (alternates 0) ts)
    as (ts & -> & Hts).
  { induction Hcomb as [|c part comb p Hc _ (ts & -> & Hts)]; [by exists []|].
    simpl in Hc.
    apply generate_all_cotree_structures_shape in Hc as (t & -> & _ & _ & Halt).
    exists (t :: ts). split; [done|by constructor]. }
  exists (Node UNION ts). split; [done|]. apply reduced_node.
  eapply Forall_impl; [exact Hts|]. intros c Hc. split.
  - destruct c as [|op cs]; [done|].
    apply alternates_node in Hc as [-> _]. done.
  - by eapply alternates_reduced.
Qed.

Lemma selected_structure_shape connected_only n s :
  s ∈ select_generator connected_only n 0 →
  ∃ t, s = serialize t ∧ leaves t = n ∧ branching 1 t.
Proof.
  intros Hs.
  assert (∃ t, s = serialize t ∧ leaves t = n ∧ branching 2 t)
    as (t & ? & ? & Hb).
  { destruct connected_only; unfold select_generator in Hs.
    - apply generate_all_cotree_structures_shape in Hs as (t & ? & ? & ? & _).
      by exists t.
    - by apply (every_structure_shape n 0). }
  exists t. split_and!; [done|done|].
  eapply branching_weaken; [|exact Hb]. lia.
Qed.

Lemma worker_serialize t :
  branching 1 t →
  _structure_to_g6_optimized_worker (serialize t) =
  if 62 <? leaves t then Raise (EncodingRangeError (leaves t))
  else Ok (graph6_reference (leaves t) (adjacent (graph_of t))).
Proof.
  intros Hb. unfold _structure_to_g6_optimized_worker.
  rewrite parse_structure_serialize by done. simpl.
  rewrite order_graph_of. destruct (62 <? leaves t); [done|].
  by rewrite graph6_line_reference.
Qed.

Lemma bit_at_bound bits m : bit_at bits m ≤ 1.
Proof. unfold bit_at. destruct (bits !! m) as [[]|]; lia. Qed.

Lemma group_value_bound bits k : group_value bits k ≤ 63.
Proof.
  unfold group_value.
  pose proof (bit_at_bound bits (6 * k)).
  pose proof (bit_at_bound bits (6 * k + 1)).
  pose proof (bit_at_bound bits (6 * k + 2)).
  pose proof (bit_at_bound bits (6 * k + 3)).
  pose proof (bit_at_bound bits (6 * k + 4)).
  pose proof (bit_at_bound bits (6 * k + 5)). lia.
Qed.

Lemma chr_not_newline code : 63 ≤ code < 256 → chr code ≠ newline.
Proof.
  intros Hcode Heq. apply (f_equal nat_of_ascii) in Heq.
  unfold chr in Heq. rewrite nat_ascii_embedding in Heq by lia.
  vm_compute in Heq. lia.
Qed.

Lemma graph6_reference_single_line n x :
  n ≤ 62 → single_line (graph6_reference n x).
Proof.
  intros Hn. unfold graph6_reference. apply single_line_cons. split.
  { apply chr_not_newline. lia. }
  generalize (seq 0 ((n * (n - 1) / 2 + 5) / 6)) as ks.
  induction ks as [|k ks IH]; [done|].
  simpl. apply single_line_cons. split; [|exact IH].
  apply chr_not_newline. pose proof (group_value_bound (upper_triangle_bits n x) k).
  lia.
Qed.

(** The streaming pipeline of the module, with the composer and the
    encoder: output line [k] encodes the [k]-th structure, and up to 62
    leaves the run returns with one line per structure. *)
Theorem generate_cographs_final_g6_order (node_count : nat)
    (output_filename : string) (batch_size num_processes : Z)
    (connected_only : bool) (temp_filename : string) (fs : gmap string string) :
  temp_filename ≠ output_filename →
  let structures := select_generator connected_only node_count 0 in
  let run :=
    generate_cographs_final_g6 node_count output_filename batch_size
      num_processes connected_only temp_filename fs in
  (∀ k g6,
     text_lines (read_file run.1 output_filename) !! k = Some g6 →
     ∃ structure,
       structures !! k = Some structure ∧
       _structure_to_g6_optimized_worker structure = Ok g6) ∧
  ((1 ≤ batch_size)%Z → (1 ≤ num_processes)%Z → node_count ≤ 62 →
   run.2 = Ok output_filename ∧
   length (text_lines (read_file run.1 output_filename)) = length structures).
Proof.
  intros Hne structures run.
  assert (Forall structure_line structures) as Hlines.
  { apply Forall_forall. intros s (t & -> & _)%selected_structure_shape.
    apply serialize_structure_line. }
  assert (Forall (encodes_to_line _structure_to_g6_optimized_worker) structures)
    as Henc.
  { apply Forall_forall. intros s (t & -> & _ & Hb)%selected_structure_shape.
    unfold encodes_to_line. rewrite worker_serialize by done.
    destruct (62 <? leaves t) eqn:E; [done|].
    apply graph6_reference_single_line. by apply Nat.ltb_ge in E. }
  destruct (final_g6_output_lines (select_generator connected_only)
              _structure_to_g6_optimized_worker node_count output_filename
              batch_size num_processes temp_filename fs Hne Hlines Henc)
    as (gs & r & done & todo & Hout & Hsplit & Hdone & Hres & Hok & Hsucc).
  fold structures in Hsplit, Hsucc.
  change (final_g6 (select_generator connected_only)
            _structure_to_g6_optimized_worker node_count output_filename
            batch_size num_processes temp_filename fs) with run in Hout, Hres.
  rewrite Hout. split.
  - intros k g6 Hk.
    destruct (Forall2_lookup_r _ _ _ _ _ Hdone Hk) as (s & Hs & Hw).
    exists s. split; [|done]. rewrite Hsplit. by apply lookup_app_l_Some.
  - intros Hbs Hnp Hn.
    assert (r = Ok ()) as ->.
    { apply Hsucc; [done|done|].
      apply Forall_forall. intros s (t & -> & <- & Hb)%selected_structure_shape.
      rewrite worker_serialize by done.
      destruct (62 <? leaves t) eqn:E; [apply Nat.ltb_lt in E; lia|done]. }
    split; [exact Hres|].
    rewrite Hsplit, (Hok eq_refl Hbs), app_nil_r.
    symmetry. by eapply Forall2_length.
Qed.

(** ** In-memory mode *)

Section in_memory_properties.
Variable generator : nat → nat → list string.
Variable worker : string → result string.

(** Whatever the completion order, the collected results are the
    encodings of the pending structures, each once. *)
Lemma imap_unordered_permutation schedule :
  ∀ pending results,
    imap_unordered worker schedule pending = Ok results →
    ∃ encodings,
      Forall2 (λ s g, worker s = Ok g) pending encodings ∧
      results ≡ₚ encodings.
Proof.
  induction schedule as [|k schedule IH]; intros pending results; simpl.
  { intros H%map_result_Ok. by exists results. }
  destruct (pending !! (k mod length pending)) as [s|] eqn:Hs.
  2:{ intros [= <-]. exists []. split; [|done].
      destruct pending as [|x pending]; [constructor|].
      apply lookup_ge_None in Hs.
      pose proof (Nat.mod_upper_bound k (length (x :: pending))).
      simpl in *. lia. }
  destruct (worker s) as [g|e] eqn:Hw; [|done]. simpl.
  destruct (imap_unordered worker schedule
              (delete (k mod length pending) pending)) as [rs|e] eqn:Hrec;
    [|done].
  simpl. intros [= <-].
  apply IH in Hrec as (enc & Henc & Hperm).
  rewrite delete_take_drop in Henc.
  apply Forall2_app_inv_l in Henc as (e1 & e2 & H1 & H2 & ->).
  exists (e1 ++ g :: e2). split.
  - rewrite <- (take_drop_middle pending _ s Hs).
    apply Forall2_app; [done|]. by constructor.
  - rewrite Hperm. apply Permutation_middle.
Qed.


End in_memory_properties.


(** ** What a composer activation holds while it yields *)

Lemma fmap_bind_list {A B C} (f : B → C) (g : A → list B) (l : list A) :
  f <$> (l ≫= g) = l ≫= λ x, f <$> g x.
Proof.
  induction l as [|x l IH]; [done|]. by rewrite !bind_cons, fmap_app, IH.
Qed.

(** The frames are those of the activation: their yields are the
    function's output. *)
Lemma yield_frames_yielded n depth :
  n ≠ 1 →
  frame_yielded <$> yield_frames n depth = generate_all_cotree_structures n depth.
Proof.
  intros Hn. rewrite generate_all_cotree_structures_unfold.
  destruct (n =? 1) eqn:E; [by apply Nat.eqb_eq in E|].
  unfold yield_frames. rewrite flat_map_bind, fmap_bind_list.
  cbv zeta. apply bind_ext_elem. intros p _. cbv beta.
  destruct (length p =? 1); [done|].
  rewrite operator_text_at, <- list_fmap_compose. done.
Qed.

(** At every yield the activation holds, for each part of the current
    partition, the complete list of the structures of that size. *)
Lemma yield_frames_child_streams n depth f :
  f ∈ yield_frames n depth →
  frame_child_streams f =
  (λ part_size, generate_all_cotree_structures part_size (depth + 1))
    <$> frame_partition f.
Proof.
  unfold yield_frames. rewrite flat_map_bind, list_elem_of_bind.
  intros (p & Hf & _). destruct (length p =? 1); [by apply elem_of_nil in Hf|].
  rewrite map_fmap, list_elem_of_fmap in Hf. by destruct Hf as (comb & -> & _).
Qed.

(** C9 (the code departs from the claim): for four leaves, at its first
    yield the root activation holds both structures of the three-leaf
    child stream, the whole stream, although the combination being
    yielded uses only the first of them. *)
Theorem composer_holds_whole_child_streams :
  frame_yielded <$> yield_frames 4 0 = generate_all_cotree_structures 4 0 ∧
  ∃ f, yield_frames 4 0 !! 0 = Some f ∧
       frame_yielded f = "J(U(J(a,a),a),a)" ∧
       frame_combination f = ["U(J(a,a),a)"; "a"] ∧
       frame_child_streams f =
         [generate_all_cotree_structures 3 1; generate_all_cotree_structures 1 1] ∧
       generate_all_cotree_structures 3 1 = ["U(J(a,a),a)"; "U(a,a,a)"] ∧
       "U(a,a,a)" ∉ frame_combination f.
Proof.
  split; [by apply yield_frames_yielded|].
  eexists. split; [vm_compute; reflexivity|].
  split_and!; try (vm_compute; reflexivity).
  simpl. intros Hin. apply elem_of_cons in Hin as [Hin|Hin]; [done|].
  apply elem_of_cons in Hin as [Hin|Hin]; [done|]. by apply elem_of_nil in Hin.
Qed.

(** ** [parse_cotree] on canonical structure texts *)



Lemma substring_prefix s r : substring 0 (String.length s) (s +:+ r) = s.
Proof.
  induction s as [|c s IH]; [by destruct r|]. rewrite app_cons. simpl. by rewrite IH.
Qed.

Lemma slice_inside a b s :
  slice_2_minus1 (String a (String b (s +:+ ")"))) = s.
Proof.
  unfold slice_2_minus1. cbn [String.length substring].
  rewrite length_app_text. simpl String.length.
  replace (S (S (String.length s + 1)) - 1 - 2) with (String.length s) by lia.
  apply substring_prefix.
Qed.

Lemma split_loop_char ch rest result balance current :
  ch ≠ ","%char → ch ≠ "("%char → ch ≠ ")"%char →
  _split_args_loop (String ch rest) result balance current =
  _split_args_loop rest result balance (current +:+ String ch "").
Proof.
  intros H1 H2 H3. cbn [_split_args_loop].
  rewrite (bool_decide_eq_false_2 (ch = ","%char)) by done.
  rewrite (bool_decide_eq_false_2 (ch = "("%char)) by done.
  by rewrite (bool_decide_eq_false_2 (ch = ")"%char)) by done.
Qed.

Lemma split_loop_open rest result balance current :
  _split_args_loop (String "("%char rest) result balance current =
  _split_args_loop rest result (balance + 1) (current +:+ "(").
Proof. reflexivity. Qed.

Lemma split_loop_close rest result balance current :
  _split_args_loop (String ")"%char rest) result balance current =
  _split_args_loop rest result (balance - 1) (current +:+ ")").
Proof. reflexivity. Qed.

Lemma split_loop_comma_nested rest result balance current :
  balance ≠ 0%Z →
  _split_args_loop (String ","%char rest) result balance current =
  _split_args_loop rest result balance (current +:+ ",").
Proof.
  intros Hb. cbn [_split_args_loop].
  rewrite (bool_decide_eq_false_2 (balance = 0%Z)) by done. reflexivity.
Qed.

Lemma split_loop_comma_top rest result current :
  _split_args_loop (String ","%char rest) result 0 current =
  _split_args_loop rest (result ++ [current]) 0 "".
Proof. reflexivity. Qed.

(** Inside parentheses the commas of a child list do not split. *)
Lemma split_loop_children children :
  Forall (λ t, ∀ rest result balance current,
            (0 ≤ balance)%Z →
            _split_args_loop (serialize t +:+ rest) result balance current =
            _split_args_loop rest result balance (current +:+ serialize t))
         children →
  ∀ rest result balance current,
    (0 < balance)%Z →
    _split_args_loop (join_comma (map serialize children) +:+ rest)
                     result balance current =
    _split_args_loop rest result balance
                     (current +:+ join_comma (map serialize children)).
Proof.
  induction 1 as [|c children Hc _ IH]; intros rest result balance current Hb.
  - simpl. by rewrite app_empty_l, app_empty_r.
  - destruct children as [|c' children].
    + simpl. apply Hc. lia.
    + rewrite map_cons, join_comma_cons, !app_assoc_text, Hc by (done || lia).
      rewrite app_cons, app_empty_l, split_loop_comma_nested by lia.
      rewrite IH by done. by rewrite !app_assoc_text.
Qed.

(** A whole structure text is taken as one piece of an argument. *)
Lemma split_loop_serialize t :
  branching 1 t →
  ∀ rest result balance current,
    (0 ≤ balance)%Z →
    _split_args_loop (serialize t +:+ rest) result balance current =
    _split_args_loop rest result balance (current +:+ serialize t).
Proof.
  induction t as [|op children IH] using cotree_rect_forall;
    intros Hb rest result balance current Hbal.
  - reflexivity.
  - apply branching_node in Hb as [_ Hall].
    rewrite serialize_node, !app_cons, app_assoc_text.
    rewrite split_loop_char by (by destruct op).
    rewrite split_loop_open, split_loop_children; [| |lia].
    + rewrite app_cons, app_empty_l, split_loop_close.
      replace (balance + 1 - 1)%Z with balance by lia.
      f_equal. rewrite !app_assoc_text. by destruct op.
    + rewrite Forall_forall in IH. rewrite Forall_forall in Hall.
      apply Forall_forall. intros c Hc. apply IH; auto.
Qed.

Lemma split_args_children children :
  Forall (branching 1) children → children ≠ [] →
  _split_args (join_comma (map serialize children)) = map serialize children.
Proof.
  intros Hall Hne. unfold _split_args.
  assert (∀ result,
            _split_args_loop (join_comma (map serialize children)) result 0 ""
            = result ++ map serialize children) as H; [|apply (H [])].
  induction Hall as [|c children Hc Hall IH]; [done|]. intros result.
  destruct children as [|c' children].
  - simpl. rewrite <- (app_empty_r (serialize c)) at 1.
    by rewrite split_loop_serialize.
  - rewrite map_cons, join_comma_cons, split_loop_serialize by done.
    rewrite app_cons, !app_empty_l, split_loop_comma_top.
    rewrite IH by done. by rewrite <- app_assoc.
Qed.

Lemma parse_leaf fuel parent st :
  _parse (S fuel) "a" parent st =
  Ok (1, {| node_id := node_id st + 1;
            edges := append_edge parent (node_id st) (edges st);
            labels := labels st;
            is_leaf := <[node_id st := true]> (is_leaf st) |}).
Proof. reflexivity. Qed.

Lemma parse_node fuel op children parent st :
  Forall (branching 1) children → children ≠ [] →
  _parse (S fuel) (serialize (Node op children)) parent st =
  match parse_children (_parse fuel) (node_id st) (map serialize children) []
          {| node_id := node_id st + 1; edges := edges st;
             labels := labels st; is_leaf := is_leaf st |} with
  | Raise e => Raise e
  | Ok (leaf_counts, st') =>
      Ok (sum_list leaf_counts,
          {| node_id := node_id st';
             edges := append_edge parent (node_id st) (edges st');
             labels :=
               <[node_id st := String (operator_char op) "" +:+ " (" +:+
                               pretty (sum_list leaf_counts) +:+ ")"]> (labels st');
             is_leaf := <[node_id st := false]> (is_leaf st') |})
  end.
Proof.
  intros Hall Hne. rewrite serialize_node. cbn [_parse].
  rewrite decide_False by (by destruct op).
  by rewrite slice_inside, split_args_children.
Qed.

Lemma join_comma_length (l : list string) :
  sum_list (String.length <$> l) ≤ String.length (join_comma l).
Proof.
  induction l as [|s l IH]; [done|]. destruct l as [|s' l].
  - simpl. lia.
  - rewrite join_comma_cons, !length_app_text by done. simpl in *. lia.
Qed.

Lemma nodes_le_length t : nodes t ≤ String.length (serialize t).
Proof.
  induction t as [|op children IH] using cotree_rect_forall; [done|].
  rewrite serialize_node. cbn [String.length nodes]. rewrite length_app_text.
  pose proof (join_comma_length (map serialize children)) as Hjoin.
  assert (sum_list (map nodes children)
          ≤ sum_list (String.length <$> map serialize children)); [|simpl; lia].
  clear Hjoin. induction IH as [|c children Hc _ IHc]; [done|].
  rewrite !map_cons. cbn [sum_list sum_list_with].
  apply Nat.add_le_mono; [exact Hc|exact IHc].
Qed.

Lemma leaf_count_empty : leaf_count ∅ = 0.
Proof. unfold leaf_count. by rewrite map_filter_empty, map_size_empty. Qed.

Lemma leaf_count_insert_true (m : gmap nat bool) i :
  m !! i = None → leaf_count (<[i := true]> m) = S (leaf_count m).
Proof.
  intros Hi. unfold leaf_count. rewrite map_filter_insert_True by done.
  apply map_size_insert_None, map_lookup_filter_None_2. by left.
Qed.

Lemma leaf_count_insert_false (m : gmap nat bool) i :
  m !! i = None → leaf_count (<[i := false]> m) = leaf_count m.
Proof.
  intros Hi. unfold leaf_count. rewrite map_filter_insert_False by done.
  by rewrite delete_id.
Qed.

Lemma forest_effect_nil parent st : forest_effect [] parent st st.
Proof.
  unfold forest_effect. simpl. split_and!.
  - lia.
  - exists []. split_and!; try done. by rewrite app_nil_r.
  - done.
  - intros id ?. lia.
  - lia.
Qed.

(** The effects of parsing two runs of siblings compose. *)
Lemma forest_effect_app ts1 ts2 parent st st1 st2 :
  forest_effect ts1 parent st st1 →
  forest_effect ts2 parent st1 st2 →
  forest_effect (ts1 ++ ts2) parent st st2.
Proof.
  unfold forest_effect. rewrite !fmap_app, !sum_list_with_app.
  set (c1 := sum_list (nodes <$> ts1)). set (c2 := sum_list (nodes <$> ts2)).
  intros (Hid1 & (E1 & He1 & Hall1 & Hp1 & Hroot1) & Hout1 & Hin1 & Hcnt1)
         (Hid2 & (E2 & He2 & Hall2 & Hp2 & Hroot2) & Hout2 & Hin2 & Hcnt2).
  rewrite Hid1 in *. split_and!.
  - lia.
  - exists (E1 ++ E2). split_and!.
    + by rewrite He2, He1, <- app_assoc.
    + apply Forall_app. split.
      * eapply Forall_impl; [exact Hall1|]. intros e ?. simpl in *. lia.
      * eapply Forall_impl; [exact Hall2|]. intros e ?. simpl in *. lia.
    + by rewrite fmap_app, Hp1, Hp2, seq_app.
    + intros Hne. apply elem_of_app. destruct ts1 as [|t ts1].
      * right. unfold c1 in *. simpl in *. rewrite Nat.add_0_r in Hroot2.
        by apply Hroot2.
      * left. by apply Hroot1.
  - intros id Hid. rewrite Hout2 by lia. apply Hout1. lia.
  - intros id Hid. destruct (decide (id < node_id st + c1)).
    + rewrite Hout2 by lia. apply Hin1. lia.
    + apply Hin2. lia.
  - lia.
Qed.

Lemma forest_effect_unassigned ts parent st st' :
  forest_effect ts parent st st' → unassigned_from st → unassigned_from st'.
Proof.
  intros (Hid & _ & Hout & _) Hfresh id Hge.
  rewrite Hout by lia. apply Hfresh. lia.
Qed.

Lemma parse_children_effect children :
  Forall parses_as_child children →
  ∀ fuel parent counts st,
    sum_list (nodes <$> children) ≤ fuel →
    parent < node_id st → unassigned_from st →
    ∃ st', parse_children (_parse fuel) parent (serialize <$> children) counts st
           = Ok (counts ++ (leaves <$> children), st') ∧
           forest_effect children parent st st'.
Proof.
  induction 1 as [|c children Hc _ IH]; intros fuel parent counts st Hfuel Hp Hfresh.
  - exists st. simpl. rewrite app_nil_r. split; [done|apply forest_effect_nil].
  - rewrite fmap_cons in Hfuel. simpl in Hfuel.
    destruct (Hc fuel parent st) as (st1 & Hrun1 & Heff1); [lia|done|done|].
    destruct (IH fuel parent (counts ++ [leaves c]) st1) as (st2 & Hrun2 & Heff2).
    + lia.
    + destruct Heff1 as (Hid & _). lia.
    + by eapply forest_effect_unassigned.
    + exists st2. split.
      * rewrite fmap_cons. cbn [parse_children]. rewrite Hrun1.
        fold (parse_children (_parse fuel) parent). rewrite Hrun2.
        by rewrite <- app_assoc.
      * by apply (forest_effect_app [c] children parent st st1 st2).
Qed.

Lemma sum_list_singleton n : sum_list [n] = n.
Proof. simpl. lia. Qed.

(** Every call of [_parse] on a structure text under a parent assigns
    the ids of its nodes and links them into the tree. *)
Lemma parse_serialize_child t : branching 1 t → parses_as_child t.
Proof.
  induction t as [|op children IH] using cotree_rect_forall;
    intros Hb fuel parent st Hfuel Hparent Hfresh.
  - destruct fuel as [|fuel]; [simpl in Hfuel; lia|].
    change (serialize Leaf) with "a". rewrite parse_leaf.
    eexists. split; [done|]. unfold forest_effect. cbn.
    split_and!.
    + lia.
    + exists [(parent, node_id st)]. split_and!; try done.
      * apply Forall_cons_2; [simpl; lia|apply Forall_nil_2].
      * intros _. left.
    + intros id Hid. rewrite lookup_insert_ne by lia. done.
    + intros id Hid. assert (id = node_id st) as -> by lia.
      rewrite lookup_insert_eq. by eexists.
    + rewrite leaf_count_insert_true by (apply Hfresh; lia). lia.
  - apply branching_node in Hb as [Hlen Hall].
    assert (children ≠ []) as Hne by (intros ->; simpl in Hlen; lia).
    destruct fuel as [|fuel]; [simpl in Hfuel; lia|].
    rewrite parse_node by done.
    set (st0 := {| node_id := node_id st + 1; edges := edges st;
                   labels := labels st; is_leaf := is_leaf st |}).
    assert (Forall parses_as_child children) as Hchildren.
    { rewrite Forall_forall in IH. rewrite Forall_forall in Hall.
      apply Forall_forall. intros c Hc. apply IH; auto. }
    destruct (parse_children_effect children Hchildren fuel (node_id st) [] st0)
      as (st1 & Hrun & Hid & (E & Hedges & HE & Hperm & Hroot) & Hout & Hin & Hcnt).
    { simpl in Hfuel. rewrite <- map_fmap. lia. }
    { simpl. lia. }
    { intros id Hge. apply Hfresh. simpl in Hge. lia. }
    rewrite map_fmap, Hrun. simpl app.
    eexists. split; [reflexivity|].
    simpl in Hid, Hedges, Hout, Hin, Hcnt, HE, Hperm.
    set (count := sum_list (nodes <$> children)) in *.
    unfold forest_effect. cbn [node_id edges is_leaf fmap list_fmap].
    rewrite !sum_list_singleton.
    change (nodes (Node op children)) with (S count).
    change (leaves (Node op children)) with (sum_list (leaves <$> children)).
    split_and!.
    + lia.
    + exists (E ++ [(parent, node_id st)]). split_and!.
      * cbn [append_edge]. by rewrite Hedges, <- app_assoc.
      * apply Forall_app. split.
        -- eapply Forall_impl; [exact HE|]. intros e ?. simpl in *. lia.
        -- apply Forall_cons_2; [simpl; lia|apply Forall_nil_2].
      * rewrite fmap_app, Hperm. simpl.
        rewrite <- Permutation_cons_append.
        by replace (node_id st + 1) with (S (node_id st)) by lia.
      * intros _. apply elem_of_app. right. left.
    + intros id Hrange. rewrite lookup_insert_ne by lia. apply Hout. lia.
    + intros id Hrange. destruct (decide (id = node_id st)) as [->|Hneq].
      * rewrite lookup_insert_eq. by eexists.
      * rewrite lookup_insert_ne by done. apply Hin. lia.
    + rewrite leaf_count_insert_false; [lia|].
      rewrite Hout by lia. apply Hfresh. lia.
Qed.


Lemma filter_child_none (es : list (nat * nat)) c :
  c ∉ es.*2 → filter (λ e : nat * nat, e.2 = c) es = [].
Proof.
  induction es as [|e es IH]; [done|].
  rewrite fmap_cons, not_elem_of_cons. intros [Hne Hnot].
  rewrite filter_cons_False by (simpl; congruence). by apply IH.
Qed.

Lemma filter_child_once (es : list (nat * nat)) c :
  NoDup es.*2 → c ∈ es.*2 →
  length (filter (λ e : nat * nat, e.2 = c) es) = 1.
Proof.
  induction es as [|e es IH]; [by intros _ ?%elem_of_nil|].
  rewrite fmap_cons, NoDup_cons. intros [Hnot Hnd] Hin.
  destruct (decide (e.2 = c)) as [Heq|Hneq].
  - rewrite filter_cons_True by done. simpl.
    rewrite filter_child_none; [done|]. by rewrite <- Heq.
  - rewrite filter_cons_False by done.
    apply elem_of_cons in Hin as [Hin|Hin]; [congruence|]. by apply IH.
Qed.

(** Edges that go from a smaller id to a larger one and enter every id
    above the root reach every id from the root. *)
Lemma edges_reach_all (es : list (nat * nat)) count :
  Forall (λ e : nat * nat, 1 ≤ e.1 ∧ e.1 < e.2) es →
  (∀ c, 2 ≤ c < 2 + count → c ∈ es.*2) →
  ∀ c, 1 ≤ c < 2 + count → rtc (child_of es) 1 c.
Proof.
  intros Hall Hchild c. induction c as [c IH] using lt_wf_ind. intros Hc.
  destruct (decide (c = 1)) as [->|Hne]; [apply rtc_refl|].
  assert (c ∈ es.*2) as Hin by (apply Hchild; lia).
  apply list_elem_of_fmap in Hin as ([p c'] & Heq & Hin). simpl in Heq. subst c'.
  rewrite Forall_forall in Hall. pose proof (Hall _ Hin) as Hp. simpl in Hp.
  apply rtc_r with p; [apply IH; lia|]. exact Hin.
Qed.

Lemma parse_cotree_leaf :
  parse_cotree "a" = Ok ([], ∅, <[1 := true]> ∅).
Proof. reflexivity. Qed.




(* ===================================================================== *)
(** * Part III: further properties of the code                            *)
(* ===================================================================== *)

(** ** [_split_args] on arbitrary text *)

Lemma join_comma_snoc_app (l : list string) a b :
  join_comma (l ++ [a +:+ b]) = join_comma (l ++ [a]) +:+ b.
Proof.
  induction l as [|x l IH]; [done|].
  rewrite <- !app_comm_cons, !join_comma_cons by (by destruct l).
  by rewrite IH, !app_assoc_text.
Qed.

Lemma join_comma_snoc_empty (l : list string) :
  l ≠ [] → join_comma (l ++ [""]) = join_comma l +:+ ",".
Proof.
  induction l as [|x l IH]; intros Hne; [done|].
  rewrite <- app_comm_cons, join_comma_cons by (by destruct l).
  destruct l as [|y l].
  - simpl. by rewrite app_empty_r.
  - rewrite IH by done. rewrite (join_comma_cons x (y :: l)) by done.
    by rewrite !app_assoc_text.
Qed.

(** Every character read goes into the current piece or is the comma
    that closes it: the pieces joined by commas, followed by what is
    still to read, are the text read so far and the rest. *)
Lemma split_loop_join s :
  ∀ result balance current,
    join_comma (_split_args_loop s result balance current) =
    join_comma (result ++ [current]) +:+ s.
Proof.
  induction s as [|ch s IH]; intros result balance current.
  - simpl. by rewrite app_empty_r.
  - cbn [_split_args_loop].
    destruct (bool_decide (ch = ","%char) && bool_decide (balance = 0%Z)) eqn:E.
    + apply andb_true_iff in E as [->%bool_decide_eq_true _].
      rewrite IH, join_comma_snoc_empty by (by destruct result).
      by rewrite app_assoc_text.
    + rewrite IH, join_comma_snoc_app. by rewrite app_assoc_text.
Qed.

Lemma split_loop_nonempty s :
  ∀ result balance current, _split_args_loop s result balance current ≠ [].
Proof.
  induction s as [|ch s IH]; intros result balance current.
  - simpl. by destruct result.
  - cbn [_split_args_loop].
    destruct (bool_decide (ch = ","%char) && bool_decide (balance = 0%Z));
      apply IH.
Qed.

(** X1: [_split_args] loses nothing: for every text, joining the pieces
    it returns with commas gives the text back, and it always returns at
    least one piece (the empty text gives the single empty piece). *)
Theorem split_args_join_round_trip (s : string) :
  join_comma (_split_args s) = s ∧ _split_args s ≠ [] ∧ _split_args "" = [""].
Proof.
  split_and!.
  - unfold _split_args. by rewrite split_loop_join.
  - apply split_loop_nonempty.
  - reflexivity.
Qed.

(** ** [parse_cotree] on arbitrary text *)

Lemma slice_any a b s y :
  slice_2_minus1 (String a (String b (s +:+ String y ""))) = s.
Proof.
  unfold slice_2_minus1. cbn [String.length substring].
  rewrite length_app_text. simpl String.length.
  replace (S (S (String.length s + 1)) - 1 - 2) with (String.length s) by lia.
  apply substring_prefix.
Qed.



(** One call of [_parse] on a text other than ["a"]. *)
Lemma parse_step fuel operator rest parent st :
  String operator rest ≠ "a" →
  _parse (S fuel) (String operator rest) parent st =
  match parse_children (_parse fuel) (node_id st)
          (_split_args (slice_2_minus1 (String operator rest))) []
          {| node_id := node_id st + 1; edges := edges st;
             labels := labels st; is_leaf := is_leaf st |} with
  | Raise e => Raise e
  | Ok (leaf_counts, st') =>
      Ok (sum_list leaf_counts,
          {| node_id := node_id st';
             edges := append_edge parent (node_id st) (edges st');
             labels :=
               <[node_id st := String operator "" +:+ " (" +:+
                               pretty (sum_list leaf_counts) +:+ ")"]> (labels st');
             is_leaf := <[node_id st := false]> (is_leaf st') |})
  end.
Proof. intros Hne. cbn [_parse]. by rewrite decide_False. Qed.

Lemma parse_empty fuel parent st : _parse (S fuel) "" parent st = Raise IndexError.
Proof. reflexivity. Qed.




(** X3: [parse_cotree] never looks at the second and the last character
    of a node's text: whatever stands in place of the parentheses, the
    result (return value or exception) is the same, so [J[a,a]] or
    [Jxa,ay] are read like [J(a,a)]. *)
Theorem parse_cotree_ignores_delimiters (operator x y x' y' : ascii)
    (inside : string) :
  parse_cotree (String operator (String x (inside +:+ String y ""))) =
  parse_cotree (String operator (String x' (inside +:+ String y' ""))).
Proof.
  unfold parse_cotree.
  assert (∀ a b, String.length (String operator (String a (inside +:+ String b "")))
                 = S (S (String.length inside + 1))) as Hlen.
  { intros a b. simpl. by rewrite length_app_text. }
  rewrite !Hlen, !parse_step by done. by rewrite !slice_any.
Qed.

(** The node that closes after its children were parsed. *)
Lemma node_effect op children parent st st1 label :
  parent < node_id st → unassigned_from st →
  forest_effect children (node_id st)
    {| node_id := node_id st + 1; edges := edges st;
       labels := labels st; is_leaf := is_leaf st |} st1 →
  forest_effect [Node op children] parent st
    {| node_id := node_id st1;
       edges := append_edge (Some parent) (node_id st) (edges st1);
       labels := <[node_id st := label]> (labels st1);
       is_leaf := <[node_id st := false]> (is_leaf st1) |}.
Proof.
  intros Hparent Hfresh
    (Hid & (E & Hedges & HE & Hperm & Hroot) & Hout & Hin & Hcnt).
  simpl in Hid, Hedges, Hout, Hin, Hcnt, HE, Hperm.
  set (count := sum_list (nodes <$> children)) in *.
  unfold forest_effect. cbn [node_id edges is_leaf fmap list_fmap].
  rewrite !sum_list_singleton.
  change (nodes (Node op children)) with (S count).
  change (leaves (Node op children)) with (sum_list (leaves <$> children)).
  split_and!.
  - lia.
  - exists (E ++ [(parent, node_id st)]). split_and!.
    + cbn [append_edge]. by rewrite Hedges, <- app_assoc.
    + apply Forall_app. split.
      * eapply Forall_impl; [exact HE|]. intros e ?. simpl in *. lia.
      * apply Forall_cons_2; [simpl; lia|apply Forall_nil_2].
    + rewrite fmap_app, Hperm. simpl.
      rewrite <- Permutation_cons_append.
      by replace (node_id st + 1) with (S (node_id st)) by lia.
    + intros _. apply elem_of_app. right. left.
  - intros id Hrange. rewrite lookup_insert_ne by lia. apply Hout. lia.
  - intros id Hrange. destruct (decide (id = node_id st)) as [->|Hneq].
    + rewrite lookup_insert_eq. by eexists.
    + rewrite lookup_insert_ne by done. apply Hin. lia.
  - rewrite leaf_count_insert_false; [lia|].
    rewrite Hout by lia. apply Hfresh. lia.
Qed.

Lemma parse_children_accepted fuel current :
  accepted_as_child fuel →
  ∀ parts counts0 st counts st1,
    parse_children (_parse fuel) current parts counts0 st = Ok (counts, st1) →
    current < node_id st → unassigned_from st →
    ∃ ts, Forall (branching 1) ts ∧
          counts = counts0 ++ (leaves <$> ts) ∧
          length ts = length parts ∧
          forest_effect ts current st st1.
Proof.
  intros Hparse. induction parts as [|part parts IH];
    intros counts0 st counts st1 Hrun Hcur Hfresh.
  - injection Hrun as <- <-. exists []. split_and!; try done.
    + by rewrite app_nil_r.
    + apply forest_effect_nil.
  - cbn [parse_children] in Hrun.
    destruct (_parse fuel part (Some current) st) as [[k st0]|e] eqn:Hpart;
      [|done].
    destruct (Hparse _ _ _ _ _ Hpart Hcur Hfresh) as (t & Hb & -> & Heff).
    destruct (IH _ _ _ _ Hrun) as (ts & Hts & -> & Hlen & Heffs).
    { destruct Heff as (Hid & _). lia. }
    { by eapply forest_effect_unassigned. }
    exists (t :: ts). split_and!.
    + by constructor.
    + by rewrite <- app_assoc.
    + simpl. by rewrite Hlen.
    + by apply (forest_effect_app [t] ts current st st0 st1).
Qed.

Lemma parse_accepted_child fuel : accepted_as_child fuel.
Proof.
  induction fuel as [|fuel IH]; intros expr parent st k st' Hrun Hparent Hfresh;
    [done|].
  destruct (decide (expr = "a")) as [->|Hne].
  { destruct (parse_serialize_child Leaf I (S fuel) parent st)
      as (st'' & Hleaf & Heff); [simpl; lia|done|done|].
    change (serialize Leaf) with "a" in Hleaf. rewrite Hleaf in Hrun.
    injection Hrun as <- <-. by exists Leaf. }
  destruct expr as [|operator rest]; [done|].
  rewrite parse_step in Hrun by done.
  destruct (parse_children (_parse fuel) (node_id st)
              (_split_args (slice_2_minus1 (String operator rest))) []
              {| node_id := node_id st + 1; edges := edges st;
                 labels := labels st; is_leaf := is_leaf st |})
    as [[counts st1]|e] eqn:Hchildren; [|done].
  injection Hrun as <- <-.
  apply (parse_children_accepted fuel (node_id st) IH) in Hchildren
    as (ts & Hts & -> & Hlen & Heff).
  2:{ simpl. lia. }
  2:{ intros id Hge. apply Hfresh. simpl in Hge. lia. }
  exists (Node JOIN ts). split_and!.
  - apply branching_node. split; [|done]. rewrite Hlen.
    pose proof (split_loop_nonempty (slice_2_minus1 (String operator rest)) [] 0 "")
      as Hne'.
    fold (_split_args (slice_2_minus1 (String operator rest))) in Hne'.
    destruct (_split_args (slice_2_minus1 (String operator rest)));
      [done|simpl; lia].
  - done.
  - by apply node_effect.
Qed.

(** The edge list and the leaf marks left by a root whose children were
    parsed from a fresh state. *)
Lemma root_tree_of_forest ts st2 :
  ts ≠ [] →
  forest_effect ts 1
    {| node_id := 2; edges := []; labels := ∅; is_leaf := ∅ |} st2 →
  let count := sum_list (nodes <$> ts) in
  rooted_tree 1 (seq 1 (S count)) (edges st2) ∧
  (∀ id, is_Some (<[1 := false]> (is_leaf st2) !! id) ↔ id ∈ seq 1 (S count)) ∧
  length (edges st2) = count ∧
  (∀ id, id ∈ seq 1 (S count) → occurs_in (edges st2) id).
Proof.
  intros Hne (Hid & (E & Hedges & HE & Hperm & Hroot) & Hout & Hin & Hcnt) count.
  simpl in Hid, Hedges, HE, Hperm, Hroot, Hout, Hin, Hcnt. fold count in Hid, HE, Hperm, Hout, Hin.
  rewrite Hedges.
  assert (NoDup E.*2) as Hnd by (rewrite Hperm; apply NoDup_seq).
  assert (∀ c, c ∈ E.*2 ↔ 2 ≤ c < 2 + count) as Hsnd.
  { intros c. by rewrite Hperm, elem_of_seq. }
  split_and!.
  - unfold rooted_tree. split_and!.
    + apply elem_of_seq. lia.
    + intros p c Hpc. rewrite !elem_of_seq.
      rewrite Forall_forall in HE. specialize (HE _ Hpc). simpl in HE. lia.
    + rewrite Hsnd. lia.
    + intros c Hc Hc1. apply filter_child_once; [done|].
      apply elem_of_seq in Hc. apply Hsnd. lia.
    + intros c Hc. apply elem_of_seq in Hc.
      apply (edges_reach_all E count); [|intros; by apply Hsnd|lia].
      eapply Forall_impl; [exact HE|]. intros e ?. simpl in *. lia.
  - intros id. rewrite elem_of_seq, lookup_insert_is_Some. split.
    + intros [<-|[Hneq Hsome]]; [lia|].
      destruct (decide (2 ≤ id < 2 + count)); [lia|].
      rewrite Hout, lookup_empty in Hsome by lia. by destruct Hsome.
    + intros Hrange. destruct (decide (1 = id)); [by left|].
      right. split; [done|]. apply Hin. lia.
  - rewrite <- (length_fmap snd), Hperm. by rewrite length_seq.
  - intros id Hid'. apply elem_of_seq in Hid'.
    destruct (decide (id = 1)) as [->|Hneq].
    + exists (1, 2). split; [by apply Hroot|by left].
    + assert (id ∈ E.*2) as Hin' by (apply Hsnd; lia).
      apply list_elem_of_fmap in Hin' as (e & -> & He).
      exists e. split; [done|by right].
Qed.

Lemma parse_children_labels fuel current :
  (∀ expr parent st k st',
     _parse fuel expr parent st = Ok (k, st') →
     labels_match st → labels_match st' ∧ node_id st < node_id st') →
  ∀ parts counts0 st counts st1,
    parse_children (_parse fuel) current parts counts0 st = Ok (counts, st1) →
    labels_match st → labels_match st1 ∧ node_id st ≤ node_id st1.
Proof.
  intros Hparse. induction parts as [|part parts IH];
    intros counts0 st counts st1 Hrun Hst.
  - injection Hrun as <- <-. by split.
  - cbn [parse_children] in Hrun.
    destruct (_parse fuel part (Some current) st) as [[k st0]|e] eqn:Hpart;
      [|done].
    destruct (Hparse _ _ _ _ _ Hpart Hst) as [Hst0 Hlt].
    destruct (IH _ _ _ _ Hrun Hst0) as [Hst1 Hle]. split; [done|lia].
Qed.

(** A call of [_parse] labels the internal nodes it creates and nothing
    else. *)
Lemma parse_labels fuel :
  ∀ expr parent st k st',
    _parse fuel expr parent st = Ok (k, st') →
    labels_match st → labels_match st' ∧ node_id st < node_id st'.
Proof.
  induction fuel as [|fuel IH]; intros expr parent st k st' Hrun [Hiff Hfresh];
    [done|].
  destruct (decide (expr = "a")) as [->|Hne].
  { rewrite parse_leaf in Hrun. injection Hrun as <- <-. simpl.
    split; [|lia]. split; simpl.
    - intros id. destruct (decide (id = node_id st)) as [->|Hid].
      + rewrite lookup_insert_eq, Hfresh by lia. split; [by intros [? ?]|done].
      + rewrite lookup_insert_ne by done. apply Hiff.
    - intros id Hid. apply Hfresh. lia. }
  destruct expr as [|operator rest]; [done|].
  rewrite parse_step in Hrun by done.
  destruct (parse_children (_parse fuel) (node_id st)
              (_split_args (slice_2_minus1 (String operator rest))) []
              {| node_id := node_id st + 1; edges := edges st;
                 labels := labels st; is_leaf := is_leaf st |})
    as [[counts st1]|e] eqn:Hchildren; [|done].
  injection Hrun as <- <-.
  apply (parse_children_labels fuel (node_id st) IH) in Hchildren
    as [[Hiff1 Hfresh1] Hle].
  2:{ split; simpl; [exact Hiff|]. intros id Hid. apply Hfresh. lia. }
  simpl in Hle. simpl. split; [|lia]. split; simpl.
  - intros id. destruct (decide (id = node_id st)) as [->|Hid].
    + rewrite !lookup_insert_eq. split; [done|by eexists].
    + rewrite !lookup_insert_ne by done. apply Hiff1.
  - intros id Hid. rewrite lookup_insert_ne by lia. apply Hfresh1. lia.
Qed.

(** The shape of whatever [parse_cotree] returns. *)
Lemma parse_cotree_accepted (serialized : string)
    (es : list (nat * nat)) (ls : gmap nat string) (leafs : gmap nat bool) :
  parse_cotree serialized = Ok (es, ls, leafs) →
  rooted_tree 1 (seq 1 (S (length es))) es ∧
  (∀ id, is_Some (leafs !! id) ↔ id ∈ seq 1 (S (length es))) ∧
  (∀ id, is_Some (ls !! id) ↔ leafs !! id = Some false).
Proof.
  unfold parse_cotree.
  set (st0 := {| node_id := 1; edges := []; labels := ∅; is_leaf := ∅ |}).
  destruct (_parse (S (String.length serialized)) serialized None st0)
    as [[k st']|e] eqn:Hrun; [|done].
  simpl. intros [= <- <- <-].
  assert (labels_match st0) as Hst0.
  { split; simpl; [|done]. intros id. rewrite !lookup_empty.
    split; [by intros [? ?]|done]. }
  destruct (parse_labels _ _ _ _ _ _ Hrun Hst0) as [[Hlabels _] _].
  destruct (decide (serialized = "a")) as [->|Hne].
  { rewrite parse_leaf in Hrun. injection Hrun as <- <-. simpl in *.
    split_and!; try done.
    - unfold rooted_tree. simpl. split_and!.
      + left.
      + by intros p c ?%elem_of_nil.
      + by intros ?%elem_of_nil.
      + intros c ->%list_elem_of_singleton. done.
      + intros c ->%list_elem_of_singleton. apply rtc_refl.
    - intros id. simpl. rewrite list_elem_of_singleton, lookup_insert_is_Some.
      rewrite lookup_empty. split; [intros [?|[_ [? ?]]]; done|intros ->; by left]. }
  destruct serialized as [|operator rest]; [done|].
  rewrite parse_step in Hrun by done.
  destruct (parse_children (_parse (String.length (String operator rest)))
              (node_id st0)
              (_split_args (slice_2_minus1 (String operator rest))) []
              {| node_id := node_id st0 + 1; edges := edges st0;
                 labels := labels st0; is_leaf := is_leaf st0 |})
    as [[counts st1]|e] eqn:Hchildren; [|done].
  injection Hrun as <- <-.
  apply (parse_children_accepted _ _ (parse_accepted_child _)) in Hchildren
    as (ts & Hts & -> & Hlen & Heff).
  2:{ simpl. lia. }
  2:{ intros id _. apply lookup_empty. }
  assert (ts ≠ []) as Hne'.
  { pose proof (split_loop_nonempty (slice_2_minus1 (String operator rest)) [] 0 "")
      as Hparts.
    fold (_split_args (slice_2_minus1 (String operator rest))) in Hparts.
    intros ->. destruct (_split_args (slice_2_minus1 (String operator rest)));
      done. }
  destruct (root_tree_of_forest ts st1 Hne' Heff) as (Htree & Hdom & Hcount & _).
  simpl. rewrite Hcount. split_and!; done.
Qed.

(** X4: whatever text [parse_cotree] accepts, what it returns is a
    tree: the ids [1 .. count + 1] are assigned, the [count] edges make
    a tree rooted at id 1 on them (each other id the child of exactly
    one edge, all reached from 1), and a label is recorded exactly for
    the ids marked as internal ([is_leaf] false). *)
Theorem parse_cotree_accepted_tree (serialized : string)
    (es : list (nat * nat)) (ls : gmap nat string) (leafs : gmap nat bool) :
  parse_cotree serialized = Ok (es, ls, leafs) →
  ∃ count,
    rooted_tree 1 (seq 1 (S count)) es ∧
    (∀ id, is_Some (leafs !! id) ↔ id ∈ seq 1 (S count)) ∧
    length es = count ∧
    (∀ id, is_Some (ls !! id) ↔ leafs !! id = Some false).
Proof.
  intros (Htree & Hdom & Hlabels)%parse_cotree_accepted.
  by exists (length es).
Qed.

Lemma parse_cotree_accepted_tree_witness :
  parse_cotree "J(U(a,a),a)" =
    Ok ([(2, 3); (2, 4); (1, 2); (1, 5)],
        <[1 := "J (3)"]> (<[2 := "U (2)"]> ∅),
        <[1 := false]> (<[5 := true]> (<[2 := false]>
          (<[4 := true]> (<[3 := true]> ∅))))) ∧
  ∃ count,
    rooted_tree 1 (seq 1 (S count)) [(2, 3); (2, 4); (1, 2); (1, 5)] ∧
    (∀ id, is_Some ((<[1 := false]> (<[5 := true]> (<[2 := false]>
             (<[4 := true]> (<[3 := true]> ∅)))) : gmap nat bool) !! id)
           ↔ id ∈ seq 1 (S count)) ∧
    length [(2, 3); (2, 4); (1, 2); (1, 5)] = count ∧
    (∀ id, is_Some ((<[1 := "J (3)"]> (<[2 := "U (2)"]> ∅) : gmap nat string) !! id)
           ↔ (<[1 := false]> (<[5 := true]> (<[2 := false]>
                (<[4 := true]> (<[3 := true]> ∅)))) : gmap nat bool) !! id
             = Some false).
Proof.
  assert (parse_cotree "J(U(a,a),a)" =
            Ok ([(2, 3); (2, 4); (1, 2); (1, 5)],
                <[1 := "J (3)"]> (<[2 := "U (2)"]> ∅),
                <[1 := false]> (<[5 := true]> (<[2 := false]>
                  (<[4 := true]> (<[3 := true]> ∅)))))) as H
    by (vm_compute; reflexivity).
  split; [exact H|].
  exact (parse_cotree_accepted_tree _ _ _ _ H).
Defined.

(** ** The two pipelines as wholes *)

Section pipeline_further.
Variable generator : nat → nat → list string.
Variable worker : string → result string.

Lemma map_result_all_succeed {A B} (f : A → result B) (l : list A) ys :
  map_result f l = Ok ys → Forall (λ x, succeeds (f x)) l.
Proof.
  rewrite map_result_Ok. induction 1 as [|x y l ys Hx _ IH]; constructor; [|done].
  by rewrite Hx.
Qed.

(** The state phase 2 starts from keeps every file but the scratch and
    the output. *)
Lemma final_g6_unfold node_count out bs np temp (fs : gmap string string) :
  final_g6 generator worker node_count out bs np temp fs =
  match convert_batches worker
          (S (String.length
                (read_file (<[out := ""]>
                   (<[temp := lines_text (generator node_count 0)]> fs)) temp)))
          temp out bs np 0
          (<[out := ""]> (<[temp := lines_text (generator node_count 0)]> fs))
  with
  | (fs', Raise e) => (fs', Raise e)
  | (fs', Ok _) => (delete temp fs', Ok out)
  end.
Proof. unfold final_g6, convert_scratch. by rewrite write_scratch_eq. Qed.

(** X5: a run of the file pipeline with at least one line per batch and
    one process, on structures the worker all encodes, returns the
    output name and leaves exactly: the output file holding the
    encodings in generator order, one per line, no scratch file, every
    other file as it was.  The batch size and the process count have no
    influence on the result, and what the output file held before is
    gone. *)
Theorem final_g6_whole_run (node_count : nat) (output_filename : string)
    (batch_size num_processes : Z) (temp_filename : string)
    (fs : gmap string string) (encodings : list string) :
  temp_filename ≠ output_filename →
  Forall structure_line (generator node_count 0) →
  (1 ≤ batch_size)%Z → (1 ≤ num_processes)%Z →
  map_result worker (generator node_count 0) = Ok encodings →
  final_g6 generator worker node_count output_filename batch_size
           num_processes temp_filename fs =
  (<[output_filename := lines_text encodings]> (delete temp_filename fs),
   Ok output_filename).
Proof.
  intros Hne Hlines Hbs Hnp Henc.
  destruct (convert_scratch_outcome worker temp_filename output_filename
              batch_size num_processes (generator node_count 0) fs Hne Hlines)
    as (gs & r & done & todo & Hrun & Hsplit & Hdone & Hok & Hsucc).
  assert (r = Ok ()) as ->.
  { apply Hsucc; [done..|]. by eapply map_result_all_succeed. }
  rewrite (Hok eq_refl Hbs), app_nil_r in Hsplit. subst done.
  apply map_result_Ok in Hdone. rewrite Henc in Hdone. injection Hdone as <-.
  unfold final_g6. rewrite Hrun.
  by rewrite delete_insert_ne, delete_insert_eq by done.
Qed.

(** X6: a batch size of zero or less reads no line at all: the run
    calls no worker, creates no pool, and returns the output name with
    an empty output file, the scratch file removed, whatever the
    generator produced. *)
Theorem final_g6_nonpositive_batch_size (node_count : nat)
    (output_filename : string) (batch_size num_processes : Z)
    (temp_filename : string) (fs : gmap string string) :
  temp_filename ≠ output_filename →
  (batch_size ≤ 0)%Z →
  final_g6 generator worker node_count output_filename batch_size
           num_processes temp_filename fs =
  (<[output_filename := ""]> (delete temp_filename fs), Ok output_filename).
Proof.
  intros Hne Hbs. rewrite final_g6_unfold. cbn [convert_batches].
  replace (Z.to_nat batch_size) with 0 by lia. cbn [read_lines].
  cbv zeta. cbn [map]. rewrite filter_nil.
  by rewrite delete_insert_ne, delete_insert_eq by done.
Qed.

(** X7: with a process count below one and at least one line per
    batch, the file pipeline raises [ValueError] as soon as the
    generator produced a structure: the output file has been truncated
    to nothing and the scratch file stays on disk.  When the generator
    produced nothing no pool is created and the run returns. *)
Theorem final_g6_without_processes (node_count : nat)
    (output_filename : string) (batch_size num_processes : Z)
    (temp_filename : string) (fs : gmap string string) :
  temp_filename ≠ output_filename →
  Forall structure_line (generator node_count 0) →
  (1 ≤ batch_size)%Z → (num_processes < 1)%Z →
  final_g6 generator worker node_count output_filename batch_size
           num_processes temp_filename fs =
  match generator node_count 0 with
  | [] => (<[output_filename := ""]> (delete temp_filename fs),
           Ok output_filename)
  | structures =>
      (<[output_filename := ""]>
         (<[temp_filename := lines_text structures]> fs),
       Raise ValueError)
  end.
Proof.
  intros Hne Hlines Hbs Hnp. rewrite final_g6_unfold.
  set (fs2 := <[output_filename := ""]>
                (<[temp_filename := lines_text (generator node_count 0)]> fs)).
  rewrite (convert_batches_step worker _ temp_filename output_filename
             batch_size num_processes [] (generator node_count 0) [] fs2);
    try done.
  - unfold fs2. destruct (generator node_count 0) as [|s rest].
    { rewrite take_nil.
      by rewrite delete_insert_ne, delete_insert_eq by done. }
    destruct (Z.to_nat batch_size) as [|size] eqn:Hsize; [lia|].
    rewrite firstn_cons. unfold pool_map.
    destruct (num_processes <? 1)%Z eqn:Hlt; [done|lia].
  - unfold fs2. rewrite lookup_insert_ne by done. by rewrite lookup_insert_eq.
  - unfold fs2. by rewrite lookup_insert_eq.
Qed.

(** X8: a run of the file pipeline that raises, for whatever reason,
    leaves the scratch file on disk holding every structure, one per
    line, and has changed no file other than the scratch and the
    output. *)
Theorem final_g6_failure_keeps_scratch (node_count : nat)
    (output_filename : string) (batch_size num_processes : Z)
    (temp_filename : string) (fs : gmap string string) (e : exn) :
  temp_filename ≠ output_filename →
  let run :=
    final_g6 generator worker node_count output_filename batch_size
             num_processes temp_filename fs in
  run.2 = Raise e →
  run.1 !! temp_filename = Some (lines_text (generator node_count 0)) ∧
  ∀ path, path ≠ temp_filename → path ≠ output_filename →
          run.1 !! path = fs !! path.
Proof.
  intros Hne run. unfold run. rewrite final_g6_unfold.
  set (fs2 := <[output_filename := ""]>
                (<[temp_filename := lines_text (generator node_count 0)]> fs)).
  set (fuel := S (String.length (read_file fs2 temp_filename))).
  pose proof (convert_batches_frame worker fuel temp_filename output_filename
                batch_size num_processes 0 fs2) as Hframe.
  destruct (convert_batches worker fuel temp_filename output_filename
              batch_size num_processes 0 fs2) as [fs3 [[]|e']]; [done|].
  simpl in *. intros _. split.
  - rewrite Hframe by done. unfold fs2.
    rewrite lookup_insert_ne by done. by rewrite lookup_insert_eq.
  - intros path Htemp Hout. rewrite Hframe by done. unfold fs2.
    by rewrite !lookup_insert_ne by done.
Qed.

Lemma imap_unordered_all_succeed schedule :
  ∀ pending,
    Forall (λ s, succeeds (worker s)) pending →
    succeeds (imap_unordered worker schedule pending).
Proof.
  induction schedule as [|k schedule IH]; intros pending Hall; simpl.
  { by destruct (map_result_succeeds _ _ Hall) as [ys ->]. }
  destruct (pending !! (k mod length pending)) as [s|] eqn:Hs; [|done].
  assert (succeeds (worker s)) as Hw.
  { eapply (proj1 (Forall_forall (λ s, succeeds (worker s)) pending));
      [exact Hall|]. by eapply list_elem_of_lookup_2. }
  destruct (worker s) as [g|e]; [|done]. simpl.
  specialize (IH (delete (k mod length pending) pending)).
  destruct (imap_unordered worker schedule
              (delete (k mod length pending) pending)); simpl; [done|].
  apply IH. rewrite delete_take_drop. apply Forall_app. split.
  - by apply Forall_take.
  - by apply Forall_drop.
Qed.

(** X9: whether the in-memory pipeline returns does not depend on the
    completion order: it returns a list exactly when the process count
    is at least one and the worker encodes every structure.  So a
    single structure the worker rejects makes every run raise: the
    results collected before the failure are never returned. *)
Theorem in_memory_g6_returns_iff (node_count : nat) (num_processes : Z)
    (schedule : list nat) :
  succeeds (in_memory_g6 generator worker node_count num_processes schedule) ↔
  (1 ≤ num_processes)%Z ∧
  Forall (λ s, succeeds (worker s)) (generator node_count 0).
Proof.
  unfold in_memory_g6. destruct (num_processes <? 1)%Z eqn:Hnp.
  { split; [done|]. intros [? _]. lia. }
  split.
  - intros Hrun. split; [lia|].
    destruct (imap_unordered worker schedule (generator node_count 0))
      as [results|e] eqn:Hresults; [|done].
    apply imap_unordered_permutation in Hresults as (enc & Henc & _).
    apply map_result_Ok in Henc. by eapply map_result_all_succeed.
  - intros [_ Hall]. by apply imap_unordered_all_succeed.
Qed.

(** X10: the two pipelines agree: when the file pipeline returns (with
    at least one line per batch) and the in-memory pipeline returns,
    under whatever completion order and process counts, the lines of
    the output file are a rearrangement of the list returned in
    memory. *)
Theorem file_and_memory_pipelines_agree (node_count : nat)
    (output_filename : string) (batch_size num_processes processes : Z)
    (temp_filename : string) (fs : gmap string string)
    (schedule : list nat) (results : list string) :
  temp_filename ≠ output_filename →
  Forall structure_line (generator node_count 0) →
  Forall (encodes_to_line worker) (generator node_count 0) →
  (1 ≤ batch_size)%Z →
  let run :=
    final_g6 generator worker node_count output_filename batch_size
             num_processes temp_filename fs in
  run.2 = Ok output_filename →
  in_memory_g6 generator worker node_count processes schedule = Ok results →
  text_lines (read_file run.1 output_filename) ≡ₚ results.
Proof.
  intros Hne Hlines Henc Hbs run Hrun Hmem.
  destruct (final_g6_output_lines generator worker node_count output_filename
              batch_size num_processes temp_filename fs Hne Hlines Henc)
    as (gs & r & done & todo & Hout & Hsplit & Hdone & Hr & Hok & _).
  fold run in Hout, Hr. rewrite Hout.
  destruct r as [[]|e]; [|rewrite Hrun in Hr; done].
  rewrite (Hok eq_refl Hbs), app_nil_r in Hsplit. subst done.
  unfold in_memory_g6 in Hmem. destruct (processes <? 1)%Z; [done|].
  apply imap_unordered_permutation in Hmem as (enc & Hencs & Hperm).
  apply map_result_Ok in Hdone, Hencs. rewrite Hdone in Hencs.
  injection Hencs as <-. by symmetry.
Qed.
End pipeline_further.

Lemma final_g6_whole_run_witness :
  let generator := generate_connected_cotree_structures in
  let worker := _structure_to_g6_optimized_worker in
  let fs : gmap string string := <["out" := "old"]> (<["kept" := "data"]> ∅) in
  "tmp" ≠ "out" ∧
  Forall structure_line (generator 3 0) ∧
  (1 ≤ 1)%Z ∧ (1 ≤ 2)%Z ∧
  map_result worker (generator 3 0) = Ok ["BW"; "Bw"] ∧
  final_g6 generator worker 3 "out" 1 2 "tmp" fs =
  (<["out" := lines_text ["BW"; "Bw"]]> (delete "tmp" fs), Ok "out").
Proof.
  intros generator worker fs.
  assert ("tmp" ≠ "out") as H1 by done.
  assert (Forall structure_line (generator 3 0)) as H2.
  { vm_compute. repeat (apply Forall_cons; split); try apply Forall_nil; by split. }
  assert ((1 ≤ 1)%Z) as H3 by lia.
  assert ((1 ≤ 2)%Z) as H4 by lia.
  assert (map_result worker (generator 3 0) = Ok ["BW"; "Bw"]) as H5
    by (vm_compute; reflexivity).
  split_and!; [exact H1|exact H2|exact H3|exact H4|exact H5|].
  exact (final_g6_whole_run generator worker 3 "out" 1 2 "tmp" fs _
           H1 H2 H3 H4 H5).
Defined.

Lemma final_g6_nonpositive_batch_size_witness :
  let generator := generate_connected_cotree_structures in
  let worker := _structure_to_g6_optimized_worker in
  "tmp" ≠ "out" ∧ (0 ≤ 0)%Z ∧
  final_g6 generator worker 3 "out" 0 2 "tmp" ∅ =
  (<["out" := ""]> (delete "tmp" ∅), Ok "out").
Proof.
  intros generator worker.
  assert ("tmp" ≠ "out") as H1 by done.
  assert ((0 ≤ 0)%Z) as H2 by lia.
  split_and!; [exact H1|exact H2|].
  exact (final_g6_nonpositive_batch_size generator worker 3 "out" 0 2 "tmp" ∅
           H1 H2).
Defined.

Lemma final_g6_without_processes_witness :
  let generator := generate_connected_cotree_structures in
  let worker := _structure_to_g6_optimized_worker in
  "tmp" ≠ "out" ∧
  Forall structure_line (generator 3 0) ∧
  (1 ≤ 5)%Z ∧ (0 < 1)%Z ∧
  final_g6 generator worker 3 "out" 5 0 "tmp" ∅ =
  match generator 3 0 with
  | [] => (<["out" := ""]> (delete "tmp" ∅), Ok "out")
  | structures =>
      (<["out" := ""]> (<["tmp" := lines_text structures]> ∅), Raise ValueError)
  end.
Proof.
  intros generator worker.
  assert ("tmp" ≠ "out") as H1 by done.
  assert (Forall structure_line (generator 3 0)) as H2.
  { vm_compute. repeat (apply Forall_cons; split); try apply Forall_nil; by split. }
  assert ((1 ≤ 5)%Z) as H3 by lia.
  assert ((0 < 1)%Z) as H4 by lia.
  split_and!; [exact H1|exact H2|exact H3|exact H4|].
  exact (final_g6_without_processes generator worker 3 "out" 5 0 "tmp" ∅
           H1 H2 H3 H4).
Defined.

Lemma final_g6_failure_keeps_scratch_witness :
  let generator := λ _ _ : nat, ["J(a,a)"; "J(a,b)"] in
  let worker := _structure_to_g6_optimized_worker in
  let fs : gmap string string := <["kept" := "data"]> ∅ in
  let run := final_g6 generator worker 2 "out" 1 2 "tmp" fs in
  "tmp" ≠ "out" ∧
  run.2 = Raise (StructureParseError "b)") ∧
  run.1 !! "tmp" = Some (lines_text (generator 2 0)) ∧
  ∀ path, path ≠ "tmp" → path ≠ "out" → run.1 !! path = fs !! path.
Proof.
  intros generator worker fs run.
  assert ("tmp" ≠ "out") as H1 by done.
  assert (run.2 = Raise (StructureParseError "b)")) as H2
    by (vm_compute; reflexivity).
  split_and!; [exact H1|exact H2|..];
    apply (final_g6_failure_keeps_scratch generator worker 2 "out" 1 2 "tmp" fs
             _ H1 H2).
Defined.

Lemma file_and_memory_pipelines_agree_witness :
  let generator := generate_connected_cotree_structures in
  let worker := _structure_to_g6_optimized_worker in
  let run := final_g6 generator worker 3 "out" 1 2 "tmp" ∅ in
  "tmp" ≠ "out" ∧
  Forall structure_line (generator 3 0) ∧
  Forall (encodes_to_line worker) (generator 3 0) ∧
  (1 ≤ 1)%Z ∧
  run.2 = Ok "out" ∧
  in_memory_g6 generator worker 3 4 [1] = Ok ["Bw"; "BW"] ∧
  text_lines (read_file run.1 "out") ≡ₚ ["Bw"; "BW"].
Proof.
  intros generator worker run.
  assert ("tmp" ≠ "out") as H1 by done.
  assert (Forall structure_line (generator 3 0)) as H2.
  { vm_compute. repeat (apply Forall_cons; split); try apply Forall_nil; by split. }
  assert (Forall (encodes_to_line worker) (generator 3 0)) as H3.
  { replace (generator 3 0) with ["J(U(a,a),a)"; "J(a,a,a)"]
      by (vm_compute; reflexivity).
    repeat (apply Forall_cons; split); try apply Forall_nil;
      vm_compute; reflexivity. }
  assert ((1 ≤ 1)%Z) as H4 by lia.
  assert (run.2 = Ok "out") as H5 by (vm_compute; reflexivity).
  assert (in_memory_g6 generator worker 3 4 [1] = Ok ["Bw"; "BW"]) as H6
    by (vm_compute; reflexivity).
  split_and!; [exact H1|exact H2|exact H3|exact H4|exact H5|exact H6|].
  exact (file_and_memory_pipelines_agree generator worker 3 "out" 1 2 4 "tmp" ∅
           [1] _ H1 H2 H3 H4 H5 H6).
Defined.

(** ** The composer and the recursion depth *)

Lemma compose_fuel_parity fuel :
  ∀ n depth depth',
    depth mod 2 = depth' mod 2 →
    compose_fuel fuel n depth = compose_fuel fuel n depth'.
Proof.
  induction fuel as [|fuel IH]; intros n depth depth' Hparity; [done|].
  rewrite !compose_fuel_succ. unfold operator_at. rewrite Hparity.
  destruct (n =? 1); [done|].
  apply list_bind_ext; [|done]. intros partition.
  destruct (length partition =? 1); [done|].
  do 2 f_equal. apply list_fmap_ext. intros _ part_size _. apply IH.
  by rewrite <- (Nat.Div0.add_mod_idemp_l depth),
             <- (Nat.Div0.add_mod_idemp_l depth'), Hparity.
Qed.

(** X11: the composer looks at its [depth] argument through its parity
    only: two depths of the same parity give the same structures in the
    same order. *)
Theorem composer_depth_parity (node_count depth depth' : nat) :
  depth mod 2 = depth' mod 2 →
  generate_all_cotree_structures node_count depth =
  generate_all_cotree_structures node_count depth'.
Proof. apply compose_fuel_parity. Qed.

Lemma composer_depth_parity_witness :
  3 mod 2 = 7 mod 2 ∧
  generate_all_cotree_structures 4 3 = generate_all_cotree_structures 4 7.
Proof.
  assert (3 mod 2 = 7 mod 2) as H by reflexivity.
  split; [exact H|]. exact (composer_depth_parity 4 3 7 H).
Defined.

Lemma swap_operators_app s r :
  swap_operators (s +:+ r) = swap_operators s +:+ swap_operators r.
Proof.
  induction s as [|c s IH]; [done|].
  rewrite app_cons. cbn [swap_operators]. by rewrite IH, app_cons.
Qed.

Lemma swap_operators_involutive s : swap_operators (swap_operators s) = s.
Proof.
  induction s as [|c s IH]; [done|]. cbn [swap_operators]. rewrite IH.
  f_equal. repeat case_decide; congruence.
Qed.

Lemma swap_operators_join children :
  swap_operators (join_comma children) = join_comma (swap_operators <$> children).
Proof.
  induction children as [|c children IH]; [done|].
  destruct children as [|c' children]; [done|].
  rewrite fmap_cons, (join_comma_cons c), (join_comma_cons (swap_operators c))
    by done.
  rewrite !swap_operators_app. by rewrite IH.
Qed.

Lemma swap_operators_apply depth combination :
  swap_operators
    (_apply_cograph_operator_structure (operator_text (operator_at depth))
       combination) =
  _apply_cograph_operator_structure (operator_text (operator_at (depth + 1)))
    (swap_operators <$> combination).
Proof.
  unfold _apply_cograph_operator_structure.
  rewrite !swap_operators_app, swap_operators_join. f_equal.
  unfold operator_at.
  rewrite <- (Nat.Div0.add_mod_idemp_l depth).
  pose proof (Nat.mod_upper_bound depth 2) as Hlt.
  destruct (depth mod 2) as [|[|k]]; [done|done|lia].
Qed.

Lemma combinations_fmap {A B} (f : A → B) m (pool : list A) :
  combinations_with_replacement m (f <$> pool) =
  fmap (M:=list) f <$> combinations_with_replacement m pool.
Proof.
  revert pool. induction m as [|m IH]; intros pool; [done|].
  induction pool as [|x pool IHpool]; [done|].
  rewrite fmap_cons.
  change (combinations_with_replacement (S m) (f x :: (f <$> pool))) with
    (map (cons (f x)) (combinations_with_replacement m (f x :: (f <$> pool))) ++
     combinations_with_replacement (S m) (f <$> pool)).
  change (combinations_with_replacement (S m) (x :: pool)) with
    (map (cons x) (combinations_with_replacement m (x :: pool)) ++
     combinations_with_replacement (S m) pool).
  rewrite IHpool, <- fmap_cons, IH, fmap_app, !map_fmap, <- !list_fmap_compose.
  done.
Qed.

Lemma group_runs_fmap {A B} `{EqDecision A} `{EqDecision B} (f : A → B)
    `{!Inj (=) (=) f} (streams : list A) :
  group_runs (f <$> streams) = prod_map f id <$> group_runs streams.
Proof.
  induction streams as [|s streams IH]; [done|].
  rewrite fmap_cons. cbn [group_runs]. rewrite IH.
  destruct (group_runs streams) as [|[s' m] groups]; [done|].
  rewrite fmap_cons. cbn [prod_map fst snd id].
  destruct (decide (s = s')) as [->|Hne].
  - by rewrite decide_True.
  - rewrite decide_False; [done|]. intros Heq. by apply Hne, (inj f).
Qed.

Lemma product_concat_fmap {A B} (f : A → B) (choices : list (list (list A))) :
  product_concat (fmap (M:=list) (fmap (M:=list) f) <$> choices) = fmap (M:=list) f <$> product_concat choices.
Proof.
  induction choices as [|g choices IH]; [done|].
  rewrite fmap_cons. cbn [product_concat]. rewrite IH.
  induction g as [|c g IHg]; [done|].
  rewrite fmap_cons. cbn [flat_map]. rewrite IHg, fmap_app. f_equal.
  rewrite !map_fmap, <- !list_fmap_compose.
  apply list_fmap_ext. intros _ rest _. simpl. by rewrite fmap_app.
Qed.

Lemma ordered_product_fmap (f : string → string) `{!Inj (=) (=) f}
    (child_streams : list (list string)) :
  _generate_ordered_cartesian_product (fmap (M:=list) f <$> child_streams) =
  fmap (M:=list) f <$> _generate_ordered_cartesian_product child_streams.
Proof.
  unfold _generate_ordered_cartesian_product.
  rewrite (group_runs_fmap (fmap (M:=list) f)), !map_fmap, <- product_concat_fmap.
  f_equal. rewrite <- !list_fmap_compose. apply list_fmap_ext.
  intros _ [pool m] _. simpl. apply combinations_fmap.
Qed.

#[local] Instance swap_operators_inj : Inj (=) (=) swap_operators.
Proof.
  intros s r Heq.
  by rewrite <- (swap_operators_involutive s), Heq, swap_operators_involutive.
Qed.

Lemma fmap_list_bind {A B C} (f : B → C) (g : A → list B) (l : list A) :
  f <$> (l ≫= g) = l ≫= λ x, f <$> g x.
Proof.
  induction l as [|x l IH]; [done|]. by rewrite !bind_cons, fmap_app, IH.
Qed.

Lemma compose_fuel_swap fuel :
  ∀ n depth,
    compose_fuel fuel n (depth + 1) =
    swap_operators <$> compose_fuel fuel n depth.
Proof.
  induction fuel as [|fuel IH]; intros n depth; [done|].
  rewrite !compose_fuel_succ. destruct (n =? 1); [done|].
  rewrite fmap_list_bind. apply list_bind_ext; [|done]. intros partition.
  destruct (length partition =? 1); [done|].
  assert ((λ part_size, compose_fuel fuel part_size (depth + 1 + 1)) <$> partition
          = fmap (M:=list) swap_operators <$>
              ((λ part_size, compose_fuel fuel part_size (depth + 1)) <$> partition))
    as ->.
  { rewrite <- list_fmap_compose. apply list_fmap_ext. intros _ part_size _.
    apply IH. }
  rewrite (ordered_product_fmap swap_operators), <- !list_fmap_compose.
  apply list_fmap_ext. intros _ combination _. simpl.
  by rewrite swap_operators_apply.
Qed.

(** X12: one level deeper the composer emits the complements: the
    structures for [depth + 1] are those for [depth], in the same order,
    with [J] and [U] exchanged throughout.  (The partition, product and
    text helpers of [utils.py] are as the spec describes them.) *)
Theorem composer_next_depth_complements (node_count depth : nat) :
  generate_all_cotree_structures node_count (depth + 1) =
  swap_operators <$> generate_all_cotree_structures node_count depth.
Proof. apply compose_fuel_swap. Qed.

(** ** The edge list of an accepted text, exactly *)

Lemma on_children_cons {A} (f : cotree → nat → A) c children next :
  on_children f (c :: children) next =
  f c next :: on_children f children (next + nodes c).
Proof. reflexivity. Qed.

Lemma tree_edges_node op children above id :
  tree_edges (Node op children) above id =
  concat (on_children (λ c next, tree_edges c id next) children (id + 1))
  ++ [(above, id)].
Proof. reflexivity. Qed.

Lemma parse_children_exact fuel current :
  (∀ expr above st k st',
     _parse fuel expr (Some above) st = Ok (k, st') →
     ∃ t, branching 1 t ∧ node_id st' = node_id st + nodes t ∧
          edges st' = edges st ++ tree_edges t above (node_id st)) →
  ∀ parts counts0 st counts st1,
    parse_children (_parse fuel) current parts counts0 st = Ok (counts, st1) →
    ∃ ts, Forall (branching 1) ts ∧ length ts = length parts ∧
          node_id st1 = node_id st + sum_list (nodes <$> ts) ∧
          edges st1 =
            edges st ++
            concat (on_children (λ c next, tree_edges c current next) ts
                      (node_id st)).
Proof.
  intros Hparse. induction parts as [|part parts IH];
    intros counts0 st counts st1 Hrun.
  - injection Hrun as <- <-. exists []. split_and!; try done.
    simpl. by rewrite app_nil_r.
  - cbn [parse_children] in Hrun.
    destruct (_parse fuel part (Some current) st) as [[k st0]|e] eqn:Hpart;
      [|done].
    destruct (Hparse _ _ _ _ _ Hpart) as (t & Hb & Hid & Hedges).
    destruct (IH _ _ _ _ Hrun) as (ts & Hts & Hlen & Hids & Hedgess).
    exists (t :: ts). split_and!.
    + by constructor.
    + simpl. by rewrite Hlen.
    + rewrite fmap_cons. simpl. lia.
    + rewrite on_children_cons, concat_cons, Hedgess, Hedges, Hid.
      by rewrite <- app_assoc.
Qed.

Lemma split_args_length expr : 1 ≤ length (_split_args expr).
Proof.
  pose proof (split_loop_nonempty expr [] 0 "") as Hne.
  fold (_split_args expr) in Hne.
  destruct (_split_args expr); [done|simpl; lia].
Qed.

Lemma parse_exact fuel :
  ∀ expr above st k st',
    _parse fuel expr (Some above) st = Ok (k, st') →
    ∃ t, branching 1 t ∧ node_id st' = node_id st + nodes t ∧
         edges st' = edges st ++ tree_edges t above (node_id st).
Proof.
  induction fuel as [|fuel IH]; intros expr above st k st' Hrun; [done|].
  destruct (decide (expr = "a")) as [->|Hne].
  { rewrite parse_leaf in Hrun. injection Hrun as <- <-. by exists Leaf. }
  destruct expr as [|operator rest]; [done|].
  rewrite parse_step in Hrun by done.
  destruct (parse_children (_parse fuel) (node_id st)
              (_split_args (slice_2_minus1 (String operator rest))) []
              {| node_id := node_id st + 1; edges := edges st;
                 labels := labels st; is_leaf := is_leaf st |})
    as [[counts st1]|e] eqn:Hchildren; [|done].
  injection Hrun as <- <-.
  apply (parse_children_exact fuel (node_id st) IH) in Hchildren
    as (ts & Hts & Hlen & Hid & Hedges).
  simpl in Hid, Hedges.
  exists (Node JOIN ts). split_and!.
  - apply branching_node. split; [|done]. rewrite Hlen.
    apply split_args_length.
  - cbn [node_id].
    change (nodes (Node JOIN ts)) with (S (sum_list (nodes <$> ts))). lia.
  - cbn [edges append_edge]. rewrite Hedges, tree_edges_node.
    by rewrite <- app_assoc.
Qed.

(** The edge list [parse_cotree] returns is that of a cotree. *)
Lemma parse_cotree_edges serialized es ls leafs :
  parse_cotree serialized = Ok (es, ls, leafs) →
  ∃ t, branching 1 t ∧ es = root_edges t ∧ (serialized = "a" ↔ t = Leaf).
Proof.
  unfold parse_cotree.
  set (st0 := {| node_id := 1; edges := []; labels := ∅; is_leaf := ∅ |}).
  destruct (_parse (S (String.length serialized)) serialized None st0)
    as [[k st']|e] eqn:Hrun; [|done].
  simpl. intros [= <- <- <-].
  destruct (decide (serialized = "a")) as [->|Hne].
  { rewrite parse_leaf in Hrun. injection Hrun as <- <-. by exists Leaf. }
  destruct serialized as [|operator rest]; [done|].
  rewrite parse_step in Hrun by done.
  destruct (parse_children (_parse (String.length (String operator rest)))
              (node_id st0)
              (_split_args (slice_2_minus1 (String operator rest))) []
              {| node_id := node_id st0 + 1; edges := edges st0;
                 labels := labels st0; is_leaf := is_leaf st0 |})
    as [[counts st1]|e] eqn:Hchildren; [|done].
  injection Hrun as <- <-.
  apply (parse_children_exact _ _ (parse_exact _)) in Hchildren
    as (ts & Hts & Hlen & Hid & Hedges).
  simpl in Hid, Hedges.
  exists (Node JOIN ts). split_and!.
  - apply branching_node. split; [|done]. rewrite Hlen.
    apply split_args_length.
  - done.
  - done.
Qed.

(** ** The graph built from the edge list *)

Lemma lookup_add_neighbour_ne u v k (graph : gmap nat (list nat)) :
  k ≠ u → add_neighbour u v graph !! k = graph !! k.
Proof. intros Hk. unfold add_neighbour. cbv zeta. by rewrite lookup_insert_ne. Qed.

Lemma lookup_add_neighbour_new u v (graph : gmap nat (list nat)) :
  v ∉ default [] (graph !! u) →
  add_neighbour u v graph !! u = Some (default [] (graph !! u) ++ [v]).
Proof.
  intros Hv. unfold add_neighbour. cbv zeta. rewrite lookup_insert_eq.
  by rewrite decide_False.
Qed.

Lemma lookup_add_edge_ne u v k (graph : gmap nat (list nat)) :
  k ≠ u → k ≠ v → add_edge graph u v !! k = graph !! k.
Proof.
  intros Hu Hv. unfold add_edge. by rewrite !lookup_add_neighbour_ne.
Qed.

Lemma graph_below_mono (graph : gmap nat (list nat)) bound bound' :
  bound ≤ bound' → graph_below graph bound → graph_below graph bound'.
Proof.
  intros Hle Hg node adjacency Hnode. destruct (Hg _ _ Hnode) as [Hlt Hall].
  split; [lia|]. eapply Forall_impl; [exact Hall|]. intros v ?. simpl in *. lia.
Qed.

Lemma graph_below_fresh (graph : gmap nat (list nat)) bound k :
  graph_below graph bound → bound ≤ k → graph !! k = None.
Proof.
  intros Hg Hk. destruct (graph !! k) as [adjacency|] eqn:E; [|done].
  destruct (Hg _ _ E). lia.
Qed.

Lemma graph_below_default (graph : gmap nat (list nat)) bound k :
  graph_below graph bound → Forall (λ v, v < bound) (default [] (graph !! k)).
Proof.
  intros Hg. destruct (graph !! k) as [adjacency|] eqn:E; [|constructor].
  by destruct (Hg _ _ E).
Qed.

Lemma graph_below_add_neighbour u v (graph : gmap nat (list nat)) bound :
  graph_below graph bound → u < bound → v < bound →
  graph_below (add_neighbour u v graph) bound.
Proof.
  intros Hg Hu Hv node adjacency. unfold add_neighbour. cbv zeta.
  destruct (decide (node = u)) as [->|Hne].
  - rewrite lookup_insert_eq. intros [= <-]. split; [done|].
    pose proof (graph_below_default graph bound u Hg) as Hall.
    case_decide; [done|]. apply Forall_app. split; [done|].
    by apply Forall_singleton.
  - rewrite lookup_insert_ne by done. apply Hg.
Qed.

Lemma add_edges_app es es' (graph : gmap nat (list nat)) :
  add_edges (es ++ es') graph = add_edges es' (add_edges es graph).
Proof. apply fold_left_app. Qed.

Lemma not_elem_of_below (l : list nat) bound v :
  Forall (λ x, x < bound) l → bound ≤ v → v ∉ l.
Proof.
  intros Hall Hv Hin. rewrite Forall_forall in Hall.
  specialize (Hall _ Hin). simpl in Hall. lia.
Qed.

(** The edge into a new node [id], from [above]. *)
Lemma add_edge_new above id (graph : gmap nat (list nat)) :
  above < id → graph_below graph id →
  let graph' := add_edge graph above id in
  graph' !! above = Some (default [] (graph !! above) ++ [id]) ∧
  graph' !! id = Some [above] ∧
  (∀ k, k ≠ id → k ≠ above → graph' !! k = graph !! k) ∧
  graph_below graph' (id + 1).
Proof.
  intros Hlt Hg graph'. unfold graph', add_edge. split_and!.
  - rewrite lookup_add_neighbour_ne by lia.
    apply lookup_add_neighbour_new.
    eapply not_elem_of_below; [by apply graph_below_default|lia].
  - rewrite lookup_add_neighbour_new.
    + rewrite lookup_add_neighbour_ne by lia.
      by rewrite (graph_below_fresh graph id id).
    + rewrite lookup_add_neighbour_ne by lia.
      by rewrite (graph_below_fresh graph id id); [apply not_elem_of_nil|..].
  - intros k Hid Habove. by rewrite !lookup_add_neighbour_ne.
  - apply graph_below_add_neighbour; [|lia|lia].
    apply graph_below_add_neighbour; [|lia|lia].
    apply (graph_below_mono graph id); [lia|done].
Qed.

Lemma child_ids_cons c children next :
  child_ids (c :: children) next = next :: child_ids children (next + nodes c).
Proof. reflexivity. Qed.

Lemma child_ids_bounds children next :
  Forall (λ v, next ≤ v < next + sum_list (nodes <$> children))
         (child_ids children next).
Proof.
  revert next. induction children as [|c children IH]; intros next; [constructor|].
  rewrite child_ids_cons, fmap_cons. simpl.
  assert (1 ≤ nodes c) by (destruct c; simpl; lia).
  constructor; [lia|].
  eapply Forall_impl; [apply IH|]. intros v ?. simpl in *. lia.
Qed.

Lemma nodes_positive t : 1 ≤ nodes t.
Proof. destruct t; simpl; lia. Qed.

(** A subtree stays as it is when the graph changes elsewhere. *)
Lemma adjacency_of_frame t :
  ∀ above id (graph graph' : gmap nat (list nat)),
    (∀ k, id ≤ k < id + nodes t → graph' !! k = graph !! k) →
    adjacency_of graph t above id → adjacency_of graph' t above id.
Proof.
  induction t as [|op children IH] using cotree_rect_forall;
    intros above id graph graph' Hsame.
  { simpl. intros <-. apply Hsame. simpl. lia. }
  change (nodes (Node op children)) with (S (sum_list (nodes <$> children)))
    in Hsame.
  cbn [adjacency_of]. intros [Hid Hchildren]. split.
  { rewrite <- Hid. apply Hsame. lia. }
  assert (∀ k, id + 1 ≤ k < id + 1 + sum_list (nodes <$> children) →
               graph' !! k = graph !! k) as Hrange.
  { intros k Hk. apply Hsame. lia. }
  clear Hid Hsame. revert Hrange Hchildren. generalize (id + 1) as next.
  induction IH as [|c children Hc _ IHchildren]; intros next Hrange; [done|].
  rewrite !on_children_cons. unfold all_hold. rewrite !Forall_cons.
  rewrite fmap_cons in Hrange. simpl in Hrange.
  intros [Hfirst Hrest]. split.
  - eapply Hc; [|exact Hfirst]. intros k Hk. apply Hrange. lia.
  - apply IHchildren; [|exact Hrest]. intros k Hk. apply Hrange. lia.
Qed.

Lemma all_adjacency_frame children :
  ∀ above next (graph graph' : gmap nat (list nat)),
    (∀ k, next ≤ k → graph' !! k = graph !! k) →
    all_hold (on_children (λ c n, adjacency_of graph c above n) children next) →
    all_hold (on_children (λ c n, adjacency_of graph' c above n) children next).
Proof.
  induction children as [|c children IH]; intros above next graph graph' Hsame;
    [constructor|].
  rewrite !on_children_cons. unfold all_hold. rewrite !Forall_cons.
  intros [Hc Hcs]. split.
  - eapply adjacency_of_frame; [|exact Hc]. intros k Hk. apply Hsame. lia.
  - eapply IH; [|exact Hcs]. intros k Hk. apply Hsame. lia.
Qed.

Lemma add_edges_single above id (graph : gmap nat (list nat)) :
  add_edges [(above, id)] graph = add_edge graph above id.
Proof. reflexivity. Qed.

Lemma add_edges_forest children :
  Forall builds_subtree children →
  ∀ id next (graph : gmap nat (list nat)),
    id < next → graph_below graph next →
    let graph' :=
      add_edges (concat (on_children (λ c n, tree_edges c id n) children next))
        graph in
    all_hold (on_children (λ c n, adjacency_of graph' c [id] n) children next) ∧
    default [] (graph' !! id) =
      default [] (graph !! id) ++ child_ids children next ∧
    (∀ k, k < next → k ≠ id → graph' !! k = graph !! k) ∧
    graph_below graph' (next + sum_list (nodes <$> children)).
Proof.
  induction 1 as [|c children Hc _ IH]; intros id next graph Hlt Hg graph'.
  - unfold graph'. simpl. split_and!.
    + constructor.
    + by rewrite app_nil_r.
    + done.
    + by rewrite Nat.add_0_r.
  - assert (graph' =
              add_edges
                (concat (on_children (λ c n, tree_edges c id n) children
                           (next + nodes c)))
                (add_edges (tree_edges c id next) graph)) as Hgraph
      by apply add_edges_app.
    clearbody graph'. subst graph'.
    destruct (Hc id next graph Hlt Hg) as (Hadj & Hup & Hframe & Hbelow).
    set (g1 := add_edges (tree_edges c id next) graph) in *.
    pose proof (nodes_positive c) as Hpos.
    destruct (IH id (next + nodes c) g1) as (Hadjs & Hups & Hframes & Hbelows);
      [lia|done|].
    set (g2 := add_edges _ g1) in *.
    split_and!.
    + rewrite on_children_cons. apply Forall_cons. split; [|exact Hadjs].
      eapply adjacency_of_frame; [|exact Hadj].
      intros k Hk. apply Hframes; lia.
    + rewrite child_ids_cons, Hups, Hup. simpl. by rewrite <- app_assoc.
    + intros k Hk Hne. rewrite Hframes by lia. by apply Hframe.
    + rewrite fmap_cons. simpl. by rewrite Nat.add_assoc.
Qed.

Lemma builds_every_subtree t : builds_subtree t.
Proof.
  induction t as [|op children IH] using cotree_rect_forall;
    intros above id graph Hlt Hg graph'.
  - unfold graph'. change (tree_edges Leaf above id) with [(above, id)].
    rewrite add_edges_single.
    destruct (add_edge_new above id graph Hlt Hg) as (H1 & H2 & H3 & H4).
    split_and!; [exact H2|exact H1| |exact H4].
    intros k Hk Hne. apply H3; lia.
  - set (g1 := add_edges
                 (concat (on_children (λ c n, tree_edges c id n) children
                            (id + 1))) graph).
    assert (graph' = add_edge g1 above id) as Hgraph.
    { unfold graph', g1. by rewrite tree_edges_node, add_edges_app. }
    clearbody graph'. subst graph'.
    destruct (add_edges_forest children IH id (id + 1) graph)
      as (Hadj & Hid & Hframe & Hbelow);
      [lia|by apply (graph_below_mono graph id); [lia|]|].
    fold g1 in Hadj, Hid, Hframe, Hbelow.
    rewrite (graph_below_fresh graph id id) in Hid by done. simpl in Hid.
    pose proof (child_ids_bounds children (id + 1)) as Hbounds.
    assert (g1 !! above = graph !! above) as Habove by (apply Hframe; lia).
    change (nodes (Node op children)) with (S (sum_list (nodes <$> children))).
    assert (add_edge g1 above id !! id =
              Some (child_ids children (id + 1) ++ [above])) as Hlook.
    { unfold add_edge. rewrite lookup_add_neighbour_new.
      - rewrite lookup_add_neighbour_ne by lia. by rewrite Hid.
      - rewrite lookup_add_neighbour_ne by lia. rewrite Hid.
        intros Hin. rewrite Forall_forall in Hbounds.
        specialize (Hbounds _ Hin). simpl in Hbounds. lia. }
    split_and!.
    + split; [exact Hlook|].
      eapply all_adjacency_frame; [|exact Hadj].
      intros k Hk. apply lookup_add_edge_ne; lia.
    + unfold add_edge. rewrite lookup_add_neighbour_ne by lia.
      rewrite lookup_add_neighbour_new; rewrite Habove; [done|].
      eapply not_elem_of_below; [by apply graph_below_default|lia].
    + intros k Hk Hne. rewrite lookup_add_edge_ne by lia. apply Hframe; lia.
    + unfold add_edge.
      apply graph_below_add_neighbour; [|lia|lia].
      apply graph_below_add_neighbour; [|lia|lia].
      eapply graph_below_mono; [|exact Hbelow]. lia.
Qed.

(** The graph [render_cotree_jpg] builds from the edges of a cotree
    with a root that has children. *)
Lemma graph_of_root_edges op children :
  children ≠ [] →
  adjacency_of (graph_of_edges (root_edges (Node op children)))
    (Node op children) [] 1.
Proof.
  intros Hne. change (graph_of_edges (root_edges (Node op children))) with
    (add_edges (concat (on_children (λ c n, tree_edges c 1 n) children 2)) ∅).
  destruct (add_edges_forest children
              (proj2 (Forall_forall builds_subtree children)
                 (λ c _, builds_every_subtree c)) 1 2 ∅)
    as (Hadj & Hid & _ & _); [lia|by intros node adjacency ?|].
  set (g := add_edges _ ∅) in *.
  rewrite lookup_empty in Hid. simpl in Hid.
  cbn [adjacency_of]. rewrite app_nil_r. split; [|exact Hadj].
  destruct children as [|c children]; [done|].
  rewrite child_ids_cons in *.
  destruct (g !! 1) as [adjacency|]; simpl in Hid; [by rewrite Hid|done].
Qed.

(** ** The layout of a tree *)

Section layout_properties.
Variable graph : gmap nat (list nat).
Variables y_top level_gap : float.

Lemma tree_layout_node op children id depth x_left pos :
  tree_layout y_top level_gap (Node op children) id depth x_left pos =
  let run :=
    children_layout (λ c next, tree_layout y_top level_gap c next (depth + 1))
      x_left children (id + 1) 0.0%float pos in
  (run.1,
   <[id := ((x_left + run.1 / 2)%float,
            (y_top - to_float depth * level_gap)%float)]> run.2).
Proof.
  cbn [tree_layout].
  by destruct (children_layout _ x_left children (id + 1) 0.0%float pos).
Qed.

Lemma children_layout_cons layout x_left c children next total_width
    (pos : gmap nat (float * float)) :
  children_layout layout x_left (c :: children) next total_width pos =
  children_layout layout x_left children (next + nodes c)
    (total_width + (layout c next (x_left + total_width)%float pos).1)%float
    (layout c next (x_left + total_width)%float pos).2.
Proof.
  cbn [children_layout].
  by destruct (layout c next (x_left + total_width)%float pos).
Qed.

(** A subtree is laid out on its own ids. *)
Lemma tree_layout_frame t :
  ∀ id depth x_left (pos : gmap nat (float * float)) k,
    k < id ∨ id + nodes t ≤ k →
    (tree_layout y_top level_gap t id depth x_left pos).2 !! k = pos !! k.
Proof.
  induction t as [|op children IH] using cotree_rect_forall;
    intros id depth x_left pos k Hk.
  { simpl in *. rewrite lookup_insert_ne by lia. done. }
  rewrite tree_layout_node. cbv zeta. cbn [snd].
  change (nodes (Node op children)) with (S (sum_list (nodes <$> children)))
    in Hk.
  rewrite lookup_insert_ne by lia.
  assert (k < id + 1 ∨ id + 1 + sum_list (nodes <$> children) ≤ k) as Hrange
    by lia.
  clear Hk. revert pos Hrange. generalize (id + 1) as next.
  generalize 0.0%float as total_width.
  induction IH as [|c children Hc _ IHchildren];
    intros total_width next pos Hrange; [done|].
  rewrite children_layout_cons. rewrite fmap_cons in Hrange. simpl in Hrange.
  rewrite IHchildren by lia. apply Hc. lia.
Qed.

Lemma children_layout_frame children :
  ∀ x_left depth next total_width (pos : gmap nat (float * float)) k,
    k < next →
    (children_layout (λ c n, tree_layout y_top level_gap c n depth)
       x_left children next total_width pos).2 !! k = pos !! k.
Proof.
  induction children as [|c children IH];
    intros x_left depth next total_width pos k Hk; [done|].
  rewrite children_layout_cons. pose proof (nodes_positive c).
  rewrite IH by lia. apply tree_layout_frame. lia.
Qed.

(** The root of a subtree sits in the middle of the subtree's strip. *)
Lemma tree_layout_root t id depth x_left (pos : gmap nat (float * float)) :
  let run := tree_layout y_top level_gap t id depth x_left pos in
  run.2 !! id =
  Some ((x_left + run.1 / 2)%float, (y_top - to_float depth * level_gap)%float).
Proof.
  destruct t as [|op children].
  - simpl. by rewrite lookup_insert_eq.
  - rewrite tree_layout_node. cbv zeta. cbn [fst snd].
    by rewrite lookup_insert_eq.
Qed.

Lemma list_remove_last item (children : list nat) :
  item ∉ children → list_remove item (children ++ [item]) = Returns children.
Proof.
  induction children as [|child children IH]; intros Hnot.
  - simpl. by rewrite decide_True.
  - apply not_elem_of_cons in Hnot as [Hne Hnot]. simpl.
    rewrite decide_False by done. by rewrite IH.
Qed.

Lemma dfs_step fuel node depth x_left st neighbours children :
  graph !! node = Some neighbours →
  match parent st !! node with
  | Some above => list_remove above neighbours
  | None => Returns neighbours
  end = Returns children →
  _dfs graph y_top level_gap (S fuel) node depth x_left st =
  match children with
  | [] =>
      Returns (1.0%float,
               {| positions :=
                    <[node := ((x_left + 0.5)%float,
                               (y_top - to_float depth * level_gap)%float)]>
                      (positions st);
                  parent := parent st |})
  | _ =>
      match dfs_children (_dfs graph y_top level_gap fuel) node depth x_left
              children 0.0%float [] st with
      | Raises e => Raises e
      | Returns (total_width, child_positions, st) =>
          Returns (total_width,
                   {| positions :=
                        <[node := ((x_left + total_width / 2)%float,
                                   (y_top - to_float depth * level_gap)%float)]>
                          (place_children y_top level_gap depth x_left
                             child_positions (positions st));
                      parent := parent st |})
      end
  end.
Proof.
  intros Hnode Hchildren. cbn [_dfs]. unfold neighbors. rewrite Hnode.
  cbn [mbind outcome_bind]. rewrite Hchildren. reflexivity.
Qed.

(** The second loop of [_dfs] writes again what the nested calls
    wrote. *)
Lemma place_children_again depth x_left child_positions
    (pos : gmap nat (float * float)) :
  Forall (λ entry : nat * float * float,
            pos !! entry.1.1 =
            Some ((x_left + entry.1.2 + entry.2 / 2)%float,
                  (y_top - to_float (depth + 1) * level_gap)%float))
         child_positions →
  place_children y_top level_gap depth x_left child_positions pos = pos.
Proof.
  unfold place_children. induction 1 as [|[[child offset] w] rest Hc _ IH];
    [done|].
  simpl in *. by rewrite insert_id.
Qed.

Lemma dfs_children_cons dfs node depth x_left child children total_width
    child_positions st :
  dfs_children dfs node depth x_left (child :: children) total_width
    child_positions st =
  match dfs child (depth + 1) (x_left + total_width)%float
          {| positions := positions st;
             parent := <[child := node]> (parent st) |} with
  | Raises e => Raises e
  | Returns (w, st') =>
      dfs_children dfs node depth x_left children (total_width + w)%float
        (child_positions ++ [(child, total_width, w)]) st'
  end.
Proof. reflexivity. Qed.

Lemma dfs_children_forest fuel id depth x_left children :
  Forall (lays_out graph y_top level_gap) children →
  ∀ next total_width child_positions st,
    id < next →
    all_hold (on_children (λ c n, adjacency_of graph c [id] n) children next) →
    sum_list (nodes <$> children) ≤ fuel →
    Forall (branching 1) children →
    let run :=
      children_layout (λ c n, tree_layout y_top level_gap c n (depth + 1))
        x_left children next total_width (positions st) in
    ∃ parent' new_positions,
      dfs_children (_dfs graph y_top level_gap fuel) id depth x_left
        (child_ids children next) total_width child_positions st =
      Returns (run.1, child_positions ++ new_positions,
               {| positions := run.2; parent := parent' |}) ∧
      Forall (λ entry : nat * float * float,
                run.2 !! entry.1.1 =
                Some ((x_left + entry.1.2 + entry.2 / 2)%float,
                      (y_top - to_float (depth + 1) * level_gap)%float))
             new_positions.
Proof.
  induction 1 as [|c children Hc _ IH];
    intros next total_width child_positions st Hlt Hadj Hfuel Hb run.
  { exists (parent st), []. split; [|constructor].
    unfold run. simpl. rewrite app_nil_r. by destruct st. }
  rewrite on_children_cons in Hadj. apply Forall_cons in Hadj as [Hadjc Hadjs].
  rewrite fmap_cons in Hfuel. simpl in Hfuel.
  apply Forall_cons in Hb as [Hbc Hbs].
  rewrite child_ids_cons, dfs_children_cons.
  set (st0 := {| positions := positions st;
                 parent := <[next := id]> (parent st) |}).
  destruct (Hc fuel [id] next (depth + 1) (x_left + total_width)%float st0)
    as (parent1 & Hrun); [done|lia|done| |].
  { simpl. by rewrite lookup_insert_eq. }
  rewrite Hrun. change (positions st0) with (positions st).
  set (first := tree_layout y_top level_gap c next (depth + 1)
                  (x_left + total_width)%float (positions st)) in *.
  pose proof (nodes_positive c) as Hpos.
  destruct (IH (next + nodes c) (total_width + first.1)%float
              (child_positions ++ [(next, total_width, first.1)])
              {| positions := first.2; parent := parent1 |})
    as (parent2 & new_positions & Hloop & Hnew); [lia|done|lia|done|].
  cbn [positions] in Hloop, Hnew.
  assert (run =
            children_layout (λ c n, tree_layout y_top level_gap c n (depth + 1))
              x_left children (next + nodes c) (total_width + first.1)%float
              first.2) as Hrun_eq by apply children_layout_cons.
  exists parent2, ((next, total_width, first.1) :: new_positions).
  rewrite Hrun_eq. split.
  - rewrite Hloop. by rewrite <- app_assoc.
  - constructor; [|exact Hnew]. cbn [fst snd].
    rewrite children_layout_frame by lia. apply tree_layout_root.
Qed.

Lemma lays_out_every_tree t : lays_out graph y_top level_gap t.
Proof.
  induction t as [|op children IH] using cotree_rect_forall;
    intros fuel above id depth x_left st Hadj Hfuel Hb Habove.
  - destruct fuel as [|fuel]; [simpl in Hfuel; lia|].
    exists (parent st). simpl in Hadj.
    rewrite (dfs_step fuel id depth x_left st above []); [done|done|].
    destruct above as [|node [|? ?]]; [by rewrite Habove| |done].
    destruct Habove as [-> _]. simpl. by rewrite decide_True.
  - change (nodes (Node op children)) with (S (sum_list (nodes <$> children)))
      in Hfuel.
    destruct fuel as [|fuel]; [lia|].
    apply branching_node in Hb as [Hlen Hbs].
    cbn [adjacency_of] in Hadj. destruct Hadj as [Hid Hadjs].
    pose proof (child_ids_bounds children (id + 1)) as Hbounds.
    destruct (dfs_children_forest fuel id depth x_left children IH (id + 1)
                0.0%float [] st) as (parent' & new_positions & Hloop & Hnew);
      [lia|done|lia|done|].
    exists parent'.
    rewrite (dfs_step fuel id depth x_left st
               (child_ids children (id + 1) ++ above)
               (child_ids children (id + 1))); [|done|].
    + destruct children as [|c children]; [simpl in Hlen; lia|].
      rewrite child_ids_cons. rewrite child_ids_cons in Hloop.
      rewrite Hloop. cbn [positions parent]. rewrite app_nil_l.
      rewrite place_children_again by done.
      by rewrite tree_layout_node.
    + destruct above as [|node [|? ?]]; [|destruct Habove as [-> Hnode]|done].
      * rewrite Habove. by rewrite app_nil_r.
      * apply list_remove_last. intros Hin. rewrite Forall_forall in Hbounds.
        specialize (Hbounds _ Hin). simpl in Hbounds. lia.
Qed.
End layout_properties.

Lemma tree_layout_keys (y_top level_gap : float) t :
  ∀ id depth x_left (pos : gmap nat (float * float)) k,
    is_Some ((tree_layout y_top level_gap t id depth x_left pos).2 !! k) ↔
    is_Some (pos !! k) ∨ id ≤ k < id + nodes t.
Proof.
  induction t as [|op children IH] using cotree_rect_forall;
    intros id depth x_left pos k.
  { simpl. rewrite lookup_insert_is_Some. split.
    - intros [->|[_ ?]]; [right; lia|by left].
    - intros [?|?]; [|left; lia].
      destruct (decide (id = k)); [by left|by right]. }
  rewrite tree_layout_node. cbv zeta. cbn [snd].
  change (nodes (Node op children)) with (S (sum_list (nodes <$> children))).
  rewrite lookup_insert_is_Some.
  assert (∀ next total_width (pos : gmap nat (float * float)),
            is_Some ((children_layout
                        (λ c n, tree_layout y_top level_gap c n (depth + 1))
                        x_left children next total_width pos).2 !! k) ↔
            is_Some (pos !! k) ∨
            next ≤ k < next + sum_list (nodes <$> children)) as Hchildren.
  { clear pos. induction IH as [|c children Hc _ IHchildren];
      intros next total_width pos.
    { simpl. split; [by left|]. intros [?|?]; [done|lia]. }
    rewrite children_layout_cons, IHchildren, Hc, fmap_cons. simpl.
    pose proof (nodes_positive c). split.
    - intros [[?|?]|?]; [by left|right; lia|right; lia].
    - intros [?|?]; [by left; left|].
      destruct (decide (k < next + nodes c)); [left; right; lia|right; lia]. }
  rewrite Hchildren. split.
  - intros [->|[_ [?|?]]]; [right; lia|by left|right; lia].
  - intros [?|?].
    + destruct (decide (id = k)); [by left|right; split; [done|by left]].
    + destruct (decide (id = k)); [by left|right; split; [done|right; lia]].
Qed.

Lemma length_tree_edges t : ∀ above id, length (tree_edges t above id) = nodes t.
Proof.
  induction t as [|op children IH] using cotree_rect_forall; intros above id;
    [done|].
  rewrite tree_edges_node, length_app. simpl.
  rewrite map_fmap.
  assert (∀ next,
            length (concat (on_children (λ c n, tree_edges c id n) children next))
            = sum_list (nodes <$> children)) as ->; [|lia].
  induction IH as [|c children Hc _ IHchildren]; intros next; [done|].
  rewrite on_children_cons, concat_cons, length_app, Hc, IHchildren.
  by rewrite fmap_cons.
Qed.

Lemma length_root_edges t : S (length (root_edges t)) = nodes t.
Proof.
  destruct t as [|op children]; [done|].
  change (nodes (Node op children)) with (S (sum_list (nodes <$> children))).
  f_equal. unfold root_edges. generalize 2 as next.
  induction children as [|c children IH]; intros next; [done|].
  rewrite on_children_cons, concat_cons, length_app, length_tree_edges, IH.
  by rewrite fmap_cons.
Qed.

(** The layout of the graph of a cotree whose root has children. *)
Lemma hierarchy_layout_tree t recursion_limit x_center y_top level_gap :
  branching 1 t → t ≠ Leaf → nodes t ≤ recursion_limit →
  hierarchy_layout recursion_limit (graph_of_edges (root_edges t)) 1
    x_center y_top level_gap =
  Returns (tree_layout y_top level_gap t 1 0 0.0%float ∅).2.
Proof.
  intros Hb Hleaf Hlimit. destruct t as [|op children]; [done|].
  pose proof Hb as [Hlen _]%branching_node.
  assert (children ≠ []) as Hne by (intros ->; simpl in Hlen; lia).
  unfold hierarchy_layout.
  destruct (lays_out_every_tree
              (graph_of_edges (root_edges (Node op children))) y_top level_gap
              (Node op children) recursion_limit [] 1 0 0.0%float
              {| positions := ∅; parent := ∅ |})
    as (parent' & ->); try done.
  by apply graph_of_root_edges.
Qed.

(** The graph of a text that is one leaf has no node at all. *)
Lemma hierarchy_layout_missing_root recursion_limit
    (graph : gmap nat (list nat)) root x_center y_top level_gap :
  graph !! root = None →
  hierarchy_layout recursion_limit graph root x_center y_top level_gap =
  Raises (match recursion_limit with
          | 0 => RecursionError
          | S _ => NetworkXError root
          end).
Proof.
  intros Hroot. unfold hierarchy_layout.
  destruct recursion_limit as [|limit]; [done|].
  cbn [_dfs]. unfold neighbors. by rewrite Hroot.
Qed.

(** X13: on the graph [render_cotree_jpg] builds from the edges of a
    cotree whose root has children, [hierarchy_layout] returns (the
    recursion limit allowing as many nested calls as the tree has
    nodes), and what it returns is the recursive layout [tree_layout]:
    every node [1 .. nodes] has a position and no other key has; a leaf
    sits in the middle of a strip one unit wide, an internal node in the
    middle of the strips of its children, each node at height
    [y_top - depth * level_gap].  The second loop of [_dfs] changes
    nothing, and [x_center] has no influence. *)
Theorem hierarchy_layout_of_cotree (t : cotree) (recursion_limit : nat)
    (x_center y_top level_gap : float) :
  branching 1 t → t ≠ Leaf → nodes t ≤ recursion_limit →
  let pos := (tree_layout y_top level_gap t 1 0 0.0%float ∅).2 in
  hierarchy_layout recursion_limit (graph_of_edges (root_edges t)) 1
    x_center y_top level_gap = Returns pos ∧
  (∀ id, is_Some (pos !! id) ↔ 1 ≤ id ≤ nodes t) ∧
  pos !! 1 =
    Some ((0.0 + (tree_layout y_top level_gap t 1 0 0.0%float ∅).1 / 2)%float,
          (y_top - to_float 0 * level_gap)%float).
Proof.
  intros Hb Hleaf Hlimit pos. split_and!.
  - by apply hierarchy_layout_tree.
  - intros id. unfold pos. rewrite tree_layout_keys, lookup_empty.
    split; [intros [[? ?]|?]; [done|lia]|intros ?; right; lia].
  - apply tree_layout_root.
Qed.

Lemma hierarchy_layout_of_cotree_witness :
  let t := Node JOIN [Node UNION [Leaf; Leaf]; Leaf] in
  branching 1 t ∧ t ≠ Leaf ∧ nodes t ≤ 1000 ∧
  hierarchy_layout 1000 (graph_of_edges (root_edges t)) 1
    0.5%float 1.0%float 0x1.999999999999ap-4%float =
  Returns (<[1 := (1.5%float, 1.0%float)]>
             (<[5 := (2.5%float, 0x1.ccccccccccccdp-1%float)]>
                (<[2 := (1.0%float, 0x1.ccccccccccccdp-1%float)]>
                   (<[4 := (1.5%float, 0x1.999999999999ap-1%float)]>
                      (<[3 := (0.5%float, 0x1.999999999999ap-1%float)]> ∅))))).
Proof.
  intros t.
  assert (branching 1 t) as H1 by (simpl; repeat split; lia).
  assert (t ≠ Leaf) as H2 by done.
  assert (nodes t ≤ 1000) as H3 by (simpl; lia).
  split_and!; [exact H1|exact H2|exact H3|].
  exact (proj1 (hierarchy_layout_of_cotree t 1000 0.5%float 1.0%float
                  0x1.999999999999ap-4%float H1 H2 H3)).
Defined.

(** ** Rendering *)

Lemma add_neighbour_within (P : nat → Prop) u v (graph : gmap nat (list nat)) :
  (∀ node adjacency, graph !! node = Some adjacency → P node ∧ Forall P adjacency) →
  P u → P v →
  ∀ node adjacency,
    add_neighbour u v graph !! node = Some adjacency →
    P node ∧ Forall P adjacency.
Proof.
  intros Hg Hu Hv node adjacency. unfold add_neighbour. cbv zeta.
  destruct (decide (node = u)) as [->|Hne].
  - rewrite lookup_insert_eq. intros [= <-]. split; [done|].
    assert (Forall P (default [] (graph !! u))) as Hall.
    { destruct (graph !! u) as [l|] eqn:E; [|constructor]. by destruct (Hg _ _ E). }
    case_decide; [done|]. apply Forall_app. split; [done|].
    by apply Forall_singleton.
  - rewrite lookup_insert_ne by done. apply Hg.
Qed.

(** The nodes of the graph are the ends of the edges. *)
Lemma add_edges_within (P : nat → Prop) es :
  Forall (λ e : nat * nat, P e.1 ∧ P e.2) es →
  ∀ graph : gmap nat (list nat),
    (∀ node adjacency,
       graph !! node = Some adjacency → P node ∧ Forall P adjacency) →
    ∀ node adjacency,
      add_edges es graph !! node = Some adjacency →
      P node ∧ Forall P adjacency.
Proof.
  induction 1 as [|[u v] es [Hu Hv] _ IH]; intros graph Hg; [exact Hg|].
  change (add_edges ((u, v) :: es) graph) with
    (add_edges es (add_edge graph u v)).
  apply IH. unfold add_edge.
  apply add_neighbour_within; [|done|done].
  by apply add_neighbour_within.
Qed.

Lemma filter_none {A} (P : A → Prop) `{∀ x, Decision (P x)} (l : list A) :
  Forall (λ x, ¬ P x) l → filter P l = [].
Proof.
  induction 1 as [|x l Hx _ IH]; [done|]. by rewrite filter_cons_False.
Qed.

Lemma draw_networkx_edges_positioned (graph : gmap nat (list nat))
    (pos : gmap nat (float * float)) :
  (∀ node adjacency,
     graph !! node = Some adjacency →
     is_Some (pos !! node) ∧ Forall (λ v, is_Some (pos !! v)) adjacency) →
  draw_networkx_edges graph pos = Returns ().
Proof.
  intros Hg. unfold draw_networkx_edges. rewrite filter_none; [done|].
  apply Forall_forall. intros node Hin.
  rewrite flat_map_bind, list_elem_of_bind in Hin.
  destruct Hin as ([k adjacency] & Hin & Hentry).
  apply elem_of_map_to_list in Hentry. destruct (Hg _ _ Hentry) as [Hk Hall].
  simpl in Hin. destruct adjacency as [|v adjacency]; [by apply elem_of_nil in Hin|].
  assert (is_Some (pos !! node)) as [p Hp]; [|by rewrite Hp].
  apply elem_of_cons in Hin as [->|Hin]; [done|].
  rewrite Forall_forall in Hall. by apply Hall.
Qed.

Lemma draw_networkx_nodes_positioned (pos : gmap nat (float * float)) nodelist :
  Forall (λ node, is_Some (pos !! node)) nodelist →
  draw_networkx_nodes pos nodelist = Returns ().
Proof.
  intros Hall. unfold draw_networkx_nodes. rewrite filter_none; [done|].
  eapply Forall_impl; [exact Hall|]. intros node [p Hp]. by rewrite Hp.
Qed.

Lemma draw_networkx_labels_positioned (pos : gmap nat (float * float))
    (labels : gmap nat string) :
  (∀ node, is_Some (labels !! node) → is_Some (pos !! node)) →
  draw_networkx_labels pos labels = Returns ().
Proof.
  intros Hall. unfold draw_networkx_labels. rewrite filter_none; [done|].
  apply Forall_forall. intros node Hin.
  apply list_elem_of_fmap in Hin as ([k label] & -> & Hin).
  apply elem_of_map_to_list in Hin. simpl.
  destruct (Hall k) as [p Hp]; [by eexists|]. by rewrite Hp.
Qed.

Lemma listdir_makedirs directory (fs : gmap string (list string)) :
  listdir (makedirs directory fs) directory =
  Returns (default [] (fs !! directory)).
Proof.
  unfold listdir, makedirs. destruct (fs !! directory) as [listing|] eqn:E.
  - by rewrite E.
  - by rewrite lookup_insert_eq.
Qed.

(** The name under which the next image of a directory is saved. *)
Lemma generate_cotree_filename_makedirs leaf_count directory
    (fs : gmap string (list string)) :
  generate_cotree_filename leaf_count directory (makedirs directory fs) =
  Returns (cotree_prefix leaf_count +:+
           pretty (length (filter (counted_image leaf_count)
                             (default [] (fs !! directory))) + 1)).
Proof.
  unfold generate_cotree_filename. by rewrite listdir_makedirs.
Qed.

(** The drawing steps of [render_cotree_jpg] find every position they
    look up. *)
Lemma layout_of_accepted serialized es ls leafs recursion_limit
    x_center y_top level_gap :
  parse_cotree serialized = Ok (es, ls, leafs) →
  serialized ≠ "a" →
  length es < recursion_limit →
  ∃ pos,
    hierarchy_layout recursion_limit (graph_of_edges es) 1
      x_center y_top level_gap = Returns pos ∧
    (∀ id, is_Some (pos !! id) ↔ is_Some (leafs !! id)) ∧
    (∀ node adjacency,
       graph_of_edges es !! node = Some adjacency →
       is_Some (pos !! node) ∧ Forall (λ v, is_Some (pos !! v)) adjacency) ∧
    (∀ id, is_Some (ls !! id) → is_Some (pos !! id)).
Proof.
  intros Hparse Hne Hlimit.
  destruct (parse_cotree_edges _ _ _ _ Hparse) as (t & Hb & Hes & Hleaf).
  destruct (parse_cotree_accepted _ _ _ _ Hparse) as (Htree & Hdom & Hlabels).
  pose proof (length_root_edges t) as Hnodes. rewrite <- Hes in Hnodes.
  assert (t ≠ Leaf) as Ht by (intros Heq; by apply Hne, Hleaf).
  exists (tree_layout y_top level_gap t 1 0 0.0%float ∅).2.
  assert (∀ id, is_Some ((tree_layout y_top level_gap t 1 0 0.0%float ∅).2 !! id)
                ↔ is_Some (leafs !! id)) as Hkeys.
  { intros id. rewrite tree_layout_keys, lookup_empty, Hdom, elem_of_seq.
    split; [intros [[? ?]|?]; [done|lia]|intros ?; right; lia]. }
  split_and!.
  - rewrite Hes. apply hierarchy_layout_tree; [done|done|lia].
  - exact Hkeys.
  - apply (add_edges_within (λ v, is_Some
             ((tree_layout y_top level_gap t 1 0 0.0%float ∅).2 !! v)) es).
    + apply Forall_forall. intros [p c] Hin. simpl.
      destruct Htree as (_ & Hends & _). destruct (Hends _ _ Hin) as [Hp Hc].
      by rewrite !Hkeys, !Hdom.
    + intros node adjacency. by rewrite lookup_empty.
  - intros id Hid. apply Hkeys. apply Hlabels in Hid. by rewrite Hid.
Qed.

(** What [render_cotree_jpg] does on an accepted text. *)
Lemma render_accepted (recursion_limit : nat)
    (serialized : string) (leaf_count : nat) (output_dir : string)
    (fs : gmap string (list string))
    (es : list (nat * nat)) (ls : gmap nat string) (leafs : gmap nat bool) :
  parse_cotree serialized = Ok (es, ls, leafs) →
  length es < recursion_limit →
  render_cotree_jpg recursion_limit serialized leaf_count output_dir fs =
  if decide (serialized = "a") then (fs, Raises (NetworkXError 1))
  else
    let images_dir :=
      path_join output_dir ("cotree_images_" +:+ pretty leaf_count) in
    let existing :=
      filter (counted_image leaf_count) (default [] (fs !! images_dir)) in
    let name := image_name leaf_count (length existing + 1) in
    (savefig images_dir name (makedirs images_dir fs),
     Returns (path_join images_dir name)).
Proof.
  intros Hparse Hlimit. unfold render_cotree_jpg. rewrite Hparse.
  destruct (decide (serialized = "a")) as [->|Hne].
  { rewrite parse_cotree_leaf in Hparse. injection Hparse as <- <- <-.
    rewrite hierarchy_layout_missing_root by done.
    destruct recursion_limit; [simpl in Hlimit; lia|done]. }
  destruct (layout_of_accepted serialized es ls leafs recursion_limit
              0.5%float 1.0%float 0x1.999999999999ap-4%float Hparse Hne Hlimit)
    as (pos & -> & Hkeys & Hgraph & Hlabels).
  cbn [mbind outcome_bind].
  rewrite draw_networkx_edges_positioned by done.
  cbn [mbind outcome_bind].
  rewrite !draw_networkx_nodes_positioned.
  - cbn [mbind outcome_bind].
    rewrite draw_networkx_labels_positioned by done.
    cbv zeta. by rewrite generate_cotree_filename_makedirs.
  - apply Forall_forall. intros id Hin.
    apply list_elem_of_fmap in Hin as ([k b] & -> & Hin).
    apply list_elem_of_filter in Hin as [_ Hin].
    apply elem_of_map_to_list in Hin. apply Hkeys. by eexists.
  - apply Forall_forall. intros id Hin.
    apply list_elem_of_fmap in Hin as ([k b] & -> & Hin).
    apply list_elem_of_filter in Hin as [_ Hin].
    apply elem_of_map_to_list in Hin. apply Hkeys. by eexists.
Qed.

(** X14: what [render_cotree_jpg] does on a text [parse_cotree]
    accepts (the recursion limit allowing a nested call per node).  For
    the one-leaf text [a] the graph has no node, so the layout raises
    networkx's error for node 1 and no directory or file is created.
    For every other accepted text no step raises: the layout positions
    every node the drawing calls look up, the images directory
    [output_dir/cotree_images_<leaf_count>] is created if missing, and
    the image is saved there as [cotree_n<leaf_count>_<index>.jpg],
    [index] being one more than the number of such files in the
    directory. *)
Theorem render_cotree_jpg_accepted (recursion_limit : nat)
    (serialized : string) (leaf_count : nat) (output_dir : string)
    (fs : gmap string (list string))
    (es : list (nat * nat)) (ls : gmap nat string) (leafs : gmap nat bool) :
  parse_cotree serialized = Ok (es, ls, leafs) →
  length es < recursion_limit →
  render_cotree_jpg recursion_limit serialized leaf_count output_dir fs =
  if decide (serialized = "a") then (fs, Raises (NetworkXError 1))
  else
    let images_dir :=
      path_join output_dir ("cotree_images_" +:+ pretty leaf_count) in
    let existing :=
      filter (counted_image leaf_count) (default [] (fs !! images_dir)) in
    let name := image_name leaf_count (length existing + 1) in
    (savefig images_dir name (makedirs images_dir fs),
     Returns (path_join images_dir name)).
Proof. apply render_accepted. Qed.

Lemma render_cotree_jpg_accepted_witness :
  let es := [(2, 3); (2, 4); (1, 2); (1, 5)] in
  let ls : gmap nat string := <[1 := "J (3)"]> (<[2 := "U (2)"]> ∅) in
  let leafs : gmap nat bool :=
    <[1 := false]> (<[5 := true]> (<[2 := false]>
      (<[4 := true]> (<[3 := true]> ∅)))) in
  let fs : gmap string (list string) :=
    <["out/cotree_images_3" := ["cotree_n3_1.jpg"; "notes.txt"]]> ∅ in
  parse_cotree "J(U(a,a),a)" = Ok (es, ls, leafs) ∧
  length es < 1000 ∧
  render_cotree_jpg 1000 "J(U(a,a),a)" 3 "out" fs =
  (<["out/cotree_images_3" :=
       ["cotree_n3_1.jpg"; "notes.txt"; "cotree_n3_2.jpg"]]> fs,
   Returns "out/cotree_images_3/cotree_n3_2.jpg").
Proof.
  intros es ls leafs fs.
  assert (parse_cotree "J(U(a,a),a)" = Ok (es, ls, leafs)) as H1
    by (vm_compute; reflexivity).
  assert (length es < 1000) as H2 by (simpl; lia).
  split_and!; [exact H1|exact H2|].
  rewrite (render_cotree_jpg_accepted 1000 "J(U(a,a),a)" 3 "out" fs es ls leafs
             H1 H2).
  vm_compute. reflexivity.
Defined.

(** ** Image files *)

Lemma startswith_app p s : startswith p (p +:+ s) = true.
Proof.
  unfold startswith. induction p as [|c p IH]; [by destruct s|].
  rewrite app_cons. simpl. by destruct (ascii_dec c c).
Qed.

Lemma endswith_app suffix s : endswith suffix (s +:+ suffix) = true.
Proof.
  unfold endswith. rewrite length_app_text.
  replace (String.length s + String.length suffix - String.length suffix)
    with (String.length s) by lia.
  rewrite string_drop_app, bool_decide_eq_true_2 by done.
  rewrite andb_true_r. apply Nat.leb_le. lia.
Qed.

Lemma app_inv_head_text s a b : s +:+ a = s +:+ b → a = b.
Proof.
  induction s as [|c s IH]; [done|]. rewrite !app_cons. intros [= H]. auto.
Qed.

Lemma app_inv_tail_text s a b : a +:+ s = b +:+ s → a = b.
Proof.
  revert b. induction a as [|c a IH]; intros [|c' b] Heq; [done| | |].
  - apply (f_equal String.length) in Heq.
    rewrite !length_app_text in Heq. simpl in Heq. lia.
  - apply (f_equal String.length) in Heq.
    rewrite !length_app_text in Heq. simpl in Heq. lia.
  - rewrite !app_cons in Heq. injection Heq as -> Heq. f_equal. by apply IH.
Qed.

Lemma image_name_counted leaf_count index :
  counted_image leaf_count (image_name leaf_count index).
Proof.
  unfold counted_image, image_name. split.
  - rewrite app_assoc_text. apply startswith_app.
  - apply endswith_app.
Qed.

Lemma image_name_inj leaf_count i j :
  image_name leaf_count i = image_name leaf_count j → i = j.
Proof.
  unfold image_name. intros Heq%app_inv_tail_text%app_inv_head_text.
  by apply (inj pretty).
Qed.

(** In a directory whose counted files are numbered [1 .. k] the names
    from [k + 1] on are free. *)
Lemma sequential_names_free leaf_count (listing : list string) k i :
  filter (counted_image leaf_count) listing ≡ₚ image_name leaf_count <$> seq 1 k →
  k < i → image_name leaf_count i ∉ listing.
Proof.
  intros Hperm Hi Hin.
  assert (image_name leaf_count i ∈ filter (counted_image leaf_count) listing)
    as Hfiltered.
  { apply list_elem_of_filter. split; [apply image_name_counted|done]. }
  rewrite Hperm in Hfiltered.
  apply list_elem_of_fmap in Hfiltered as (j & Heq & Hj).
  apply image_name_inj in Heq as <-. apply elem_of_seq in Hj. lia.
Qed.

(** X15: the numbering of [generate_cotree_filename].  The name
    returned carries one more than the number of files of the directory
    whose name starts with [cotree_n<leaf_count>_] and ends with
    [.jpg], in whatever order [os.listdir] lists them.  When those files
    are numbered [1 .. k] the name is that of no file of the directory;
    when file 1 is missing and they are numbered [2 .. k + 1], the name
    returned is that of the last of them, which the caller then writes
    over. *)
Theorem generate_cotree_filename_numbering (leaf_count : nat)
    (output_dir : string) (fs : gmap string (list string))
    (listing : list string) (k : nat) :
  fs !! output_dir = Some listing →
  (∀ fs' listing',
     fs' !! output_dir = Some listing' → listing ≡ₚ listing' →
     generate_cotree_filename leaf_count output_dir fs' =
     generate_cotree_filename leaf_count output_dir fs) ∧
  (filter (counted_image leaf_count) listing ≡ₚ
     image_name leaf_count <$> seq 1 k →
   generate_cotree_filename leaf_count output_dir fs =
     Returns (cotree_prefix leaf_count +:+ pretty (k + 1)) ∧
   image_name leaf_count (k + 1) ∉ listing) ∧
  (1 ≤ k →
   filter (counted_image leaf_count) listing ≡ₚ
     image_name leaf_count <$> seq 2 k →
   generate_cotree_filename leaf_count output_dir fs =
     Returns (cotree_prefix leaf_count +:+ pretty (k + 1)) ∧
   image_name leaf_count (k + 1) ∈ listing).
Proof.
  intros Hdir. unfold generate_cotree_filename, listdir. rewrite Hdir.
  cbn [mbind outcome_bind]. split_and!.
  - intros fs' listing' -> Hperm. cbn [mbind outcome_bind].
    by rewrite Hperm.
  - intros Hperm. rewrite Hperm, length_fmap, length_seq. split; [done|].
    eapply sequential_names_free; [exact Hperm|lia].
  - intros Hk Hperm. rewrite Hperm, length_fmap, length_seq. split; [done|].
    assert (image_name leaf_count (k + 1) ∈
              filter (counted_image leaf_count) listing) as Hin.
    { rewrite Hperm. apply list_elem_of_fmap. exists (k + 1). split; [done|].
      apply elem_of_seq. lia. }
    by apply list_elem_of_filter in Hin as [_ Hin].
Qed.

Lemma generate_cotree_filename_numbering_witness :
  let fs : gmap string (list string) :=
    <["dir" := ["cotree_n3_2.jpg"; "notes.txt"; "cotree_n3_1.jpg"]]> ∅ in
  let listing := ["cotree_n3_2.jpg"; "notes.txt"; "cotree_n3_1.jpg"] in
  fs !! "dir" = Some listing ∧
  filter (counted_image 3) listing ≡ₚ image_name 3 <$> seq 1 2 ∧
  generate_cotree_filename 3 "dir" fs = Returns "cotree_n3_3" ∧
  image_name 3 (2 + 1) ∉ listing.
Proof.
  intros fs listing.
  assert (fs !! "dir" = Some listing) as H1 by reflexivity.
  assert (filter (counted_image 3) listing ≡ₚ image_name 3 <$> seq 1 2) as H2.
  { vm_compute. apply perm_swap. }
  split_and!; [exact H1|exact H2|..];
    apply (proj1 (proj2 (generate_cotree_filename_numbering 3 "dir" fs listing 2
                           H1)) H2).
Defined.

(** ** All the images of a node count *)

Lemma savefig_new directory name (fs : gmap string (list string)) :
  name ∉ default [] (fs !! directory) →
  savefig directory name (makedirs directory fs) =
  <[directory := default [] (fs !! directory) ++ [name]]> fs.
Proof.
  intros Hnew. unfold savefig, makedirs.
  destruct (fs !! directory) as [listing|] eqn:E; simpl in Hnew.
  - rewrite E. by rewrite decide_False.
  - rewrite lookup_insert_eq. rewrite decide_False by done.
    by rewrite insert_insert_eq.
Qed.

Lemma savefig_existing directory name (fs : gmap string (list string)) :
  name ∈ default [] (fs !! directory) →
  savefig directory name (makedirs directory fs) = fs.
Proof.
  intros Hold. unfold savefig, makedirs.
  destruct (fs !! directory) as [listing|] eqn:E; simpl in Hold.
  - rewrite E. by rewrite decide_True.
  - by apply elem_of_nil in Hold.
Qed.

Lemma render_drawable recursion_limit structure leaf_count output_dir
    (fs : gmap string (list string)) :
  drawable recursion_limit structure →
  let images_dir :=
    path_join output_dir ("cotree_images_" +:+ pretty leaf_count) in
  let name :=
    image_name leaf_count
      (length (filter (counted_image leaf_count)
                 (default [] (fs !! images_dir))) + 1) in
  render_cotree_jpg recursion_limit structure leaf_count output_dir fs =
  (savefig images_dir name (makedirs images_dir fs),
   Returns (path_join images_dir name)).
Proof.
  intros (Hne & es & ls & leafs & Hparse & Hlimit) images_dir name.
  rewrite (render_accepted _ _ _ _ _ es ls leafs) by done.
  by rewrite decide_False.
Qed.

(** The loop of [generate_cotree_images] on a directory where the names
    from [k + 1] on are free. *)
Lemma render_all_sequence recursion_limit node_count output_dir structures :
  Forall (drawable recursion_limit) structures →
  ∀ total (fs : gmap string (list string)) k,
    let images_dir :=
      path_join output_dir ("cotree_images_" +:+ pretty node_count) in
    let listing := default [] (fs !! images_dir) in
    length (filter (counted_image node_count) listing) = k →
    (∀ i, k < i → image_name node_count i ∉ listing) →
    render_all recursion_limit structures node_count output_dir total fs =
    (match structures with
     | [] => fs
     | _ =>
         <[images_dir :=
             listing ++
             (image_name node_count <$> seq (k + 1) (length structures))]> fs
     end,
     Returns (total + length structures)).
Proof.
  induction 1 as [|structure structures Hs _ IH];
    intros total fs k images_dir listing Hk Hfree.
  { simpl. by rewrite Nat.add_0_r. }
  cbn [render_all]. rewrite render_drawable by done.
  fold images_dir. fold listing. rewrite Hk.
  rewrite savefig_new by (apply Hfree; lia). fold listing.
  set (fs1 := <[images_dir := listing ++ [image_name node_count (k + 1)]]> fs).
  rewrite (IH (total + 1) fs1 (k + 1)).
  - fold images_dir. unfold fs1 at 1 2. rewrite lookup_insert_eq. simpl.
    f_equal; [|f_equal; lia].
    destruct structures as [|structure' structures]; [done|].
    unfold fs1. rewrite insert_insert_eq. f_equal.
    rewrite <- app_assoc. f_equal.
    replace (k + 1 + 1) with (S (k + 1)) by lia. done.
  - fold images_dir. unfold fs1. rewrite lookup_insert_eq. simpl.
    rewrite filter_app, length_app, Hk.
    rewrite filter_cons_True by apply image_name_counted. done.
  - fold images_dir. unfold fs1. rewrite lookup_insert_eq. simpl.
    intros i Hi. rewrite elem_of_app, list_elem_of_singleton.
    intros [Hin|Heq].
    + by apply (Hfree i); [lia|].
    + apply image_name_inj in Heq. lia.
Qed.

(** The same loop when the next name is that of a file of the
    directory. *)
Lemma render_all_overwrites recursion_limit node_count output_dir structures :
  Forall (drawable recursion_limit) structures →
  ∀ total (fs : gmap string (list string)),
    let images_dir :=
      path_join output_dir ("cotree_images_" +:+ pretty node_count) in
    let listing := default [] (fs !! images_dir) in
    image_name node_count
      (length (filter (counted_image node_count) listing) + 1) ∈ listing →
    render_all recursion_limit structures node_count output_dir total fs =
    (fs, Returns (total + length structures)).
Proof.
  induction 1 as [|structure structures Hs _ IH];
    intros total fs images_dir listing Hin.
  { simpl. by rewrite Nat.add_0_r. }
  cbn [render_all]. rewrite render_drawable by done.
  fold images_dir. fold listing. rewrite savefig_existing by done.
  rewrite IH by done. simpl. do 2 f_equal. lia.
Qed.

Lemma parse_cotree_serialize_returns t :
  branching 1 t →
  ∃ es ls leafs,
    parse_cotree (serialize t) = Ok (es, ls, leafs) ∧ S (length es) = nodes t.
Proof.
  intros Hb. destruct t as [|op children].
  { exists [], ∅, (<[1 := true]> ∅). by rewrite <- parse_cotree_leaf. }
  pose proof Hb as Hb'. apply branching_node in Hb' as [Hlen Hall].
  assert (children ≠ []) as Hne by (intros ->; simpl in Hlen; lia).
  set (st0 := {| node_id := 1; edges := []; labels := ∅; is_leaf := ∅ |}).
  set (st1 := {| node_id := node_id st0 + 1; edges := edges st0;
                 labels := labels st0; is_leaf := is_leaf st0 |}).
  assert (Forall parses_as_child children) as Hchildren.
  { eapply Forall_impl; [exact Hall|]. apply parse_serialize_child. }
  pose proof (nodes_le_length (Node op children)) as Hnodes.
  destruct (parse_children_effect children Hchildren
              (String.length (serialize (Node op children))) (node_id st0) [] st1)
    as (st2 & Hrun & Hid & (E & Hedges & _ & Hperm & _) & _).
  { cbn [nodes] in Hnodes. rewrite <- map_fmap. lia. }
  { simpl. lia. }
  { intros id _. apply lookup_empty. }
  simpl in Hedges, Hperm.
  eexists _, _, _. split.
  - unfold parse_cotree. fold st0. rewrite parse_node by done.
    fold st1. rewrite map_fmap, Hrun. simpl. reflexivity.
  - rewrite Hedges.
    change (nodes (Node op children)) with (S (sum_list (nodes <$> children))).
    f_equal. apply Permutation_length in Hperm.
    by rewrite length_fmap, length_seq in Hperm.
Qed.

Lemma nodes_branching t : branching 2 t → nodes t + 1 ≤ 2 * leaves t.
Proof.
  induction t as [|op children IH] using cotree_rect_forall; [simpl; lia|].
  rewrite branching_node. intros [Hlen Hall].
  change (nodes (Node op children)) with (S (sum_list (nodes <$> children))).
  change (leaves (Node op children)) with (sum_list (leaves <$> children)).
  assert (sum_list (nodes <$> children) + length children
          ≤ 2 * sum_list (leaves <$> children)); [|lia].
  clear Hlen. induction IH as [|c children Hc _ IHchildren]; [done|].
  apply Forall_cons in Hall as [Hbc Hbs]. specialize (Hc Hbc).
  specialize (IHchildren Hbs). rewrite !fmap_cons. simpl in *. lia.
Qed.

Lemma every_structure_drawable node_count recursion_limit structure :
  2 ≤ node_count → 2 * node_count ≤ recursion_limit →
  structure ∈ generate_every_cotree_structure node_count 0 →
  drawable recursion_limit structure.
Proof.
  intros Hn Hlimit (t & -> & Hleaves & Hb)%every_structure_shape.
  pose proof (nodes_branching t Hb) as Hnodes.
  destruct (parse_cotree_serialize_returns t)
    as (es & ls & leafs & Hparse & Hlen).
  { eapply branching_weaken; [|exact Hb]. lia. }
  split.
  - destruct t as [|op children]; [simpl in Hleaves; lia|].
    rewrite serialize_node. by destruct op.
  - exists es, ls, leafs. split; [done|]. lia.
Qed.

Lemma every_structure_inhabited node_count :
  1 ≤ node_count → generate_every_cotree_structure node_count 0 ≠ [].
Proof.
  intros Hn Hnil.
  destruct (generate_all_cotree_structures_inhabited node_count 0 Hn) as [s Hs].
  unfold generate_every_cotree_structure,
    generate_connected_cotree_structures in Hnil.
  apply app_eq_nil in Hnil as [Hnil _]. rewrite Hnil in Hs.
  by apply elem_of_nil in Hs.
Qed.

(** X16: for two or more nodes (and a recursion limit of at least twice
    the node count) [generate_cotree_images] raises nothing, returns the
    number of structures, and, in an images directory whose counted
    files are numbered [1 .. k] (none, when the directory is new),
    creates one file per structure, numbered from [k + 1] on in the
    order of the structures.  Nothing else changes.  (The structures are
    those of [structures.py] as the spec describes them.) *)
Theorem generate_cotree_images_numbers_files (recursion_limit node_count : nat)
    (output_dir : string) (fs : gmap string (list string)) (k : nat) :
  let images_dir :=
    path_join output_dir ("cotree_images_" +:+ pretty node_count) in
  let listing := default [] (fs !! images_dir) in
  let structures := generate_every_cotree_structure node_count 0 in
  2 ≤ node_count → 2 * node_count ≤ recursion_limit →
  filter (counted_image node_count) listing ≡ₚ
    image_name node_count <$> seq 1 k →
  generate_cotree_images recursion_limit node_count output_dir fs =
  (<[images_dir :=
       listing ++ (image_name node_count <$> seq (k + 1) (length structures))]> fs,
   Returns (length structures)).
Proof.
  intros images_dir listing structures Hn Hlimit Hperm.
  unfold generate_cotree_images. fold structures.
  assert (Forall (drawable recursion_limit) structures) as Hall.
  { apply Forall_forall. intros s Hs. by eapply every_structure_drawable. }
  rewrite (render_all_sequence recursion_limit node_count output_dir structures
             Hall 0 fs k).
  - fold images_dir. fold listing.
    pose proof (every_structure_inhabited node_count) as Hne.
    fold structures in Hne.
    destruct structures; [exfalso; apply Hne; [lia|done]|done].
  - fold images_dir. fold listing.
    apply Permutation_length in Hperm.
    by rewrite length_fmap, length_seq in Hperm.
  - fold images_dir. fold listing. intros i Hi.
    by eapply sequential_names_free.
Qed.

Lemma generate_cotree_images_numbers_files_witness :
  let fs : gmap string (list string) :=
    <["out/cotree_images_3" := ["cotree_n3_1.jpg"; "notes.txt"]]> ∅ in
  2 ≤ 3 ∧ 2 * 3 ≤ 1000 ∧
  filter (counted_image 3) ["cotree_n3_1.jpg"; "notes.txt"] ≡ₚ
    image_name 3 <$> seq 1 1 ∧
  generate_cotree_images 1000 3 "out" fs =
  (<["out/cotree_images_3" :=
       ["cotree_n3_1.jpg"; "notes.txt"; "cotree_n3_2.jpg"; "cotree_n3_3.jpg";
        "cotree_n3_4.jpg"; "cotree_n3_5.jpg"]]> fs,
   Returns 4).
Proof.
  intros fs.
  assert (2 ≤ 3) as H1 by lia.
  assert (2 * 3 ≤ 1000) as H2 by lia.
  assert (filter (counted_image 3) ["cotree_n3_1.jpg"; "notes.txt"] ≡ₚ
            image_name 3 <$> seq 1 1) as H3 by (vm_compute; reflexivity).
  split_and!; [exact H1|exact H2|exact H3|].
  rewrite (generate_cotree_images_numbers_files 1000 3 "out" fs 1 H1 H2 H3).
  vm_compute. reflexivity.
Defined.

(** X17: when the next number is already taken (the counted files of
    the images directory being fewer than their highest number, as after
    a file was deleted), [generate_cotree_images] writes every image
    over that one file: the directory is left as it was, and the count
    returned is still the number of structures. *)
Theorem generate_cotree_images_overwrites (recursion_limit node_count : nat)
    (output_dir : string) (fs : gmap string (list string)) :
  let images_dir :=
    path_join output_dir ("cotree_images_" +:+ pretty node_count) in
  let listing := default [] (fs !! images_dir) in
  2 ≤ node_count → 2 * node_count ≤ recursion_limit →
  image_name node_count
    (length (filter (counted_image node_count) listing) + 1) ∈ listing →
  generate_cotree_images recursion_limit node_count output_dir fs =
  (fs, Returns (length (generate_every_cotree_structure node_count 0))).
Proof.
  intros images_dir listing Hn Hlimit Hin. unfold generate_cotree_images.
  rewrite render_all_overwrites; [done| |done].
  apply Forall_forall. intros s Hs. by eapply every_structure_drawable.
Qed.

Lemma generate_cotree_images_overwrites_witness :
  let fs : gmap string (list string) :=
    <["out/cotree_images_3" := ["cotree_n3_2.jpg"]]> ∅ in
  2 ≤ 3 ∧ 2 * 3 ≤ 1000 ∧
  image_name 3 (length (filter (counted_image 3) ["cotree_n3_2.jpg"]) + 1)
    ∈ ["cotree_n3_2.jpg"] ∧
  generate_cotree_images 1000 3 "out" fs = (fs, Returns 4).
Proof.
  intros fs.
  assert (2 ≤ 3) as H1 by lia.
  assert (2 * 3 ≤ 1000) as H2 by lia.
  assert (image_name 3
            (length (filter (counted_image 3) ["cotree_n3_2.jpg"]) + 1)
          ∈ ["cotree_n3_2.jpg"]) as H3 by (vm_compute; left).
  split_and!; [exact H1|exact H2|exact H3|].
  exact (generate_cotree_images_overwrites 1000 3 "out" fs H1 H2 H3).
Defined.

(** X18: for one node the only structure is the bare leaf [a], whose
    edge list is empty: [generate_cotree_images] raises networkx's error
    for node 1 at its first image and creates no directory and no
    file. *)
Theorem generate_cotree_images_single_node (recursion_limit : nat)
    (output_dir : string) (fs : gmap string (list string)) :
  1 ≤ recursion_limit →
  generate_cotree_images recursion_limit 1 output_dir fs =
  (fs, Raises (NetworkXError 1)).
Proof.
  intros Hlimit. unfold generate_cotree_images.
  change (generate_every_cotree_structure 1 0) with ["a"].
  cbn [render_all].
  rewrite (render_accepted recursion_limit "a" 1 output_dir fs
             [] ∅ (<[1 := true]> ∅)); [done|done|simpl; lia].
Qed.

Lemma generate_cotree_images_single_node_witness :
  1 ≤ 1000 ∧
  generate_cotree_images 1000 1 "out" ∅ = (∅, Raises (NetworkXError 1)).
Proof.
  assert (1 ≤ 1000) as H by lia.
  split; [exact H|]. exact (generate_cotree_images_single_node 1000 "out" ∅ H).
Defined.

(** ** The window *)

(** X19: once the three checks of [run_generation] pass and the range
    of node counts is not empty, the button never reaches its final
    message in two cases.  With the graph6 output ticked, the first call
    of [generate_cographs_final_g6] raises [TypeError]: the window
    passes [output_dir], which is no parameter of that function, so its
    body never runs, whatever it is.  With only the images ticked and
    the range starting at one node (the value the window opens with),
    the first image raises networkx's error for node 1.  In both cases
    nothing has been written. *)
Theorem run_generation_raises (recursion_limit : nat)
    (final_g6_body :
       nat → string → bool → gmap string (list string) →
       gmap string (list string) * outcome string)
    (w : form) (fs : gmap string (list string)) :
  strip (export_path w) ≠ "" →
  cb_graph6 w || cb_cotree w = true →
  cb_connected w || cb_disconnected w = true →
  minVertices w ≤ maxVertices w →
  1 ≤ recursion_limit →
  (cb_graph6 w = true →
   run_generation recursion_limit final_g6_body w fs =
   (fs, Raises (TypeError "output_dir"))) ∧
  (cb_graph6 w = false → minVertices w = 1 →
   run_generation recursion_limit final_g6_body w fs =
   (fs, Raises (NetworkXError 1))).
Proof.
  intros Hdir Houtput Hconnectivity Hrange Hlimit.
  unfold run_generation. cbv zeta.
  rewrite decide_False by done. rewrite Houtput, Hconnectivity. cbn [negb].
  destruct (maxVertices w + 1 - minVertices w) as [|count] eqn:Hcount; [lia|].
  cbn [seq generation_loop]. unfold generate_for. split.
  - intros ->. done.
  - intros Hgraph6 Hmin. rewrite Hgraph6 in *. simpl in Houtput.
    rewrite Houtput, Hmin.
    destruct (generate_cotree_images recursion_limit 1
                (strip (export_path w)) fs) as [fs' r] eqn:Himages.
    unfold generate_cotree_images in Himages.
    change (generate_every_cotree_structure 1 0) with ["a"] in Himages.
    cbn [render_all] in Himages.
    rewrite (render_accepted recursion_limit "a" 1 (strip (export_path w)) fs
               [] ∅ (<[1 := true]> ∅)) in Himages; [|done|simpl; lia].
    by injection Himages as <- <-.
Qed.

Lemma run_generation_raises_witness :
  let w := {| minVertices := 1; maxVertices := 10;
              export_path := " /home/user/Documents ";
              cb_connected := true; cb_disconnected := false;
              cb_graph6 := true; cb_cotree := true |} in
  let body := λ (_ : nat) (_ : string) (_ : bool)
                (fs : gmap string (list string)), (fs, Returns "cographs_g6.txt") in
  strip (export_path w) ≠ "" ∧
  cb_graph6 w || cb_cotree w = true ∧
  cb_connected w || cb_disconnected w = true ∧
  minVertices w ≤ maxVertices w ∧
  1 ≤ 1000 ∧
  run_generation 1000 body w ∅ = (∅, Raises (TypeError "output_dir")).
Proof.
  intros w body.
  assert (strip (export_path w) ≠ "") as H1 by (vm_compute; done).
  assert (cb_graph6 w || cb_cotree w = true) as H2 by reflexivity.
  assert (cb_connected w || cb_disconnected w = true) as H3 by reflexivity.
  assert (minVertices w ≤ maxVertices w) as H4 by (simpl; lia).
  assert (1 ≤ 1000) as H5 by lia.
  split_and!; [exact H1|exact H2|exact H3|exact H4|exact H5|].
  exact (proj1 (run_generation_raises 1000 body w ∅ H1 H2 H3 H4 H5) eq_refl).
Defined.

(** ** The label of the root *)

(** What [parse_cotree] records for the root of a cotree text. *)
Lemma root_label op children :
  branching 1 (Node op children) →
  ∃ es ls leafs,
    parse_cotree (serialize (Node op children)) = Ok (es, ls, leafs) ∧
    leafs !! 1 = Some false ∧
    ls !! 1 = Some (String (operator_char op) "" +:+ " (" +:+
                    pretty (leaf_count leafs) +:+ ")") ∧
    leaf_count leafs = leaves (Node op children).
Proof.
  intros Hb. pose proof Hb as Hb'. apply branching_node in Hb' as [Hlen Hall].
  assert (children ≠ []) as Hne by (intros ->; simpl in Hlen; lia).
  set (st0 := {| node_id := 1; edges := []; labels := ∅; is_leaf := ∅ |}).
  set (st1 := {| node_id := node_id st0 + 1; edges := edges st0;
                 labels := labels st0; is_leaf := is_leaf st0 |}).
  assert (Forall parses_as_child children) as Hchildren.
  { eapply Forall_impl; [exact Hall|]. apply parse_serialize_child. }
  pose proof (nodes_le_length (Node op children)) as Hnodes.
  destruct (parse_children_effect children Hchildren
              (String.length (serialize (Node op children))) (node_id st0) [] st1)
    as (st2 & Hrun & Hid & _ & Hout & _ & Hcnt).
  { cbn [nodes] in Hnodes. rewrite <- map_fmap. lia. }
  { simpl. lia. }
  { intros id _. apply lookup_empty. }
  simpl in Hout, Hcnt. rewrite leaf_count_empty in Hcnt.
  assert (leaf_count (<[1 := false]> (is_leaf st2)) =
            sum_list (leaves <$> children)) as Hleaves.
  { rewrite leaf_count_insert_false; [by rewrite Hcnt|].
    rewrite Hout by lia. apply lookup_empty. }
  eexists _, _, _. split_and!.
  - unfold parse_cotree. fold st0. rewrite parse_node by done.
    fold st1. rewrite map_fmap, Hrun. simpl. reflexivity.
  - apply lookup_insert_eq.
  - rewrite lookup_insert_eq, Hleaves. done.
  - exact Hleaves.
Qed.



(** X21: the composer and the parser together: for two or more nodes,
    [parse_cotree] accepts every structure
    [generate_all_cotree_structures(node_count, 0)] yields, labels its
    root [J (node_count)] and marks [node_count] ids as leaves, so the
    [leaf_count] under which [generate_cotree_images] files the image is
    the number of leaves drawn.  (The helpers of [utils.py] are as the
    spec describes them.) *)
Theorem composed_structure_root_label (node_count : nat) (structure : string) :
  2 ≤ node_count →
  structure ∈ generate_all_cotree_structures node_count 0 →
  ∃ es ls leafs,
    parse_cotree structure = Ok (es, ls, leafs) ∧
    ls !! 1 = Some ("J (" +:+ pretty node_count +:+ ")") ∧
    leaf_count leafs = node_count.
Proof.
  intros Hn (t & -> & Hleaves & Hb & Halt)%generate_all_cotree_structures_shape.
  destruct t as [|op children]; [simpl in Hleaves; lia|].
  destruct (root_label op children) as (es & ls & leafs & Hparse & _ & Hlabel & Hcount).
  { eapply branching_weaken; [|exact Hb]. lia. }
  exists es, ls, leafs. rewrite Hcount, Hleaves in Hlabel.
  split_and!; [done| |by rewrite Hcount].
  rewrite Hlabel. apply alternates_node in Halt as [-> _]. done.
Qed.

Lemma composed_structure_root_label_witness :
  2 ≤ 4 ∧
  "J(U(a,a),U(a,a))" ∈ generate_all_cotree_structures 4 0 ∧
  ∃ es ls leafs,
    parse_cotree "J(U(a,a),U(a,a))" = Ok (es, ls, leafs) ∧
    ls !! 1 = Some ("J (" +:+ pretty 4 +:+ ")") ∧
    leaf_count leafs = 4.
Proof.
  assert (2 ≤ 4) as H1 by lia.
  assert ("J(U(a,a),U(a,a))" ∈ generate_all_cotree_structures 4 0) as H2.
  { vm_compute. repeat (first [left|right]). }
  split_and!; [exact H1|exact H2|].
  exact (composed_structure_root_label 4 "J(U(a,a),U(a,a))" H1 H2).
Defined.
